(** * Ship proxy system

    A shallow embedding of the ship/offshore proxy pair:

    - [Framing]  : the length-prefixed wire codec of [client/framing.js]
                   ([sendMessage], [setupMessageReader]);
    - [JS]       : the few JavaScript values and built-ins the two programs
                   rely on (JSON values, truthiness, [parseInt], base64);
    - [Ship]     : the local agent of [client/ship-proxy.js] as an event-driven
                   state machine (queue, [processing] flag, managed socket,
                   timers, suspended [processingLoop] invocations);
    - [Offshore] : the relay (the server program) as an event-driven state
                   machine ([handleClient], [handleRequestQueue],
                   [cleanupRequest]);
    - [Link]     : both machines joined by one byte channel in each
                   direction.

    Node.js runs every callback to completion on one thread.  A step of a
    machine is therefore one callback (one event), followed by the promise
    continuations that the callback made runnable, in the order in which
    they were queued. *)

From Stdlib Require Import ZArith Lia List.
From Stdlib.Strings Require Import Ascii String Byte.
From Stdlib Require DecimalString.
From stdpp Require Import base tactics option list strings numbers.
From Equations Require Import Equations.

Set Default Proof Using "Type".
Local Open Scope Z_scope.

(** ** Bytes *)

Abbreviation Buffer := (list byte).

Definition byteZ (b : byte) : Z := Z.of_N (Byte.to_N b).

(** Storing a number into a byte keeps its low eight bits. *)
Definition toByte (z : Z) : byte :=
  default Byte.x00 (Byte.of_N (Z.to_N (z mod 256))).

Lemma byteZ_range b : 0 <= byteZ b < 256.
Proof.
  unfold byteZ. pose proof (Byte.to_N_bounded b) as Hb.
  apply N2Z.inj_le in Hb. change (Z.of_N 255) with 255 in Hb.
  pose proof (N2Z.is_nonneg (Byte.to_N b)). lia.
Qed.

Lemma byteZ_toByte z : byteZ (toByte z) = z mod 256.
Proof.
  unfold toByte, byteZ.
  pose proof (Z.mod_pos_bound z 256 ltac:(lia)) as Hm.
  destruct (Byte.of_N (Z.to_N (z mod 256))) as [b|] eqn:E.
  - apply Byte.to_of_N in E. simpl. rewrite E. rewrite Z2N.id; lia.
  - apply Byte.of_N_None_iff in E. lia.
Qed.

Lemma toByte_byteZ b : toByte (byteZ b) = b.
Proof.
  unfold toByte. rewrite Z.mod_small by apply byteZ_range.
  unfold byteZ. rewrite N2Z.id, Byte.of_to_N. reflexivity.
Qed.

Module Framing.

(** [Buffer.writeUInt32BE(value, 0)] on a fresh 4-byte buffer; Node raises a
    [RangeError] when the value does not fit 32 bits. *)
Definition writeUInt32BE (value : Z) : option Buffer :=
  if (0 <=? value) && (value <=? 4294967295) then
    Some [toByte (Z.shiftr value 24); toByte (Z.shiftr value 16);
          toByte (Z.shiftr value 8); toByte value]
  else None.

(** [buffer.readUInt32BE(0)]; Node raises when fewer than four bytes exist. *)
Definition readUInt32BE (buffer : Buffer) : option Z :=
  match buffer with
  | b0 :: b1 :: b2 :: b3 :: _ =>
      Some (byteZ b0 * 2 ^ 24 + byteZ b1 * 2 ^ 16 + byteZ b2 * 2 ^ 8 + byteZ b3)
  | _ => None
  end.

(** [buffer.slice(from, to)] for in-range, ordered indices. *)
Definition slice (from to : Z) (buffer : Buffer) : Buffer :=
  take (Z.to_nat (to - from)) (drop (Z.to_nat from) buffer).

(** [sendMessage(sock, msgTpe, payLoadBuffer)]: the bytes handed to
    [sock.write], or [None] when [writeUInt32BE] throws. *)
Definition sendMessage (msgTpe : Z) (payLoadBuffer : Buffer) : option Buffer :=
  length ← writeUInt32BE (Z.of_nat (List.length payLoadBuffer));
  Some (length ++ [toByte msgTpe] ++ payLoadBuffer).

Definition Message : Type := Z * Buffer.

(** One turn of the [while (buffer.length >= 5)] loop of
    [setupMessageReader]: [Some (msgType, payload, buffer')] when the body
    takes its [if] branch, [None] when the loop is left (fewer than five
    bytes, or [break]). *)
Definition nextFrame (buffer : Buffer) : option (Z * Buffer * Buffer) :=
  if 5 <=? Z.of_nat (List.length buffer) then
    msgLength ← readUInt32BE buffer;
    if msgLength + 5 <=? Z.of_nat (List.length buffer) then
      msgType ← byteZ <$> buffer !! 4%nat;
      Some (msgType, slice 5 (5 + msgLength) buffer,
            drop (Z.to_nat (5 + msgLength)) buffer)
    else None
  else None.

Lemma nextFrame_shorter buffer msgType payload rest :
  nextFrame buffer = Some (msgType, payload, rest) →
  (List.length rest < List.length buffer)%nat.
Proof.
  unfold nextFrame. intros H.
  destruct (5 <=? Z.of_nat (List.length buffer)) eqn:E5; [|done].
  destruct (readUInt32BE buffer) as [n|] eqn:En; [|done]. simpl in H.
  destruct (n + 5 <=? Z.of_nat (List.length buffer)) eqn:E; [|done].
  destruct (buffer !! 4%nat) as [ty|]; [|done]. simpl in H.
  injection H as _ _ <-. rewrite length_drop.
  apply Z.leb_le in E5, E.
  assert (0 <= n).
  { unfold readUInt32BE in En.
    destruct buffer as [|b0 [|b1 [|b2 [|b3 ?]]]]; try done.
    injection En as <-.
    pose proof (byteZ_range b0). pose proof (byteZ_range b1).
    pose proof (byteZ_range b2). pose proof (byteZ_range b3). lia. }
  lia.
Qed.

Definition inspect {A : Type} (x : A) : {y : A | x = y} := exist _ x eq_refl.

(** The [data] callback's loop, run until it leaves: the messages passed to
    [onMessage], in order, and the bytes that stay buffered. *)
Equations? readerLoop (buffer : Buffer) : list Message * Buffer
  by wf (List.length buffer) lt :=
  readerLoop buffer with inspect (nextFrame buffer) := {
    | exist _ (Some (msgType, payload, rest)) Hnext =>
        let r := readerLoop rest in ((msgType, payload) :: r.1, r.2)
    | exist _ None _ => ([], buffer) }.
Proof. eapply nextFrame_shorter; eauto. Qed.

(** [sock.on('data', chunk => ...)] of [setupMessageReader]. *)
Definition onData (buffer : Buffer) (chunk : Buffer) : list Message * Buffer :=
  readerLoop (buffer ++ chunk).

(** Chunks delivered one after the other. *)
Fixpoint feed (buffer : Buffer) (chunks : list Buffer) : list Message * Buffer :=
  match chunks with
  | [] => ([], buffer)
  | chunk :: chunks' =>
      let r := onData buffer chunk in
      let r' := feed r.2 chunks' in
      (r.1 ++ r'.1, r'.2)
  end.

End Framing.

(** * JavaScript values and built-ins used by the two programs *)

Module JS.

(** The values [JSON.parse] returns.  Numbers are kept as integers: the
    programs only read status codes and ports. *)
#[local] Unset Elimination Schemes.
Inductive json : Type :=
| JNull
| JBool (b : bool)
| JNum (n : Z)
| JStr (s : string)
| JArr (items : list json)
| JObj (fields : list (string * json)).
#[local] Set Elimination Schemes.

(** A value as these programs see one; [None] is [undefined]. *)
Abbreviation value := (option json).

Definition truthy (v : value) : bool :=
  match v with
  | None | Some JNull => false
  | Some (JBool b) => b
  | Some (JNum n) => negb (n =? 0)
  | Some (JStr s) => negb (String.eqb s "")
  | Some (JArr _) | Some (JObj _) => true
  end.

(** [a || b] *)
Definition or (a b : value) : value := if truthy a then a else b.

(** The own property [k] of an object literal; a later duplicate wins. *)
Fixpoint field (k : string) (fields : list (string * json)) : value :=
  match fields with
  | [] => None
  | (k', v) :: rest =>
      match field k rest with
      | Some v' => Some v'
      | None => if String.eqb k k' then Some v else None
      end
  end.

(** [o.k] for the property names the programs read (none of them is a
    built-in of strings, numbers or arrays); the outer [None] is the
    [TypeError] of reading a property of [null] or [undefined]. *)
Definition get (o : value) (k : string) : option value :=
  match o with
  | None | Some JNull => None
  | Some (JObj fields) => Some (field k fields)
  | Some _ => Some None
  end.

(** ** Strings *)

(** [Buffer.from(s)] and [buf.toString()]: strings are kept as their UTF-8
    bytes. *)
Definition Buffer_from (s : string) : Buffer := list_byte_of_string s.
Definition toString (b : Buffer) : string := string_of_list_byte b.

Definition code (c : ascii) : Z := Z.of_nat (nat_of_ascii c).

Fixpoint includes (c : ascii) (s : string) : bool :=
  match s with
  | EmptyString => false
  | String c' s' => if Ascii.eqb c c' then true else includes c s'
  end.

(** [s.split(c)] for a one-character separator. *)
Fixpoint split (c : ascii) (s : string) : list string :=
  match s with
  | EmptyString => [EmptyString]
  | String c' s' =>
      if Ascii.eqb c c' then EmptyString :: split c s'
      else match split c s' with
           | [] => [String c' EmptyString]
           | part :: parts => String c' part :: parts
           end
  end.

Definition upper (c : ascii) : ascii :=
  if (97 <=? code c) && (code c <=? 122)
  then ascii_of_nat (nat_of_ascii c - 32) else c.

(** [s.toUpperCase()] on the ASCII letters. *)
Fixpoint toUpperCase (s : string) : string :=
  match s with
  | EmptyString => EmptyString
  | String c s' => String (upper c) (toUpperCase s')
  end.

(** [/^https?:\/\//i.test(s)] *)
Definition hasHttpScheme (s : string) : bool :=
  String.prefix "HTTP://" (toUpperCase s) ||
  String.prefix "HTTPS://" (toUpperCase s).

Definition decimal (n : Z) : string :=
  DecimalString.NilZero.string_of_int (Z.to_int n).

Definition join (sep : string) (parts : list string) : string :=
  match parts with
  | [] => EmptyString
  | p :: ps => fold_left (λ acc q, acc ++ sep ++ q) ps p
  end%string.

(** [String(v)], as string concatenation and [RegExp.test] apply it. *)
Fixpoint toStr (v : json) : string :=
  match v with
  | JNull => "null"
  | JBool true => "true"
  | JBool false => "false"
  | JNum n => decimal n
  | JStr s => s
  | JArr items =>
      join "," (map (λ x, match x with JNull => EmptyString | _ => toStr x end)
                  items)
  | JObj _ => "[object Object]"
  end.

Definition toStrV (v : value) : string :=
  match v with
  | Some j => toStr j
  | None => "undefined"
  end.

(** ** [parseInt] *)

Definition isSpace (c : ascii) : bool :=
  (code c =? 32) || ((9 <=? code c) && (code c <=? 13)).

Definition digitVal (c : ascii) : option Z :=
  if (48 <=? code c) && (code c <=? 57) then Some (code c - 48)
  else if (97 <=? code c) && (code c <=? 122) then Some (code c - 87)
  else if (65 <=? code c) && (code c <=? 90) then Some (code c - 55)
  else None.

Fixpoint skipSpace (s : string) : string :=
  match s with
  | String c s' => if isSpace c then skipSpace s' else s
  | EmptyString => s
  end.

(** The longest prefix of digits of the radix; [acc] is [None] until a
    digit was read. *)
Fixpoint digits (radix : Z) (s : string) (acc : option Z) : option Z :=
  match s with
  | EmptyString => acc
  | String c s' =>
      match digitVal c with
      | Some d =>
          if d <? radix then digits radix s' (Some (default 0 acc * radix + d))
          else acc
      | None => acc
      end
  end.

Definition unsignedInt (radix : option Z) (s : string) : option Z :=
  match radix, s with
  | None, String "0" (String x s') =>
      if Ascii.eqb x "x" || Ascii.eqb x "X" then digits 16 s' None
      else digits 10 s None
  | None, _ => digits 10 s None
  | Some r, _ => digits r s None
  end.

(** [parseInt(s, radix)]; [radix = None] is the one-argument call.  [None]
    is [NaN]. *)
Definition parseInt (s : string) (radix : option Z) : option Z :=
  match skipSpace s with
  | String "-" s' => Z.opp <$> unsignedInt radix s'
  | String "+" s' => unsignedInt radix s'
  | s' => unsignedInt radix s'
  end.

(** [n || d] for a number [n] that may be [NaN]. *)
Definition numberOr (n : option Z) (d : Z) : Z :=
  match n with
  | Some v => if v =? 0 then d else v
  | None => d
  end.

(** ** The platform *)

(** What the programs take from the runtime and this development does not
    fix: the JSON codec, base64, and whether [http.request] accepts its
    options.  [None] stands for a thrown exception. *)
Class Platform := {
  JSON_parse : string → option json;
  JSON_stringify : json → string;
  (** [buf.toString('base64')] *)
  toBase64 : Buffer → string;
  (** [Buffer.from(v, 'base64')] *)
  fromBase64 : json → option Buffer;
  (** [lib.request(options, ...)] returned without throwing *)
  requestAccepted : string → value → value → bool;
}.

End JS.

(** * The local agent ([client/ship-proxy.js]) *)

Module Ship.
Import JS.

Definition RECONNECT_MS : Z := 5000.
Definition OFFSHORE_RESPONSE_TIMEOUT_MS : Z := 20000.

(** What the agent reads of an [http.IncomingMessage]. *)
Record IncomingMessage := {
  method : string;
  url : string;
  headers : list (string * string)
}.

(** The request body as a stream: it does not flow before a [data] listener
    is attached, and it emits [end] once, to the listeners present then. *)
Inductive Flow := Paused | Flowing | Ended.

(** A [requestObj] of [enqueueRequest].  [res] is non-null exactly when
    [isConnect] is false and [clientSocket] exactly when it is true;
    [resolved] is the value [responsePromise] was resolved with. *)
Record Entry := {
  req : IncomingMessage;
  isConnect : bool;
  resolved : option Buffer;
  reqFlow : Flow;
  clientClosed : bool
}.

(** The socket object held in [offshoreSocket]. *)
Record Socket := {
  sockId : nat;
  connected : bool;
  destroyed : bool;
  closed : bool
}.

(** Where a call of [processingLoop] is suspended: the [await] of line 101,
    of line 115 or of line 131. *)
Inductive Stage :=
| AwaitConnect (timer : nat)
| AwaitBody (bodyChunks : list Buffer)
| AwaitResponse (timer : nat).

Record Invocation := { current : nat; stage : Stage }.

(** The [remote] socket of one run of the CONNECT branch. *)
Record Tunnel := {
  tunnelOf : nat;
  remoteConnected : bool;
  remoteDestroyed : bool;
  remoteClosed : bool
}.

Inductive TimerAction := Reconnect | Wake.

Record Timer := { timerId : nat; deadline : Z; action : TimerAction }.

(** Calls the agent makes on its sockets and responses. *)
Inductive Output :=
| OConnect (sock : nat)
| OSockWrite (sock : nat) (entry : nat) (bytes : Buffer)
| OSockWriteDropped (sock : nat) (entry : nat)
| OWriteHead (entry : nat) (status : json) (headers : option json)
| OEnd (entry : nat) (data : Buffer)
| ONetConnect (entry : nat) (port : Z) (host : option string)
| OClientWrite (entry : nat) (data : string)
| OPipe (entry : nat) (tunnel : nat)
| OClientEnd (entry : nat) (data : option string)
| ORemoteDestroy (tunnel : nat).

(** The module's variables ([offshoreSocket], [reconnectTimer], [queue],
    [processing]), the request objects they point to, and what the event
    loop holds for the program: pending timers, suspended calls, sockets.
    [log] has the newest call first. *)
Record State := {
  now : Z;
  offshoreSocket : option Socket;
  closing : list nat;
  reconnectTimer : option nat;
  queue : list nat;
  processing : bool;
  heap : list Entry;
  invocations : list Invocation;
  tunnels : list Tunnel;
  timers : list Timer;
  nextId : nat;
  readerBuffer : Buffer;
  log : list Output
}.

Definition set_now (v : Z) (s : State) : State :=
  {| now := v; offshoreSocket := offshoreSocket s; closing := closing s;
     reconnectTimer := reconnectTimer s; queue := queue s; processing :=
     processing s; heap := heap s; invocations := invocations s; tunnels :=
     tunnels s; timers := timers s; nextId := nextId s; readerBuffer :=
     readerBuffer s; log := log s |}.

Definition set_offshoreSocket (v : option Socket) (s : State) : State :=
  {| now := now s; offshoreSocket := v; closing := closing s; reconnectTimer
     := reconnectTimer s; queue := queue s; processing := processing s; heap
     := heap s; invocations := invocations s; tunnels := tunnels s; timers
     := timers s; nextId := nextId s; readerBuffer := readerBuffer s; log :=
     log s |}.

Definition set_closing (v : list nat) (s : State) : State :=
  {| now := now s; offshoreSocket := offshoreSocket s; closing := v;
     reconnectTimer := reconnectTimer s; queue := queue s; processing :=
     processing s; heap := heap s; invocations := invocations s; tunnels :=
     tunnels s; timers := timers s; nextId := nextId s; readerBuffer :=
     readerBuffer s; log := log s |}.

Definition set_reconnectTimer (v : option nat) (s : State) : State :=
  {| now := now s; offshoreSocket := offshoreSocket s; closing := closing s;
     reconnectTimer := v; queue := queue s; processing := processing s; heap
     := heap s; invocations := invocations s; tunnels := tunnels s; timers
     := timers s; nextId := nextId s; readerBuffer := readerBuffer s; log :=
     log s |}.

Definition set_queue (v : list nat) (s : State) : State :=
  {| now := now s; offshoreSocket := offshoreSocket s; closing := closing s;
     reconnectTimer := reconnectTimer s; queue := v; processing :=
     processing s; heap := heap s; invocations := invocations s; tunnels :=
     tunnels s; timers := timers s; nextId := nextId s; readerBuffer :=
     readerBuffer s; log := log s |}.

Definition set_processing (v : bool) (s : State) : State :=
  {| now := now s; offshoreSocket := offshoreSocket s; closing := closing s;
     reconnectTimer := reconnectTimer s; queue := queue s; processing := v;
     heap := heap s; invocations := invocations s; tunnels := tunnels s;
     timers := timers s; nextId := nextId s; readerBuffer := readerBuffer s;
     log := log s |}.

Definition set_heap (v : list Entry) (s : State) : State :=
  {| now := now s; offshoreSocket := offshoreSocket s; closing := closing s;
     reconnectTimer := reconnectTimer s; queue := queue s; processing :=
     processing s; heap := v; invocations := invocations s; tunnels :=
     tunnels s; timers := timers s; nextId := nextId s; readerBuffer :=
     readerBuffer s; log := log s |}.

Definition set_invocations (v : list Invocation) (s : State) : State :=
  {| now := now s; offshoreSocket := offshoreSocket s; closing := closing s;
     reconnectTimer := reconnectTimer s; queue := queue s; processing :=
     processing s; heap := heap s; invocations := v; tunnels := tunnels s;
     timers := timers s; nextId := nextId s; readerBuffer := readerBuffer s;
     log := log s |}.

Definition set_tunnels (v : list Tunnel) (s : State) : State :=
  {| now := now s; offshoreSocket := offshoreSocket s; closing := closing s;
     reconnectTimer := reconnectTimer s; queue := queue s; processing :=
     processing s; heap := heap s; invocations := invocations s; tunnels :=
     v; timers := timers s; nextId := nextId s; readerBuffer := readerBuffer
     s; log := log s |}.

Definition set_timers (v : list Timer) (s : State) : State :=
  {| now := now s; offshoreSocket := offshoreSocket s; closing := closing s;
     reconnectTimer := reconnectTimer s; queue := queue s; processing :=
     processing s; heap := heap s; invocations := invocations s; tunnels :=
     tunnels s; timers := v; nextId := nextId s; readerBuffer :=
     readerBuffer s; log := log s |}.

Definition set_nextId (v : nat) (s : State) : State :=
  {| now := now s; offshoreSocket := offshoreSocket s; closing := closing s;
     reconnectTimer := reconnectTimer s; queue := queue s; processing :=
     processing s; heap := heap s; invocations := invocations s; tunnels :=
     tunnels s; timers := timers s; nextId := v; readerBuffer :=
     readerBuffer s; log := log s |}.

Definition set_readerBuffer (v : Buffer) (s : State) : State :=
  {| now := now s; offshoreSocket := offshoreSocket s; closing := closing s;
     reconnectTimer := reconnectTimer s; queue := queue s; processing :=
     processing s; heap := heap s; invocations := invocations s; tunnels :=
     tunnels s; timers := timers s; nextId := nextId s; readerBuffer := v;
     log := log s |}.

Definition set_log (v : list Output) (s : State) : State :=
  {| now := now s; offshoreSocket := offshoreSocket s; closing := closing s;
     reconnectTimer := reconnectTimer s; queue := queue s; processing :=
     processing s; heap := heap s; invocations := invocations s; tunnels :=
     tunnels s; timers := timers s; nextId := nextId s; readerBuffer :=
     readerBuffer s; log := v |}.


Definition initial : State :=
  {| now := 0; offshoreSocket := None; closing := []; reconnectTimer := None;
     queue := []; processing := false; heap := []; invocations := [];
     tunnels := []; timers := []; nextId := 0; readerBuffer := [];
     log := [] |}.

(** The calls made so far, oldest first. *)
Definition trace (s : State) : list Output := rev (log s).

Definition emit (o : Output) (s : State) : State := set_log (o :: log s) s.

Definition setTimeout (delay : Z) (a : TimerAction) (s : State) : State :=
  set_nextId (S (nextId s))
    (set_timers (timers s ++
       [{| timerId := nextId s; deadline := now s + delay; action := a |}]) s).

Definition clearTimeout (t : nat) (s : State) : State :=
  set_timers (filter (λ x, timerId x ≠ t) (timers s)) s.

Definition suspend (cur : nat) (st : Stage) (s : State) : State :=
  set_invocations (invocations s ++ [{| current := cur; stage := st |}]) s.

(** ** Responses to local clients *)

Definition headersSent (e : nat) (s : State) : bool :=
  existsb (λ o, match o with
                | OWriteHead e' _ _ | OEnd e' _ => Nat.eqb e e'
                | _ => false
                end) (log s).

Definition finished (e : nat) (s : State) : bool :=
  existsb (λ o, match o with OEnd e' _ => Nat.eqb e e' | _ => false end)
    (log s).

(** [res.writeHead(status, headers)]; [None] when it throws because the
    head was already written. *)
Definition writeHead (e : nat) (status : json) (hd : option json) (s : State)
  : option State :=
  if headersSent e s then None else Some (emit (OWriteHead e status hd) s).

(** [res.end(data)]; a response that has ended ignores it. *)
Definition resEnd (e : nat) (data : Buffer) (s : State) : State :=
  if finished e s then s else emit (OEnd e data) s.

Definition hasRes (e : nat) (s : State) : bool :=
  match heap s !! e with
  | Some ent => negb (isConnect ent)
  | None => false
  end.

(** The [catch (e)] block of lines 202-206. *)
Definition catchAll (cur : nat) (s : State) : State :=
  if hasRes cur s then resEnd cur (Buffer_from "Broker error") s
  else emit (OClientEnd cur None) s.

(** ** [connectToOffshore] *)

(** [offshoreSocket && !offshoreSocket.destroyed] *)
Definition socketUsable (s : State) : bool :=
  match offshoreSocket s with
  | Some k => negb (destroyed k)
  | None => false
  end.

(** Lines 31-38 and 60: the new socket replaces the old one, whose [close]
    event may still be due, and gets a message reader with an empty
    buffer. *)
Definition connectToOffshore (s : State) : State :=
  if socketUsable s then s
  else
    let due := match offshoreSocket s with
               | Some old => if closed old then [] else [sockId old]
               | None => []
               end in
    emit (OConnect (nextId s))
      (set_nextId (S (nextId s))
        (set_readerBuffer []
          (set_closing (closing s ++ due)
            (set_offshoreSocket
               (Some {| sockId := nextId s; connected := false;
                        destroyed := false; closed := false |}) s)))).

(** [if (!reconnectTimer) reconnectTimer = setTimeout(connectToOffshore,
    RECONNECT_MS)] *)
Definition scheduleReconnect (s : State) : State :=
  match reconnectTimer s with
  | Some _ => s
  | None => set_reconnectTimer (Some (nextId s))
              (setTimeout RECONNECT_MS Reconnect s)
  end.

(** ** [processingLoop] *)

Definition setFlow (f : Flow) (ent : Entry) : Entry :=
  {| req := req ent; isConnect := isConnect ent; resolved := resolved ent;
     reqFlow := f; clientClosed := clientClosed ent |}.

Definition setResolved (p : option Buffer) (ent : Entry) : Entry :=
  {| req := req ent; isConnect := isConnect ent; resolved := p;
     reqFlow := reqFlow ent; clientClosed := clientClosed ent |}.

Definition setClientClosed (ent : Entry) : Entry :=
  {| req := req ent; isConnect := isConnect ent; resolved := resolved ent;
     reqFlow := reqFlow ent; clientClosed := true |}.

(** Lines 113-115: the [data] and [end] listeners are attached and the call
    waits for [end]. *)
Definition awaitBody (cur : nat) (s : State) : State :=
  suspend cur (AwaitBody [])
    (set_heap (alter (λ ent, match reqFlow ent with
                             | Paused => setFlow Flowing ent
                             | _ => ent
                             end) cur (heap s)) s).

(** Lines 156-164: host and port of a CONNECT target. *)
Definition connectTarget (r : IncomingMessage) : option string * Z :=
  if includes ":" (url r) then
    match split ":" (url r) with
    | host :: port :: _ => (Some host, numberOr (parseInt port (Some 10)) 443)
    | host :: [] => (Some host, 443)
    | [] => (None, 443)
    end
  else (snd <$> List.find (λ kv, String.eqb kv.1 "host") (headers r), 443).

(** [processingLoop] up to its first [await] or its [return].  [q] is the
    queue; the only call that is made before control returns to the event
    loop is the one of line 210 after [net.connect] threw. *)
Fixpoint processingLoopQ (q : list nat) (s : State) : State :=
  if processing s then s
  else
    match q with
    | [] => s
    | cur :: q' =>
        let s := set_processing true s in
        match heap s !! cur with
        | None => s
        | Some ent =>
            if negb (isConnect ent) then
              if socketUsable s then awaitBody cur s
              else
                let s := connectToOffshore s in
                suspend cur (AwaitConnect (nextId s)) (setTimeout 200 Wake s)
            else
              let '(host, port) := connectTarget (req ent) in
              if (0 <=? port) && (port <? 65536) then
                set_tunnels (tunnels s ++
                    [{| tunnelOf := cur; remoteConnected := false;
                        remoteDestroyed := false; remoteClosed := false |}])
                  (emit (ONetConnect cur port host) s)
              else
                processingLoopQ q'
                  (set_processing false (set_queue q' (catchAll cur s)))
        end
    end.

Definition processingLoop (s : State) : State := processingLoopQ (queue s) s.

(** Lines 208-210. *)
Definition finish (s : State) : State :=
  processingLoop (set_processing false (set_queue (tail (queue s)) s)).

Section WithPlatform.
Context `{Platform}.

(** Lines 102-115, after the 200 ms wait. *)
Definition afterWait (cur : nat) (s : State) : State :=
  if socketUsable s then awaitBody cur s
  else if hasRes cur s then
    match writeHead cur (JNum 502) None s with
    | Some s' =>
        finish (resEnd cur (Buffer_from "Bad Gateway: offshore unavailable") s')
    | None => finish (catchAll cur s)
    end
  else finish s.

(** Lines 118-124. *)
Definition requestPayload (r : IncomingMessage) (bodyBase64 : string) : json :=
  JObj [("type", JStr "http"); ("method", JStr (method r));
        ("url", JStr (url r));
        ("headers", JObj (map (λ kv, (kv.1, JStr kv.2)) (headers r)));
        ("body", JStr bodyBase64)]%string.

(** Lines 116-131, after the body has ended: the frame is written and the
    call waits for [responsePromise] or the timeout. *)
Definition afterBody (cur : nat) (bodyChunks : list Buffer) (s : State) : State :=
  match heap s !! cur with
  | None => s
  | Some ent =>
      let payload :=
        Buffer_from (JSON_stringify
          (requestPayload (req ent) (toBase64 (concat bodyChunks)))) in
      match offshoreSocket s, Framing.sendMessage 0 payload with
      | Some sock, Some bytes =>
          let s := emit (if destroyed sock then OSockWriteDropped (sockId sock) cur
                         else OSockWrite (sockId sock) cur bytes) s in
          suspend cur (AwaitResponse (nextId s))
            (setTimeout OFFSHORE_RESPONSE_TIMEOUT_MS Wake s)
      | _, _ => finish (catchAll cur s)
      end
  end.

Definition orElse (v : value) (d : json) : json :=
  match or v (Some d) with Some j => j | None => d end.

(** The [try] of lines 143-147; the flag tells whether it threw. *)
Definition relayResponse (cur : nat) (responsePayload : Buffer) (s : State)
  : State * bool :=
  match JSON_parse (toString responsePayload) with
  | None => (s, true)
  | Some responseObj =>
      match get (Some responseObj) "statusCode",
            get (Some responseObj) "headers",
            get (Some responseObj) "body" with
      | Some st, Some hd, Some bd =>
          if hasRes cur s then
            match writeHead cur (orElse st (JNum 200))
                    (Some (orElse hd (JObj []))) s with
            | None => (s, true)
            | Some s' =>
                match fromBase64 (orElse bd (JStr "")) with
                | None => (s', true)
                | Some data => (resEnd cur data s', false)
                end
            end
          else (s, true)
      | _, _, _ => (s, true)
      end
  end.

(** Lines 136-152 and 208-210: [None] is the timeout. *)
Definition respond (cur : nat) (responsePayload : option Buffer) (s : State)
  : State :=
  match responsePayload with
  | None =>
      if hasRes cur s then
        match writeHead cur (JNum 504) None s with
        | Some s' => finish (resEnd cur (Buffer_from "Gateway Timeout") s')
        | None => finish (catchAll cur s)
        end
      else finish s
  | Some payload =>
      let '(s', threw) := relayResponse cur payload s in
      if threw && hasRes cur s'
      then finish (resEnd cur (Buffer_from "Bad Gateway") s')
      else finish s'
  end.

(** ** Promise continuations *)

(** The payload a suspended call is about to receive: it waits at line 131
    and the promise of its entry is resolved. *)
Definition ready (s : State) (i : Invocation) : option Buffer :=
  match stage i with
  | AwaitResponse _ => ent ← heap s !! current i; resolved ent
  | _ => None
  end.

Definition timerOf (i : Invocation) : option nat :=
  match stage i with
  | AwaitConnect t | AwaitResponse t => Some t
  | AwaitBody _ => None
  end.

(** The calls whose [responsePromise] is resolved continue, in the order in
    which they began to wait; each clears its timer first (line 217). *)
Definition settle (s : State) : State :=
  let woken := filter (λ i, is_Some (ready s i)) (invocations s) in
  let s := set_invocations
             (filter (λ i, ¬ is_Some (ready s i)) (invocations s)) s in
  foldl (λ s i,
           match ready s i, timerOf i with
           | Some payload, Some t =>
               respond (current i) (Some payload) (clearTimeout t s)
           | _, _ => s
           end) s woken.

(** ** The message reader's callback (lines 60-68) *)

Definition onMessage (msgType : Z) (payload : Buffer) (s : State) : State :=
  if negb (msgType =? 1) then s
  else
    match queue s with
    | [] => s
    | head :: _ =>
        set_heap (alter (λ ent, match resolved ent with
                                | None => setResolved (Some payload) ent
                                | Some _ => ent
                                end) head (heap s)) s
    end.

(** [sock.on('data', ...)] of the reader set up at line 60: every whole
    frame goes through [onMessage] before any continuation runs. *)
Definition onSockData (chunk : Buffer) (s : State) : State :=
  let r := Framing.onData (readerBuffer s) chunk in
  settle (foldl (λ s m, onMessage m.1 m.2 s) (set_readerBuffer r.2 s) r.1).

(** ** [enqueueRequest] (lines 72-88) *)

Definition enqueueRequest (r : IncomingMessage) (isC : bool) (s : State)
  : State :=
  let s := set_queue (queue s ++ [List.length (heap s)])
             (set_heap (heap s ++
                [{| req := r; isConnect := isC; resolved := None;
                    reqFlow := Paused; clientClosed := false |}]) s) in
  if processing s then s else processingLoop s.

(** ** Socket handlers (lines 39-58) *)

Definition onConnect (s : State) : State :=
  processingLoop
    match reconnectTimer s with
    | Some t => set_reconnectTimer None (clearTimeout t s)
    | None => s
    end.

Definition markSocket (f : Socket → Socket) (s : State) : State :=
  set_offshoreSocket (f <$> offshoreSocket s) s.

Definition setDestroyed (k : Socket) : Socket :=
  {| sockId := sockId k; connected := connected k; destroyed := true;
     closed := closed k |}.

Definition setClosed (k : Socket) : Socket :=
  {| sockId := sockId k; connected := connected k; destroyed := true;
     closed := true |}.

Definition setConnected (k : Socket) : Socket :=
  {| sockId := sockId k; connected := true; destroyed := destroyed k;
     closed := closed k |}.

(** [offshoreSocket.destroy()] and the reconnect timer. *)
Definition onError (s : State) : State :=
  scheduleReconnect (markSocket setDestroyed s).

Definition onClose (s : State) : State :=
  scheduleReconnect (set_processing false s).

(** ** The CONNECT branch's handlers (lines 168-198) *)

Definition crlf : string := String (ascii_of_nat 13) (String (ascii_of_nat 10) "").

Definition established : string :=
  ("HTTP/1.1 200 Connection Established" ++ crlf ++ crlf)%string.

Definition badGateway : string :=
  ("HTTP/1.1 502 Bad Gateway" ++ crlf ++ crlf)%string.

Definition markTunnel (t : nat) (f : Tunnel → Tunnel) (s : State) : State :=
  set_tunnels (alter f t (tunnels s)) s.

Definition tConnected (u : Tunnel) : Tunnel :=
  {| tunnelOf := tunnelOf u; remoteConnected := true;
     remoteDestroyed := remoteDestroyed u; remoteClosed := remoteClosed u |}.

Definition tDestroyed (u : Tunnel) : Tunnel :=
  {| tunnelOf := tunnelOf u; remoteConnected := remoteConnected u;
     remoteDestroyed := true; remoteClosed := remoteClosed u |}.

Definition tClosed (u : Tunnel) : Tunnel :=
  {| tunnelOf := tunnelOf u; remoteConnected := remoteConnected u;
     remoteDestroyed := true; remoteClosed := true |}.

(** [remote.destroy()] *)
Definition destroyRemote (t : nat) (s : State) : State :=
  match tunnels s !! t with
  | Some u => if remoteDestroyed u then s
              else emit (ORemoteDestroy t) (markTunnel t tDestroyed s)
  | None => s
  end.

(** The connect callback of line 168. *)
Definition onRemoteConnect (t : nat) (u : Tunnel) (s : State) : State :=
  emit (OPipe (tunnelOf u) t)
    (emit (OClientWrite (tunnelOf u) established)
       (markTunnel t tConnected s)).

Definition onRemoteError (t : nat) (u : Tunnel) (s : State) : State :=
  emit (OClientEnd (tunnelOf u) (Some badGateway)) (markTunnel t tDestroyed s).

(** Lines 192-198. *)
Definition onRemoteClose (t : nat) (u : Tunnel) (s : State) : State :=
  finish (emit (OClientEnd (tunnelOf u) None) (markTunnel t tClosed s)).

(** The tunnels whose handlers listen on the client socket of [e], oldest
    first. *)
Definition tunnelsOf (e : nat) (s : State) : list nat :=
  filter (λ t, (tunnelOf <$> tunnels s !! t) = Some e)
    (seq 0 (List.length (tunnels s))).

(** Lines 179-182, once per tunnel listening. *)
Definition onClientError (e : nat) (s : State) : State :=
  foldl (λ s t, destroyRemote t s) s (tunnelsOf e s).

(** Lines 184-190, once per tunnel listening. *)
Definition onClientClose (e : nat) (s : State) : State :=
  foldl (λ s t, finish (destroyRemote t s))
    (set_heap (alter setClientClosed e (heap s)) s) (tunnelsOf e s).

(** ** Events and steps *)

Inductive Event :=
| EListening
| EHttpRequest (r : IncomingMessage)
| EConnectRequest (r : IncomingMessage)
| EBodyData (e : nat) (chunk : Buffer)
| EBodyEnd (e : nat)
| ESockConnect (sock : nat)
| ESockError (sock : nat)
| ESockClose (sock : nat)
| ESockData (sock : nat) (chunk : Buffer)
| EAdvance (dt : Z)
| ETimer (t : nat)
| ERemoteConnect (tunnel : nat)
| ERemoteError (tunnel : nat)
| ERemoteClose (tunnel : nat)
| EClientError (e : nat)
| EClientClose (e : nat).

Definition awaitsBodyOf (e : nat) (i : Invocation) : bool :=
  match stage i with
  | AwaitBody _ => Nat.eqb (current i) e
  | _ => false
  end.

Definition pushChunk (e : nat) (chunk : Buffer) (i : Invocation) : Invocation :=
  match stage i with
  | AwaitBody bodyChunks =>
      if Nat.eqb (current i) e
      then {| current := current i; stage := AwaitBody (bodyChunks ++ [chunk]) |}
      else i
  | _ => i
  end.

(** The request's [end] event: the calls that wait for it continue in the
    order in which they attached, then those whose promise is already
    resolved. *)
Definition onBodyEnd (e : nat) (s : State) : State :=
  let woken := filter (λ i, awaitsBodyOf e i = true) (invocations s) in
  let s := set_invocations
             (filter (λ i, awaitsBodyOf e i ≠ true) (invocations s))
             (set_heap (alter (setFlow Ended) e (heap s)) s) in
  settle (foldl (λ s i, match stage i with
                        | AwaitBody bodyChunks => afterBody (current i) bodyChunks s
                        | _ => s
                        end) s woken).

(** A timer's callback. *)
Definition onTimer (t : Timer) (s : State) : State :=
  let s := clearTimeout (timerId t) s in
  match action t with
  | Reconnect => connectToOffshore s
  | Wake =>
      match List.find (λ i, bool_decide (timerOf i = Some (timerId t)))
              (invocations s) with
      | Some i =>
          let s := set_invocations
                     (filter (λ j, timerOf j ≠ Some (timerId t)) (invocations s)) s in
          match stage i with
          | AwaitConnect _ => afterWait (current i) s
          | AwaitResponse _ => respond (current i) None s
          | AwaitBody _ => s
          end
      | None => s
      end
  end.

Definition isSocket (k : nat) (s : State) : option Socket :=
  match offshoreSocket s with
  | Some sock => if Nat.eqb (sockId sock) k then Some sock else None
  | None => None
  end.

(** One callback run by the event loop; [None] when the event cannot occur
    in the state. *)
Definition step (s : State) (ev : Event) : option State :=
  match ev with
  | EListening =>
      match offshoreSocket s with
      | None => Some (connectToOffshore s)
      | Some _ => None
      end
  | EHttpRequest r =>
      match offshoreSocket s with
      | Some _ => Some (enqueueRequest r false s)
      | None => None
      end
  | EConnectRequest r =>
      match offshoreSocket s with
      | Some _ => Some (enqueueRequest r true s)
      | None => None
      end
  | EBodyData e chunk =>
      match reqFlow <$> heap s !! e with
      | Some Flowing =>
          Some (set_invocations (pushChunk e chunk <$> invocations s) s)
      | _ => None
      end
  | EBodyEnd e =>
      match reqFlow <$> heap s !! e with
      | Some Flowing => Some (onBodyEnd e s)
      | _ => None
      end
  | ESockConnect k =>
      match isSocket k s with
      | Some sock =>
          if connected sock || destroyed sock then None
          else Some (onConnect (markSocket setConnected s))
      | None => None
      end
  | ESockError k =>
      match isSocket k s with
      | Some sock => if destroyed sock then None else Some (onError s)
      | None => None
      end
  | ESockClose k =>
      match isSocket k s with
      | Some sock =>
          if closed sock then None else Some (onClose (markSocket setClosed s))
      | None =>
          if bool_decide (k ∈ closing s)
          then Some (onClose (set_closing (filter (λ j, j ≠ k) (closing s)) s))
          else None
      end
  | ESockData k chunk =>
      match isSocket k s with
      | Some sock =>
          if connected sock && negb (destroyed sock)
          then Some (onSockData chunk s) else None
      | None => None
      end
  | EAdvance dt =>
      if (0 <? dt) && forallb (λ t, now s + dt <=? deadline t) (timers s)
      then Some (set_now (now s + dt) s) else None
  | ETimer t =>
      match List.find (λ x, Nat.eqb (timerId x) t) (timers s) with
      | Some x => if deadline x <=? now s then Some (onTimer x s) else None
      | None => None
      end
  | ERemoteConnect t =>
      match tunnels s !! t with
      | Some u =>
          if remoteConnected u || remoteDestroyed u then None
          else Some (onRemoteConnect t u s)
      | None => None
      end
  | ERemoteError t =>
      match tunnels s !! t with
      | Some u => if remoteDestroyed u then None else Some (onRemoteError t u s)
      | None => None
      end
  | ERemoteClose t =>
      match tunnels s !! t with
      | Some u => if remoteClosed u then None else Some (onRemoteClose t u s)
      | None => None
      end
  | EClientError e =>
      match heap s !! e with
      | Some ent =>
          if isConnect ent && negb (clientClosed ent)
          then Some (onClientError e s) else None
      | None => None
      end
  | EClientClose e =>
      match heap s !! e with
      | Some ent =>
          if isConnect ent && negb (clientClosed ent)
          then Some (onClientClose e s) else None
      | None => None
      end
  end.

Fixpoint run (s : State) (evs : list Event) : option State :=
  match evs with
  | [] => Some s
  | ev :: evs' => s' ← step s ev; run s' evs'
  end.

End WithPlatform.

End Ship.

(** * The relay (the offshore server program) *)

Module Offshore.
Import JS.

(** The accepted socket held in [clientSocket]. *)
Record Socket := { sockId : nat; destroyed : bool }.

(** A buffer of [requestQueue]; [msgId] numbers the buffers in the order in
    which they were pushed and is not part of the program's data. *)
Record Msg := { msgId : nat; payload : Buffer }.

Inductive CallKind := Http | Tunnel.

(** An outbound request ([forwardReq]) or socket ([remoteSocket]) whose
    callbacks are still to run, with the message it was started for. *)
Record Call := {
  callOf : nat;
  kind : CallKind;
  ended : bool;
  remoteConnected : bool;
  remoteDestroyed : bool;
  over : bool
}.

Inductive Output :=
| OReject (sock : nat)
| OWrite (sock : nat) (about : nat) (bytes : Buffer)
| ORequest (call : nat) (secure : bool) (requestUrl : string)
    (method : value) (headers : value)
| OBody (call : nat) (data : Buffer)
| OEndRequest (call : nat)
| ONetConnect (call : nat) (port : Z) (host : string).

(** The module's variables [clientSocket], [requestQueue] and [processing],
    the [buffer] of the accepted socket's [data] handler, and the outbound
    calls under way.  [log] has the newest call first. *)
Record State := {
  clientSocket : option Socket;
  requestQueue : list Msg;
  processing : bool;
  buffer : Buffer;
  calls : list Call;
  nextMsg : nat;
  log : list Output
}.

Definition set_clientSocket (v : option Socket) (s : State) : State :=
  {| clientSocket := v; requestQueue := requestQueue s; processing :=
     processing s; buffer := buffer s; calls := calls s; nextMsg := nextMsg
     s; log := log s |}.

Definition set_requestQueue (v : list Msg) (s : State) : State :=
  {| clientSocket := clientSocket s; requestQueue := v; processing :=
     processing s; buffer := buffer s; calls := calls s; nextMsg := nextMsg
     s; log := log s |}.

Definition set_processing (v : bool) (s : State) : State :=
  {| clientSocket := clientSocket s; requestQueue := requestQueue s;
     processing := v; buffer := buffer s; calls := calls s; nextMsg :=
     nextMsg s; log := log s |}.

Definition set_buffer (v : Buffer) (s : State) : State :=
  {| clientSocket := clientSocket s; requestQueue := requestQueue s;
     processing := processing s; buffer := v; calls := calls s; nextMsg :=
     nextMsg s; log := log s |}.

Definition set_calls (v : list Call) (s : State) : State :=
  {| clientSocket := clientSocket s; requestQueue := requestQueue s;
     processing := processing s; buffer := buffer s; calls := v; nextMsg :=
     nextMsg s; log := log s |}.

Definition set_nextMsg (v : nat) (s : State) : State :=
  {| clientSocket := clientSocket s; requestQueue := requestQueue s;
     processing := processing s; buffer := buffer s; calls := calls s;
     nextMsg := v; log := log s |}.

Definition set_log (v : list Output) (s : State) : State :=
  {| clientSocket := clientSocket s; requestQueue := requestQueue s;
     processing := processing s; buffer := buffer s; calls := calls s;
     nextMsg := nextMsg s; log := v |}.


Definition initial : State :=
  {| clientSocket := None; requestQueue := []; processing := false;
     buffer := []; calls := []; nextMsg := 0; log := [] |}.

Definition trace (s : State) : list Output := rev (log s).

Definition emit (o : Output) (s : State) : State := set_log (o :: log s) s.

(** [!clientSocket || clientSocket.destroyed] *)
Definition socketGone (s : State) : bool :=
  match clientSocket s with
  | Some k => destroyed k
  | None => true
  end.

(** [sendFramedMessage(clientSocket, msgType, payloadBuffer)] (lines 26-32);
    the frame is built as [Framing.sendMessage] builds it.  [about] is the
    message the caller answers. *)
Definition sendFramedMessage (msgType : Z) (payloadBuffer : Buffer)
    (about : nat) (s : State) : State :=
  match clientSocket s with
  | Some k =>
      if destroyed k then s
      else match Framing.sendMessage msgType payloadBuffer with
           | Some bytes => emit (OWrite (sockId k) about bytes) s
           | None => s
           end
  | None => s
  end.

Definition newCall (m : nat) (k : CallKind) (e : bool) : Call :=
  {| callOf := m; kind := k; ended := e; remoteConnected := false;
     remoteDestroyed := false; over := false |}.

Section WithPlatform.
Context `{Platform}.

(** What the [try] block of [handleRequestQueue] does with the message at
    the head of the queue. *)
Inductive Plan :=
| Throws
| Connect (port : Z) (host : string)
| Forward (secure : bool) (requestUrl : string) (method headers : value)
    (body : option (option Buffer)).

(** Lines 46-47. *)
Definition connectPlan (target : string) : Plan :=
  match split ":" target with
  | host :: portStr :: _ =>
      let port := numberOr (parseInt portStr None) 443 in
      if (0 <=? port) && (port <? 65536) then Connect port host else Throws
  | host :: [] => Connect 443 host
  | [] => Throws
  end.

(** Lines 71-86 and 114-117.  [body] is [None] when the envelope has none,
    [Some None] when decoding it throws. *)
Definition forwardPlan (reqObj : json) : Plan :=
  match get (Some reqObj) "url", get (Some reqObj) "path",
        get (Some reqObj) "headers", get (Some reqObj) "method",
        get (Some reqObj) "body" with
  | Some u, Some p, Some hd, Some m, Some bd =>
      match or (or u p) (Some (JStr "/")) with
      | Some target =>
          let full :=
            if hasHttpScheme (toStr target) then
              match target with JStr s => Some s | _ => None end
            else
              host ← get hd "host";
              Some ("http://" ++ toStrV host ++ toStr target)%string in
          match full with
          | Some requestUrl =>
              if requestAccepted requestUrl m hd then
                Forward (String.prefix "HTTPS://" (toUpperCase requestUrl))
                  requestUrl m hd
                  (if truthy bd then fromBase64 <$> bd else None)
              else Throws
          | None => Throws
          end
      | None => Throws
      end
  | _, _, _, _, _ => Throws
  end.

(** Lines 41-44: CONNECT or ordinary request. *)
Definition plan (msg : Buffer) : Plan :=
  match JSON_parse (toString msg) with
  | None => Throws
  | Some reqObj =>
      match get (Some reqObj) "method", get (Some reqObj) "url" with
      | Some m, Some u =>
          if truthy m then
            match m with
            | Some (JStr ms) =>
                if String.eqb (toUpperCase ms) "CONNECT" && truthy u then
                  match u with
                  | Some (JStr target) => connectPlan target
                  | _ => Throws
                  end
                else forwardPlan reqObj
            | _ => Throws
            end
          else forwardPlan reqObj
      | _, _ => Throws
      end
  end.

(** [handleRequestQueue] (lines 34-124) with [cleanupRequest] (126-130)
    where the [catch] calls it.  [q] is [requestQueue].  A call is
    identified by its position in [calls]. *)
Fixpoint handleRequestQueueQ (q : list Msg) (s : State) : State :=
  if processing s || socketGone s then s
  else
    match q with
    | [] => s
    | msg :: q' =>
        let s := set_processing true s in
        let c := List.length (calls s) in
        match plan (payload msg) with
        | Throws =>
            handleRequestQueueQ q'
              (set_requestQueue q' (set_processing false s))
        | Connect port host =>
            set_calls (calls s ++ [newCall (msgId msg) Tunnel false])
              (emit (ONetConnect c port host) s)
        | Forward secure requestUrl m hd body =>
            let willEnd := match body with Some None => false | _ => true end in
            let s := set_calls (calls s ++ [newCall (msgId msg) Http willEnd])
                       (emit (ORequest c secure requestUrl m hd) s) in
            match body with
            | Some None =>
                handleRequestQueueQ q'
                  (set_requestQueue q' (set_processing false s))
            | Some (Some data) => emit (OEndRequest c) (emit (OBody c data) s)
            | None => emit (OEndRequest c) s
            end
        end
    end.

Definition handleRequestQueue (s : State) : State :=
  handleRequestQueueQ (requestQueue s) s.

Definition cleanupRequest (s : State) : State :=
  handleRequestQueue
    (set_requestQueue (tail (requestQueue s)) (set_processing false s)).

(** ** [handleClient] (lines 132-174) *)

Definition push (msg : Buffer) (s : State) : State :=
  set_nextMsg (S (nextMsg s))
    (set_requestQueue
       (requestQueue s ++ [{| msgId := nextMsg s; payload := msg |}]) s).

(** The [while] loop of the [data] handler (lines 145-161). *)
Equations? dataLoop (s : State) : State by wf (List.length (buffer s)) lt :=
  dataLoop s with Framing.inspect (Framing.nextFrame (buffer s)) := {
    | exist _ (Some (msgType, msg, rest)) Hnext =>
        if negb (msgType =? 0) then dataLoop (set_buffer rest s)
        else dataLoop (set_buffer rest (handleRequestQueue (push msg s)))
    | exist _ None _ => s }.
Proof.
  all: eapply Framing.nextFrame_shorter; exact Hnext.
Qed.

Definition onData (chunk : Buffer) (s : State) : State :=
  dataLoop (set_buffer (buffer s ++ chunk) s).

(** Lines 133-142. *)
Definition handleClient (sock : nat) (s : State) : State :=
  match clientSocket s with
  | Some _ => emit (OReject sock) s
  | None =>
      set_buffer [] (set_clientSocket
                       (Some {| sockId := sock; destroyed := false |}) s)
  end.

(** Lines 168-173. *)
Definition onClose (s : State) : State :=
  set_requestQueue [] (set_processing false (set_clientSocket None s)).

(** ** Callbacks of the outbound calls *)

Definition markCall (c : nat) (f : Call → Call) (s : State) : State :=
  set_calls (alter f c (calls s)) s.

Definition cOver (u : Call) : Call :=
  {| callOf := callOf u; kind := kind u; ended := ended u;
     remoteConnected := remoteConnected u;
     remoteDestroyed := true; over := true |}.

Definition cConnected (u : Call) : Call :=
  {| callOf := callOf u; kind := kind u; ended := ended u;
     remoteConnected := true;
     remoteDestroyed := remoteDestroyed u; over := over u |}.

Definition cDestroyed (u : Call) : Call :=
  {| callOf := callOf u; kind := kind u; ended := ended u;
     remoteConnected := remoteConnected u;
     remoteDestroyed := true; over := over u |}.

(** Lines 93-97. *)
Definition responseMsg (statusCode : Z) (headers : json) (body : Buffer)
  : Buffer :=
  Buffer_from (JSON_stringify
    (JObj [("statusCode", JNum statusCode); ("headers", headers);
           ("body", JStr (toBase64 body))]%string)).

(** Lines 105-109. *)
Definition errorResp (message : string) : Buffer :=
  Buffer_from (JSON_stringify
    (JObj [("statusCode", JNum 502); ("headers", JObj []);
           ("body", JStr (toBase64 (Buffer_from message)))]%string)).

(** Lines 91-100: the response of the origin has ended. *)
Definition onResponseEnd (c : nat) (u : Call) (statusCode : Z)
    (headers : json) (body : Buffer) (s : State) : State :=
  cleanupRequest
    (sendFramedMessage 1 (responseMsg statusCode headers body) (callOf u)
       (markCall c cOver s)).

(** Lines 103-112. *)
Definition onRequestError (c : nat) (u : Call) (message : string) (s : State)
  : State :=
  cleanupRequest
    (sendFramedMessage 1 (errorResp message) (callOf u) (markCall c cOver s)).

(** Lines 49-52. *)
Definition onRemoteConnect (c : nat) (u : Call) (s : State) : State :=
  sendFramedMessage 1 (Buffer_from "OK") (callOf u) (markCall c cConnected s).

(** Lines 54-58. *)
Definition onRemoteError (c : nat) (u : Call) (s : State) : State :=
  cleanupRequest
    (sendFramedMessage 1 (Buffer_from "FAIL") (callOf u)
       (markCall c cDestroyed s)).

(** Lines 60-63. *)
Definition onRemoteClose (c : nat) (s : State) : State :=
  cleanupRequest (markCall c cOver s).

(** ** Events and steps *)

Inductive Event :=
| EAccept (sock : nat)
| EData (sock : nat) (chunk : Buffer)
| ESockError (sock : nat)
| ESockClose (sock : nat)
| EResponse (call : nat) (statusCode : Z) (headers : json) (body : Buffer)
| ERequestError (call : nat) (message : string)
| ERemoteConnect (call : nat)
| ERemoteError (call : nat)
| ERemoteClose (call : nat).

Definition isSocket (k : nat) (s : State) : option Socket :=
  match clientSocket s with
  | Some sock => if Nat.eqb (sockId sock) k then Some sock else None
  | None => None
  end.

Definition step (s : State) (ev : Event) : option State :=
  match ev with
  | EAccept k => Some (handleClient k s)
  | EData k chunk =>
      match isSocket k s with
      | Some sock => if destroyed sock then None else Some (onData chunk s)
      | None => None
      end
  | ESockError k =>
      match isSocket k s with
      | Some sock =>
          if destroyed sock then None
          else Some (set_clientSocket
                       (Some {| sockId := k; destroyed := true |}) s)
      | None => None
      end
  | ESockClose k =>
      match isSocket k s with
      | Some _ => Some (onClose s)
      | None => None
      end
  | EResponse c statusCode headers body =>
      match calls s !! c with
      | Some u =>
          match kind u with
          | Http => if ended u && negb (over u)
                    then Some (onResponseEnd c u statusCode headers body s)
                    else None
          | Tunnel => None
          end
      | None => None
      end
  | ERequestError c message =>
      match calls s !! c with
      | Some u =>
          match kind u with
          | Http => if over u then None
                    else Some (onRequestError c u message s)
          | Tunnel => None
          end
      | None => None
      end
  | ERemoteConnect c =>
      match calls s !! c with
      | Some u =>
          match kind u with
          | Tunnel => if remoteConnected u || remoteDestroyed u then None
                      else Some (onRemoteConnect c u s)
          | Http => None
          end
      | None => None
      end
  | ERemoteError c =>
      match calls s !! c with
      | Some u =>
          match kind u with
          | Tunnel => if remoteDestroyed u then None
                      else Some (onRemoteError c u s)
          | Http => None
          end
      | None => None
      end
  | ERemoteClose c =>
      match calls s !! c with
      | Some u =>
          match kind u with
          | Tunnel => if over u then None else Some (onRemoteClose c s)
          | Http => None
          end
      | None => None
      end
  end.

Fixpoint run (s : State) (evs : list Event) : option State :=
  match evs with
  | [] => Some s
  | ev :: evs' => s' ← step s ev; run s' evs'
  end.

End WithPlatform.

End Offshore.

(** * The two programs joined by the managed connection *)

Module Link.
Import JS.

(** Both machines and the writes that are on their way, oldest first, each
    with the socket it was written to. *)
Record System := {
  ship : Ship.State;
  shore : Offshore.State;
  toShore : list (nat * Buffer);
  toShip : list (nat * Buffer)
}.

Definition initial : System :=
  {| ship := Ship.initial; shore := Offshore.initial;
     toShore := []; toShip := [] |}.

Inductive Event :=
| Local (ev : Ship.Event)
| Remote (ev : Offshore.Event)
| ToShore
| ToShip.

(** The writes among the calls [new ++ old] that are not in [old]. *)
Definition shipWrites (old new : list Ship.Output) : list (nat * Buffer) :=
  omap (λ o, match o with
             | Ship.OSockWrite k _ bytes => Some (k, bytes)
             | _ => None
             end)
    (rev (take (List.length new - List.length old) new)).

Definition shoreWrites (old new : list Offshore.Output) : list (nat * Buffer) :=
  omap (λ o, match o with
             | Offshore.OWrite k _ bytes => Some (k, bytes)
             | _ => None
             end)
    (rev (take (List.length new - List.length old) new)).

Section WithPlatform.
Context `{Platform}.

Definition afterShip (y : System) (s' : Ship.State) : System :=
  {| ship := s'; shore := shore y;
     toShore := toShore y ++ shipWrites (Ship.log (ship y)) (Ship.log s');
     toShip := toShip y |}.

Definition afterShore (y : System) (r' : Offshore.State) : System :=
  {| ship := ship y; shore := r';
     toShore := toShore y;
     toShip := toShip y ++ shoreWrites (Offshore.log (shore y)) (Offshore.log r') |}.

Definition step (y : System) (ev : Event) : option System :=
  match ev with
  | Local (Ship.ESockData _ _) => None
  | Local ev => afterShip y <$> Ship.step (ship y) ev
  | Remote (Offshore.EData _ _) => None
  | Remote ev => afterShore y <$> Offshore.step (shore y) ev
  | ToShore =>
      match toShore y with
      | (k, bytes) :: rest =>
          r' ← Offshore.step (shore y) (Offshore.EData k bytes);
          Some (afterShore {| ship := ship y; shore := shore y;
                              toShore := rest; toShip := toShip y |} r')
      | [] => None
      end
  | ToShip =>
      match toShip y with
      | (k, bytes) :: rest =>
          s' ← Ship.step (ship y) (Ship.ESockData k bytes);
          Some (afterShip {| ship := ship y; shore := shore y;
                             toShore := toShore y; toShip := rest |} s')
      | [] => None
      end
  end.

Fixpoint run (y : System) (evs : list Event) : option System :=
  match evs with
  | [] => Some y
  | ev :: evs' => y' ← step y ev; run y' evs'
  end.

End WithPlatform.

End Link.

(** * A reference platform

    An executable JSON codec (objects, arrays, strings, integers, literals)
    and base64, used to run the two machines on concrete inputs. *)

Module Reference.
Import JS.

Definition hexDigit (n : Z) : ascii :=
  nth (Z.to_nat n) (list_ascii_of_string "0123456789abcdef") "0"%char.

Definition escapeChar (c : ascii) : string :=
  if code c =? 34 then String "\" (String c "")
  else if code c =? 92 then String "\" (String c "")
  else if code c =? 8 then "\b"
  else if code c =? 9 then "\t"
  else if code c =? 10 then "\n"
  else if code c =? 12 then "\f"
  else if code c =? 13 then "\r"
  else if code c <? 32 then
    ("\u00" ++ String (hexDigit (code c / 16))
                 (String (hexDigit (code c mod 16)) ""))%string
  else String c "".

Fixpoint escape (s : string) : string :=
  match s with
  | EmptyString => EmptyString
  | String c s' => (escapeChar c ++ escape s')%string
  end.

Definition quote (s : string) : string :=
  String "034" (escape s ++ String "034" "")%string.

Fixpoint stringify (v : json) : string :=
  match v with
  | JNull => "null"
  | JBool true => "true"
  | JBool false => "false"
  | JNum n => decimal n
  | JStr s => quote s
  | JArr items => ("[" ++ join "," (map stringify items) ++ "]")%string
  | JObj fields =>
      ("{" ++ join "," (map (λ kv, match kv with
                                   | (k, v) => quote k ++ ":" ++ stringify v
                                   end) fields) ++ "}")%string
  end.

Definition isWs (c : ascii) : bool :=
  (code c =? 32) || (code c =? 9) || (code c =? 10) || (code c =? 13).

Fixpoint skipWs (cs : list ascii) : list ascii :=
  match cs with
  | c :: cs' => if isWs c then skipWs cs' else cs
  | [] => []
  end.

Definition hexVal (c : ascii) : option Z :=
  d ← digitVal c; if d <? 16 then Some d else None.

(** The characters of a string literal after its opening quote. *)
Fixpoint parseString (cs : list ascii) : option (string * list ascii) :=
  match cs with
  | [] => None
  | "034"%char :: rest => Some (EmptyString, rest)
  | "\"%char :: "u"%char :: a :: b :: c :: d :: rest =>
      va ← hexVal a; vb ← hexVal b; vc ← hexVal c; vd ← hexVal d;
      r ← parseString rest;
      if (va =? 0) && (vb =? 0) && (vc <? 8)
      then Some (String (ascii_of_nat (Z.to_nat (vc * 16 + vd))) r.1, r.2)
      else None
  | "\"%char :: e :: rest =>
      r ← parseString rest;
      ch ← (if code e =? 34 then Some e
            else if code e =? 92 then Some e
            else if code e =? 47 then Some e
            else if code e =? 98 then Some (ascii_of_nat 8)
            else if code e =? 116 then Some (ascii_of_nat 9)
            else if code e =? 110 then Some (ascii_of_nat 10)
            else if code e =? 102 then Some (ascii_of_nat 12)
            else if code e =? 114 then Some (ascii_of_nat 13)
            else None);
      Some (String ch r.1, r.2)
  | c :: rest =>
      if code c <? 32 then None
      else r ← parseString rest; Some (String c r.1, r.2)
  end.

Fixpoint parseDigits (cs : list ascii) (acc : option Z)
  : option Z * list ascii :=
  match cs with
  | c :: cs' =>
      if (48 <=? code c) && (code c <=? 57)
      then parseDigits cs' (Some (default 0 acc * 10 + (code c - 48)))
      else (acc, cs)
  | [] => (acc, [])
  end.

Definition parseNumber (cs : list ascii) : option (json * list ascii) :=
  let '(neg, cs') := match cs with
                     | "-"%char :: cs' => (true, cs')
                     | _ => (false, cs)
                     end in
  match parseDigits cs' None with
  | (Some n, rest) =>
      match rest with
      | "."%char :: _ | "e"%char :: _ | "E"%char :: _ => None
      | _ => Some (JNum (if neg then - n else n), rest)
      end
  | (None, _) => None
  end.

Fixpoint parseValue (fuel : nat) (cs : list ascii) : option (json * list ascii) :=
  match fuel with
  | O => None
  | S fuel' =>
      match skipWs cs with
      | "n"%char :: "u"%char :: "l"%char :: "l"%char :: rest => Some (JNull, rest)
      | "t"%char :: "r"%char :: "u"%char :: "e"%char :: rest => Some (JBool true, rest)
      | "f"%char :: "a"%char :: "l"%char :: "s"%char :: "e"%char :: rest => Some (JBool false, rest)
      | "034"%char :: rest => r ← parseString rest; Some (JStr r.1, r.2)
      | "["%char :: rest =>
          match skipWs rest with
          | "]"%char :: rest' => Some (JArr [], rest')
          | _ => r ← parseItems fuel' rest; Some (JArr r.1, r.2)
          end
      | "{"%char :: rest =>
          match skipWs rest with
          | "}"%char :: rest' => Some (JObj [], rest')
          | _ => r ← parseFields fuel' rest; Some (JObj r.1, r.2)
          end
      | cs' => parseNumber cs'
      end
  end
with parseItems (fuel : nat) (cs : list ascii)
  : option (list json * list ascii) :=
  match fuel with
  | O => None
  | S fuel' =>
      v ← parseValue fuel' cs;
      match skipWs v.2 with
      | ","%char :: rest => r ← parseItems fuel' rest; Some (v.1 :: r.1, r.2)
      | "]"%char :: rest => Some ([v.1], rest)
      | _ => None
      end
  end
with parseFields (fuel : nat) (cs : list ascii)
  : option (list (string * json) * list ascii) :=
  match fuel with
  | O => None
  | S fuel' =>
      match skipWs cs with
      | "034"%char :: rest =>
          k ← parseString rest;
          match skipWs k.2 with
          | ":"%char :: rest' =>
              v ← parseValue fuel' rest';
              match skipWs v.2 with
              | ","%char :: rest'' =>
                  r ← parseFields fuel' rest''; Some ((k.1, v.1) :: r.1, r.2)
              | "}"%char :: rest'' => Some ([(k.1, v.1)], rest'')
              | _ => None
              end
          | _ => None
          end
      | _ => None
      end
  end.

Definition parse (s : string) : option json :=
  r ← parseValue (S (String.length s)) (list_ascii_of_string s);
  match skipWs r.2 with
  | [] => Some r.1
  | _ => None
  end.

(** ** base64 *)

Definition alphabet : list ascii :=
  list_ascii_of_string
    "ABCDEFGHIJKLMNOPQRSTUVWXYZabcdefghijklmnopqrstuvwxyz0123456789+/".

Definition sextetChar (n : Z) : ascii := nth (Z.to_nat n) alphabet "A"%char.

Fixpoint encode64 (data : Buffer) : string :=
  match data with
  | [] => EmptyString
  | [a] =>
      String (sextetChar (byteZ a / 4))
        (String (sextetChar (byteZ a mod 4 * 16)) "==")
  | [a; b] =>
      String (sextetChar (byteZ a / 4))
        (String (sextetChar (byteZ a mod 4 * 16 + byteZ b / 16))
           (String (sextetChar (byteZ b mod 16 * 4)) "="))
  | a :: b :: c :: rest =>
      String (sextetChar (byteZ a / 4))
        (String (sextetChar (byteZ a mod 4 * 16 + byteZ b / 16))
           (String (sextetChar (byteZ b mod 16 * 4 + byteZ c / 64))
              (String (sextetChar (byteZ c mod 64)) (encode64 rest))))
  end.

Definition sextetOf (c : ascii) : option Z :=
  if (65 <=? code c) && (code c <=? 90) then Some (code c - 65)
  else if (97 <=? code c) && (code c <=? 122) then Some (code c - 71)
  else if (48 <=? code c) && (code c <=? 57) then Some (code c + 4)
  else if (code c =? 43) || (code c =? 45) then Some 62
  else if (code c =? 47) || (code c =? 95) then Some 63
  else None.

(** The sextets up to the first padding character; other characters are
    skipped. *)
Fixpoint sextets (s : string) : list Z :=
  match s with
  | EmptyString => []
  | String c s' =>
      if code c =? 61 then []
      else match sextetOf c with
           | Some v => v :: sextets s'
           | None => sextets s'
           end
  end.

Fixpoint bytesOf (l : list Z) : Buffer :=
  match l with
  | a :: b :: c :: d :: rest =>
      toByte (a * 4 + b / 16) :: toByte (b mod 16 * 16 + c / 4)
        :: toByte (c mod 4 * 64 + d) :: bytesOf rest
  | [a; b; c] => [toByte (a * 4 + b / 16); toByte (b mod 16 * 16 + c / 4)]
  | [a; b] => [toByte (a * 4 + b / 16)]
  | _ => []
  end.

Definition decode64 (s : string) : Buffer := bytesOf (sextets s).

#[export] Instance platform : Platform := {|
  JSON_parse := parse;
  JSON_stringify := stringify;
  toBase64 := encode64;
  fromBase64 v := match v with JStr s => Some (decode64 s) | _ => None end;
  requestAccepted _ _ _ := true
|}.

End Reference.

(** * Theorems *)

Section FramingFacts.
Import Framing.

(** ** Facts about the codec *)

Lemma readerLoop_eq buffer :
  readerLoop buffer =
    match nextFrame buffer with
    | Some (msgType, payload, rest) =>
        ((msgType, payload) :: (readerLoop rest).1, (readerLoop rest).2)
    | None => ([], buffer)
    end.
Proof.
  funelim (readerLoop buffer).
  - rewrite Hnext. reflexivity.
  - rewrite e. reflexivity.
Qed.

Lemma read_write_UInt32BE value header rest :
  writeUInt32BE value = Some header →
  readUInt32BE (header ++ rest) = Some value ∧ List.length header = 4%nat.
Proof.
  unfold writeUInt32BE. intros H.
  destruct (0 <=? value) eqn:E0; [|done].
  destruct (value <=? 4294967295) eqn:E1; [|done].
  apply Z.leb_le in E0, E1. injection H as <-. split; [|done].
  cbn [app readUInt32BE]. f_equal.
  rewrite !byteZ_toByte, !Z.shiftr_div_pow2 by lia.
  change (2 ^ 24) with 16777216. change (2 ^ 16) with 65536.
  change (2 ^ 8) with 256.
  Z.div_mod_to_equations. lia.
Qed.

Lemma readUInt32BE_nonneg buffer n : readUInt32BE buffer = Some n → 0 <= n.
Proof.
  destruct buffer as [|b0 [|b1 [|b2 [|b3 ?]]]]; try done.
  cbn. intros [= <-].
  pose proof (byteZ_range b0). pose proof (byteZ_range b1).
  pose proof (byteZ_range b2). pose proof (byteZ_range b3). lia.
Qed.

Lemma readUInt32BE_app buffer more n :
  readUInt32BE buffer = Some n → readUInt32BE (buffer ++ more) = Some n.
Proof. destruct buffer as [|b0 [|b1 [|b2 [|b3 ?]]]]; done. Qed.

(** A frame written by [sendMessage] is the next frame of any buffer that
    starts with it. *)
Lemma nextFrame_sendMessage msgTpe payload frame rest :
  0 <= msgTpe < 256 →
  sendMessage msgTpe payload = Some frame →
  nextFrame (frame ++ rest) = Some (msgTpe, payload, rest).
Proof.
  intros Hty. unfold sendMessage.
  destruct (writeUInt32BE (Z.of_nat (List.length payload))) as [header|] eqn:Ew;
    [|done].
  cbn. intros [= <-].
  destruct (read_write_UInt32BE _ _ ([toByte msgTpe] ++ payload ++ rest) Ew)
    as [Hr Hlen].
  unfold nextFrame.
  replace ((header ++ toByte msgTpe :: payload) ++ rest)
    with (header ++ [toByte msgTpe] ++ payload ++ rest)
    by (rewrite <- !app_assoc; reflexivity).
  rewrite Hr. cbn [mbind option_bind].
  rewrite !length_app, Hlen. cbn [List.length].
  replace (5 <=? _) with true by (symmetry; apply Z.leb_le; lia).
  replace (Z.of_nat (List.length payload) + 5 <=? _) with true
    by (symmetry; apply Z.leb_le; lia).
  destruct header as [|h0 [|h1 [|h2 [|h3 [|]]]]]; try done.
  cbn [app lookup list_lookup fmap option_fmap option_map mbind option_bind].
  rewrite byteZ_toByte, Z.mod_small by lia.
  unfold slice.
  replace (Z.to_nat (5 + Z.of_nat (List.length payload) - 5))
    with (List.length payload) by lia.
  replace (Z.to_nat (5 + Z.of_nat (List.length payload)))
    with (5 + List.length payload)%nat by lia.
  change (Z.to_nat 5) with 5%nat. cbn [drop Nat.add].
  rewrite drop_0, take_app_length, drop_app_length. reflexivity.
Qed.

(** Bytes that arrive later do not change a frame that is already whole. *)
Lemma nextFrame_app buffer more msgType payload rest :
  nextFrame buffer = Some (msgType, payload, rest) →
  nextFrame (buffer ++ more) = Some (msgType, payload, rest ++ more).
Proof.
  unfold nextFrame. intros H.
  destruct (5 <=? Z.of_nat (List.length buffer)) eqn:E5; [|done].
  destruct (readUInt32BE buffer) as [n|] eqn:En; [|done].
  cbn [mbind option_bind] in H.
  destruct (n + 5 <=? Z.of_nat (List.length buffer)) eqn:E; [|done].
  destruct (buffer !! 4%nat) as [ty|] eqn:Ety; [|done].
  cbn in H. injection H as <- <- <-.
  apply Z.leb_le in E5, E. pose proof (readUInt32BE_nonneg _ _ En).
  rewrite length_app.
  replace (5 <=? _) with true by (symmetry; apply Z.leb_le; lia).
  rewrite (readUInt32BE_app _ _ _ En). cbn [mbind option_bind].
  replace (n + 5 <=? _) with true by (symmetry; apply Z.leb_le; lia).
  rewrite lookup_app_l by (apply lookup_lt_Some in Ety; done).
  rewrite Ety. cbn. unfold slice.
  rewrite drop_app_le by lia.
  rewrite drop_app_le by lia.
  rewrite take_app_le by (rewrite length_drop; lia).
  reflexivity.
Qed.

Lemma nextFrame_incomplete buffer :
  (Z.of_nat (List.length buffer) < 5 ∨
   ∃ msgLength, readUInt32BE buffer = Some msgLength ∧
                Z.of_nat (List.length buffer) < msgLength + 5) →
  nextFrame buffer = None.
Proof.
  unfold nextFrame. intros [Hshort | (n & Hn & Hshort)].
  - replace (5 <=? _) with false by (symmetry; apply Z.leb_gt; lia). done.
  - destruct (5 <=? _); [|done]. rewrite Hn. cbn.
    replace (n + 5 <=? _) with false by (symmetry; apply Z.leb_gt; lia). done.
Qed.

(** The loop over [buffer ++ more] is the loop over [buffer] followed by the
    loop over what it left, extended by [more]. *)
Lemma readerLoop_app buffer more :
  readerLoop (buffer ++ more) =
    ((readerLoop buffer).1 ++ (readerLoop ((readerLoop buffer).2 ++ more)).1,
     (readerLoop ((readerLoop buffer).2 ++ more)).2).
Proof.
  remember (List.length buffer) as n eqn:Hn. revert buffer Hn.
  induction n as [n IH] using lt_wf_ind. intros buffer ->.
  rewrite (readerLoop_eq buffer).
  destruct (nextFrame buffer) as [[[msgType payload] rest]|] eqn:Enext.
  - rewrite (readerLoop_eq (buffer ++ more)).
    rewrite (nextFrame_app _ more _ _ _ Enext). cbn [fst snd].
    pose proof (nextFrame_shorter _ _ _ _ Enext) as Hlt.
    rewrite (IH _ Hlt rest eq_refl). reflexivity.
  - cbn [fst snd app]. destruct (readerLoop (buffer ++ more)); reflexivity.
Qed.

(** What the loop leaves behind holds no whole frame. *)
Lemma readerLoop_idle buffer : nextFrame (readerLoop buffer).2 = None.
Proof.
  remember (List.length buffer) as n eqn:Hn. revert buffer Hn.
  induction n as [n IH] using lt_wf_ind. intros buffer ->.
  rewrite (readerLoop_eq buffer).
  destruct (nextFrame buffer) as [[[msgType payload] rest]|] eqn:Enext.
  - cbn [snd]. eapply IH; [|reflexivity]. eapply nextFrame_shorter; eauto.
  - done.
Qed.

Lemma readerLoop_of_idle buffer :
  nextFrame buffer = None → readerLoop buffer = ([], buffer).
Proof. intros H. rewrite readerLoop_eq, H. reflexivity. Qed.

Lemma feed_concat buffer chunks :
  nextFrame buffer = None →
  feed buffer chunks = readerLoop (buffer ++ concat chunks).
Proof.
  revert buffer. induction chunks as [|chunk chunks IH]; intros buffer Hidle.
  - cbn [feed concat]. rewrite app_nil_r, readerLoop_of_idle; done.
  - cbn [feed concat]. unfold onData.
    rewrite IH by apply readerLoop_idle.
    rewrite app_assoc. rewrite (readerLoop_app (buffer ++ chunk)). reflexivity.
Qed.

End FramingFacts.

(** ** The relay's [data] handler as a reader *)

Section RelayReader.
Import Framing Offshore.
Context `{JS.Platform}.

Lemma dataLoop_eq (s : State) :
  dataLoop s =
    match nextFrame (buffer s) with
    | Some (msgType, msg, rest) =>
        if negb (msgType =? 0) then dataLoop (set_buffer rest s)
        else dataLoop (set_buffer rest (handleRequestQueue (push msg s)))
    | None => s
    end.
Proof.
  funelim (dataLoop s).
  - rewrite Hnext. reflexivity.
  - rewrite e. reflexivity.
Qed.

(** What the loop does with one frame: lines 148-158. *)
Definition onFrame (s : State) (m : Message) : State :=
  if negb (m.1 =? 0) then s else handleRequestQueue (push m.2 s).

Lemma handleRequestQueueQ_set_buffer q b (s : State) :
  handleRequestQueueQ q (set_buffer b s) =
  set_buffer b (handleRequestQueueQ q s).
Proof.
  revert s. induction q as [|msg q IH]; intros s.
  - cbn [handleRequestQueueQ].
    change (socketGone (set_buffer b s)) with (socketGone s).
    change (processing (set_buffer b s)) with (processing s).
    destruct (processing s || socketGone s); reflexivity.
  - cbn [handleRequestQueueQ].
    change (socketGone (set_buffer b s)) with (socketGone s).
    change (processing (set_buffer b s)) with (processing s).
    destruct (processing s || socketGone s); [reflexivity|].
    destruct (plan (payload msg)) as [|port host|secure u m hd body].
    + apply (IH (set_requestQueue q (set_processing false (set_processing true s)))).
    + reflexivity.
    + destruct body as [[data|]|]; try reflexivity.
      cbn zeta. rewrite <- IH. reflexivity.
Qed.

Lemma onFrame_set_buffer b (s : State) m :
  onFrame (set_buffer b s) m = set_buffer b (onFrame s m).
Proof.
  unfold onFrame. destruct (negb (m.1 =? 0)); [reflexivity|].
  unfold handleRequestQueue.
  change (push m.2 (set_buffer b s)) with (set_buffer b (push m.2 s)).
  apply handleRequestQueueQ_set_buffer.
Qed.

Lemma foldl_onFrame_set_buffer b ms (s : State) :
  foldl onFrame (set_buffer b s) ms = set_buffer b (foldl onFrame s ms).
Proof.
  revert s. induction ms as [|m ms IH]; intros s; [reflexivity|].
  cbn [foldl]. rewrite onFrame_set_buffer. apply IH.
Qed.

Lemma set_buffer_twice b b' (s : State) :
  set_buffer b (set_buffer b' s) = set_buffer b s.
Proof. reflexivity. Qed.

(** The handler's loop hands the frames that [readerLoop] finds to
    [onFrame], one after the other, and keeps what [readerLoop] leaves. *)
Lemma dataLoop_as_reader (s : State) :
  dataLoop s =
  set_buffer (readerLoop (buffer s)).2
    (foldl onFrame s (readerLoop (buffer s)).1).
Proof.
  remember (List.length (buffer s)) as n eqn:Hn. revert s Hn.
  induction n as [n IH] using lt_wf_ind. intros s ->.
  rewrite dataLoop_eq, (readerLoop_eq (buffer s)).
  destruct (nextFrame (buffer s)) as [[[msgType msg] rest]|] eqn:Enext.
  - pose proof (nextFrame_shorter _ _ _ _ Enext) as Hlt.
    cbn [fst snd foldl]. unfold onFrame at 2. cbn [fst snd].
    destruct (negb (msgType =? 0)).
    + rewrite (IH _ Hlt (set_buffer rest s) eq_refl).
      cbn [buffer set_buffer]. rewrite foldl_onFrame_set_buffer. reflexivity.
    + rewrite (IH _ Hlt (set_buffer rest _) eq_refl).
      cbn [buffer set_buffer]. rewrite foldl_onFrame_set_buffer. reflexivity.
  - destruct s; reflexivity.
Qed.

Lemma onData_as_reader chunk (s : State) :
  onData chunk s =
  set_buffer (readerLoop (buffer s ++ chunk)).2
    (foldl onFrame s (readerLoop (buffer s ++ chunk)).1).
Proof.
  unfold onData. rewrite dataLoop_as_reader. cbn [buffer set_buffer].
  rewrite foldl_onFrame_set_buffer. reflexivity.
Qed.

Lemma buffer_handleRequestQueueQ q (s : State) :
  buffer (handleRequestQueueQ q s) = buffer s.
Proof.
  pose proof (handleRequestQueueQ_set_buffer q (buffer s) s) as E.
  replace (set_buffer (buffer s) s) with s in E by (destruct s; reflexivity).
  rewrite E. reflexivity.
Qed.

Lemma buffer_onFrame (s : State) m : buffer (onFrame s m) = buffer s.
Proof.
  unfold onFrame. destruct (negb (m.1 =? 0)); [reflexivity|].
  unfold handleRequestQueue. rewrite buffer_handleRequestQueueQ. reflexivity.
Qed.

Lemma buffer_foldl_onFrame ms (s : State) :
  buffer (foldl onFrame s ms) = buffer s.
Proof.
  revert s. induction ms as [|m ms IH]; intros s; [reflexivity|].
  cbn [foldl]. rewrite IH. apply buffer_onFrame.
Qed.

(** Chunks handled one by one, against all their bytes handled at once. *)
Lemma relay_chunks (chunks : list Buffer) (s : State) :
  nextFrame (buffer s) = None →
  foldl (λ s chunk, onData chunk s) s chunks = onData (concat chunks) s.
Proof.
  revert s. induction chunks as [|chunk chunks IH]; intros s Hidle.
  - cbn [foldl concat]. rewrite onData_as_reader, app_nil_r.
    rewrite (readerLoop_of_idle _ Hidle). destruct s; reflexivity.
  - cbn [foldl concat]. rewrite IH.
    + rewrite !onData_as_reader. cbn [buffer set_buffer].
      rewrite app_assoc, (readerLoop_app (buffer s ++ chunk)). cbn [fst snd].
      rewrite foldl_onFrame_set_buffer, foldl_app. reflexivity.
    + rewrite onData_as_reader. cbn [buffer set_buffer]. apply readerLoop_idle.
Qed.

End RelayReader.

(** ** The codec's laws *)

Section CodecLaws.
Import Framing.

Lemma readerLoop_nil : readerLoop [] = ([], []).
Proof. rewrite readerLoop_eq. reflexivity. Qed.

Lemma readerLoop_frame msgTpe payload frame post :
  0 <= msgTpe < 256 →
  sendMessage msgTpe payload = Some frame →
  readerLoop (frame ++ post) =
    ((msgTpe, payload) :: (readerLoop post).1, (readerLoop post).2).
Proof.
  intros Hty Hsend. rewrite readerLoop_eq.
  rewrite (nextFrame_sendMessage _ _ _ post Hty Hsend). reflexivity.
Qed.

Lemma sendMessage_total msgTpe payload :
  Z.of_nat (List.length payload) < 2 ^ 32 →
  ∃ header, writeUInt32BE (Z.of_nat (List.length payload)) = Some header ∧
            sendMessage msgTpe payload
              = Some (header ++ [toByte msgTpe] ++ payload).
Proof.
  intros Hlen. unfold sendMessage, writeUInt32BE.
  replace (0 <=? Z.of_nat (List.length payload)) with true
    by (symmetry; apply Z.leb_le; lia).
  replace (Z.of_nat (List.length payload) <=? 4294967295) with true
    by (symmetry; apply Z.leb_le; change (2 ^ 32) with 4294967296 in Hlen; lia).
  cbn. eexists. split; reflexivity.
Qed.

(** C3 (round trip): for a type tag that fits its byte and a payload whose
    length fits the 32-bit length field, [sendMessage] writes four
    big-endian length bytes, the type byte and the payload, and the stream
    reader, given exactly these bytes, calls [onMessage] once, with the
    same type and payload, and keeps no byte buffered. *)
Theorem codec_round_trip (msgTpe : Z) (payload : Buffer) :
  0 <= msgTpe < 256 →
  Z.of_nat (List.length payload) < 2 ^ 32 →
  ∃ frame,
    sendMessage msgTpe payload = Some frame ∧
    readUInt32BE frame = Some (Z.of_nat (List.length payload)) ∧
    byteZ <$> frame !! 4%nat = Some msgTpe ∧
    drop 5 frame = payload ∧
    onData [] frame = ([(msgTpe, payload)], []).
Proof.
  intros Hty Hlen.
  destruct (sendMessage_total msgTpe payload Hlen) as (header & Hw & Hsend).
  destruct (read_write_UInt32BE _ _ ([toByte msgTpe] ++ payload) Hw)
    as [Hread Hfour].
  exists (header ++ [toByte msgTpe] ++ payload). split; [exact Hsend|].
  split; [exact Hread|].
  destruct header as [|h0 [|h1 [|h2 [|h3 [|]]]]]; try done.
  split; [cbn; rewrite byteZ_toByte, Z.mod_small by lia; reflexivity|].
  split; [reflexivity|].
  unfold onData. cbn [app].
  pose proof (readerLoop_frame _ _ _ [] Hty Hsend) as Hloop.
  rewrite app_nil_r, readerLoop_nil in Hloop. exact Hloop.
Qed.

Lemma codec_round_trip_witness :
  ∃ frame,
    sendMessage 1 [Byte.x68; Byte.x69] = Some frame ∧
    readUInt32BE frame = Some 2 ∧
    byteZ <$> frame !! 4%nat = Some 1 ∧
    drop 5 frame = [Byte.x68; Byte.x69] ∧
    onData [] frame = ([(1, [Byte.x68; Byte.x69])], []).
Proof.
  apply (codec_round_trip 1 [Byte.x68; Byte.x69]); [lia | reflexivity].
Defined.

End CodecLaws.

Section StreamLaws.
Import Framing.
Context `{JS.Platform}.

(** A buffer that holds no whole frame: fewer than five bytes, or fewer
    than the declared length plus five. *)
Definition incomplete (buffer : Buffer) : Prop :=
  Z.of_nat (List.length buffer) < 5 ∨
  ∃ msgLength, readUInt32BE buffer = Some msgLength ∧
               Z.of_nat (List.length buffer) < msgLength + 5.

Lemma relay_keeps_incomplete chunk (s : Offshore.State) :
  nextFrame (Offshore.buffer s ++ chunk) = None →
  Offshore.onData chunk s =
  Offshore.set_buffer (Offshore.buffer s ++ chunk) s.
Proof.
  intros Hidle. rewrite onData_as_reader, (readerLoop_of_idle _ Hidle).
  reflexivity.
Qed.

(** C4 (fragmentation invariance): however the bytes of a stream are cut
    into chunks, the reader of [setupMessageReader] hands over the same
    messages and keeps the same bytes as when it is given all of them at
    once, and so does the relay's [data] handler, whose whole state ends
    the same; while a buffer holds fewer than five bytes, or fewer than
    the declared length plus five, neither reader takes anything out of
    it. *)
Theorem fragmentation_invariance
    (chunks : list Buffer) (s : Offshore.State) (buffer chunk : Buffer) :
  Offshore.buffer s = [] →
  incomplete (buffer ++ chunk) →
  feed [] chunks = feed [] [concat chunks] ∧
  foldl (λ s chunk, Offshore.onData chunk s) s chunks
    = Offshore.onData (concat chunks) s ∧
  onData buffer chunk = ([], buffer ++ chunk) ∧
  Offshore.onData chunk (Offshore.set_buffer buffer s)
    = Offshore.set_buffer (buffer ++ chunk) s.
Proof.
  intros Hempty Hinc.
  pose proof (nextFrame_incomplete _ Hinc) as Hidle.
  repeat split.
  - rewrite !feed_concat by reflexivity. cbn [concat]. rewrite app_nil_r.
    reflexivity.
  - apply relay_chunks. rewrite Hempty. reflexivity.
  - unfold onData. apply readerLoop_of_idle, Hidle.
  - rewrite relay_keeps_incomplete by exact Hidle. reflexivity.
Qed.

Lemma readerLoop_at_boundary (buffer pre more : Buffer) :
  (readerLoop (buffer ++ pre)).2 = [] →
  readerLoop (buffer ++ pre ++ more) =
    ((readerLoop (buffer ++ pre)).1 ++ (readerLoop more).1,
     (readerLoop more).2).
Proof.
  intros Hb. rewrite app_assoc, readerLoop_app, Hb. reflexivity.
Qed.

(** C5 (unknown types are skipped): a frame whose type is neither 0 nor 1,
    met at a frame boundary of the stream, is consumed by its declared
    length: the frames after it are read as they would be without it.  The
    relay's [data] handler and the agent's reader callback both end in the
    very state they reach when the frame is absent from the stream. *)
Theorem unknown_type_skipped
    (msgTpe : Z) (payload frame pre post : Buffer)
    (r : Offshore.State) (s : Ship.State) :
  0 <= msgTpe < 256 →
  msgTpe ≠ 0 → msgTpe ≠ 1 →
  sendMessage msgTpe payload = Some frame →
  (readerLoop (Offshore.buffer r ++ pre)).2 = [] →
  (readerLoop (Ship.readerBuffer s ++ pre)).2 = [] →
  readerLoop (frame ++ post)
    = ((msgTpe, payload) :: (readerLoop post).1, (readerLoop post).2) ∧
  Offshore.onData (pre ++ frame ++ post) r = Offshore.onData (pre ++ post) r ∧
  Ship.onSockData (pre ++ frame ++ post) s = Ship.onSockData (pre ++ post) s.
Proof.
  intros Hty H0 H1 Hsend Hr Hs.
  pose proof (readerLoop_frame _ _ _ post Hty Hsend) as Hframe.
  split; [exact Hframe|]. split.
  - rewrite !onData_as_reader.
    rewrite (readerLoop_at_boundary _ _ (frame ++ post) Hr).
    rewrite (readerLoop_at_boundary _ _ post Hr).
    rewrite Hframe. cbn [fst snd]. rewrite !foldl_app. cbn [foldl].
    unfold onFrame at 2. cbn [fst].
    replace (msgTpe =? 0) with false by (symmetry; apply Z.eqb_neq; done).
    reflexivity.
  - unfold Ship.onSockData, onData.
    rewrite (readerLoop_at_boundary _ _ (frame ++ post) Hs).
    rewrite (readerLoop_at_boundary _ _ post Hs).
    rewrite Hframe. cbn [fst snd]. rewrite !foldl_app. cbn [foldl].
    unfold Ship.onMessage at 2. cbn [fst].
    replace (msgTpe =? 1) with false by (symmetry; apply Z.eqb_neq; done).
    reflexivity.
Qed.

End StreamLaws.

(** ** What every callback of the agent preserves *)

Section ShipFacts.
Import JS Ship.
Context `{Platform}.

(** The entry a frame was written for. *)
Definition isSend (o : Output) : option nat :=
  match o with
  | OSockWrite _ e _ | OSockWriteDropped _ e => Some e
  | _ => None
  end.

(** The frames written for an entry. *)
Definition sends (e : nat) (l : list Output) : list Output :=
  filter (λ o, isSend o = Some e) l.

(** Every suspended call of [processingLoop] works on an entry that has a
    response object, that is, on a request that is not a CONNECT. *)
Definition callsOk (s : State) : Prop :=
  ∀ i, i ∈ invocations s → hasRes (current i) s = true.

(** Timer and socket identifiers come from [nextId]: those in use are
    below it. *)
Definition fresh (s : State) : Prop :=
  (∀ r, reconnectTimer s = Some r → (r < nextId s)%nat) ∧
  (∀ x, x ∈ timers s → (timerId x < nextId s)%nat).

(** [s'] comes after [s]: the log grew, and the frames written meanwhile
    are for entries in [allow]; request objects stay, with their request,
    their kind, and their body stream's end; suspended calls stay on
    requests that are not CONNECTs; identifiers stay fresh. *)
Record advance (allow : nat → Prop) (s s' : State) : Prop := {
  adv_log : ∃ ext, log s' = ext ++ log s ∧
                   ∀ o e, o ∈ ext → isSend o = Some e → allow e;
  adv_heap : ∀ e ent, heap s !! e = Some ent →
             ∃ ent', heap s' !! e = Some ent' ∧ req ent' = req ent ∧
                     isConnect ent' = isConnect ent ∧
                     (reqFlow ent = Ended → reqFlow ent' = Ended);
  adv_calls : callsOk s → callsOk s';
  adv_fresh : fresh s → fresh s'
}.

Lemma advance_refl a s : advance a s s.
Proof.
  split; [exists []; split; [done|]; intros ?? Hin; inversion Hin
         | eauto | done | done].
Qed.

Lemma advance_trans a s1 s2 s3 :
  advance a s1 s2 → advance a s2 s3 → advance a s1 s3.
Proof.
  intros [(x1 & L1 & A1) H1 C1 N1] [(x2 & L2 & A2) H2 C2 N2]. split.
  - exists (x2 ++ x1). rewrite L2, L1, app_assoc. split; [done|].
    intros o e [Hin|Hin]%elem_of_app; eauto.
  - intros e ent Hent. destruct (H1 e ent Hent) as (ent1 & E1 & R1 & K1 & F1).
    destruct (H2 e ent1 E1) as (ent2 & E2 & R2 & K2 & F2).
    exists ent2. repeat split; [done|congruence|congruence|auto].
  - auto.
  - auto.
Qed.

Lemma advance_weaken (a b : nat → Prop) s s' :
  (∀ e, a e → b e) → advance a s s' → advance b s s'.
Proof.
  intros Hab [(x & L & A) Hh Hc Hf]. split; [|done|done|done].
  exists x. split; [done|]. eauto.
Qed.

Lemma hasRes_advance a s s' e :
  advance a s s' → hasRes e s = true → hasRes e s' = true.
Proof.
  intros [_ Hh _ _]. unfold hasRes. destruct (heap s !! e) as [ent|] eqn:E; [|done].
  destruct (Hh e ent E) as (ent' & -> & _ & -> & _). done.
Qed.

(** State changes that leave the log, the request objects and the
    suspended calls alone. *)
Lemma adv_still a s0 s s' :
  log s' = log s → heap s' = heap s → invocations s' = invocations s →
  (fresh s → fresh s') →
  advance a s0 s → advance a s0 s'.
Proof.
  intros L Hh I Hf Hadv. eapply advance_trans; [exact Hadv|].
  split.
  - exists []. rewrite L. split; [done|]. intros ?? Hin. inversion Hin.
  - intros e ent. rewrite Hh. eauto.
  - unfold callsOk, hasRes. rewrite I, Hh. done.
  - exact Hf.
Qed.

Lemma adv_silent a s0 s s' :
  log s' = log s → heap s' = heap s → invocations s' = invocations s →
  reconnectTimer s' = reconnectTimer s → timers s' = timers s →
  nextId s' = nextId s →
  advance a s0 s → advance a s0 s'.
Proof.
  intros L Hh I R T N. apply adv_still; try done.
  unfold fresh. rewrite R, T, N. done.
Qed.

Lemma adv_emit a s0 s o :
  (∀ e, isSend o = Some e → a e) →
  advance a s0 s → advance a s0 (emit o s).
Proof.
  intros Ho Hadv. eapply advance_trans; [exact Hadv|]. split.
  - exists [o]. split; [done|]. intros o' e ->%list_elem_of_singleton. auto.
  - eauto.
  - done.
  - done.
Qed.

Lemma adv_heap_alter a s0 s (f : Entry → Entry) e :
  (∀ ent, req (f ent) = req ent ∧ isConnect (f ent) = isConnect ent ∧
          (reqFlow ent = Ended → reqFlow (f ent) = Ended)) →
  advance a s0 s → advance a s0 (set_heap (alter f e (heap s)) s).
Proof.
  intros Hf Hadv. eapply advance_trans; [exact Hadv|].
  assert (∀ e0 ent, heap s !! e0 = Some ent →
    ∃ ent', alter f e (heap s) !! e0 = Some ent' ∧ req ent' = req ent ∧
            isConnect ent' = isConnect ent ∧
            (reqFlow ent = Ended → reqFlow ent' = Ended)) as Hh.
  { intros e0 ent Hent. destruct (decide (e = e0)) as [->|Hne].
    - exists (f ent). rewrite list_lookup_alter_eq, Hent.
      destruct (Hf ent) as (? & ? & ?). done.
    - exists ent. rewrite list_lookup_alter_ne by done. done. }
  split.
  - exists []. split; [done|]. intros ?? Hin. inversion Hin.
  - exact Hh.
  - intros Hc i Hi. specialize (Hc i Hi). unfold hasRes in *. cbn.
    destruct (heap s !! current i) as [ent|] eqn:E; [|done].
    destruct (Hh _ _ E) as (ent' & -> & _ & -> & _). done.
  - done.
Qed.

Lemma adv_suspend a s0 s cur st :
  hasRes cur s = true →
  advance a s0 s → advance a s0 (suspend cur st s).
Proof.
  intros Hres Hadv. eapply advance_trans; [exact Hadv|]. split.
  - exists []. split; [done|]. intros ?? Hin. inversion Hin.
  - eauto.
  - intros Hc i [Hi| ->%list_elem_of_singleton]%elem_of_app; [exact (Hc i Hi)|].
    exact Hres.
  - done.
Qed.

Lemma adv_invocations_sub a s0 s l :
  (∀ i, i ∈ l → ∃ j, j ∈ invocations s ∧ current i = current j) →
  advance a s0 s → advance a s0 (set_invocations l s).
Proof.
  intros Hsub Hadv. eapply advance_trans; [exact Hadv|]. split.
  - exists []. split; [done|]. intros ?? Hin. inversion Hin.
  - eauto.
  - intros Hc i Hi. destruct (Hsub i Hi) as (j & Hj & ->). exact (Hc j Hj).
  - done.
Qed.

Lemma adv_heap_push a s0 s ent :
  advance a s0 s → advance a s0 (set_heap (heap s ++ [ent]) s).
Proof.
  intros Hadv. eapply advance_trans; [exact Hadv|]. split.
  - exists []. split; [done|]. intros ?? Hin. inversion Hin.
  - intros e ent0 Hent. exists ent0. cbn.
    rewrite lookup_app_l by (eapply lookup_lt_Some; eauto). done.
  - intros Hc i Hi. specialize (Hc i Hi). unfold hasRes in *. cbn.
    destruct (heap s !! current i) as [ent0|] eqn:E; [|done].
    rewrite lookup_app_l by (eapply lookup_lt_Some; eauto). rewrite E. done.
  - done.
Qed.

Create HintDb adv.


Lemma adv_set_now a s0 s v : advance a s0 s → advance a s0 (set_now v s).
Proof. apply adv_silent; reflexivity. Qed.
Lemma adv_set_offshoreSocket a s0 s v :
  advance a s0 s → advance a s0 (set_offshoreSocket v s).
Proof. apply adv_silent; reflexivity. Qed.
Lemma adv_set_closing a s0 s v :
  advance a s0 s → advance a s0 (set_closing v s).
Proof. apply adv_silent; reflexivity. Qed.
Lemma adv_set_queue a s0 s v : advance a s0 s → advance a s0 (set_queue v s).
Proof. apply adv_silent; reflexivity. Qed.
Lemma adv_set_processing a s0 s v :
  advance a s0 s → advance a s0 (set_processing v s).
Proof. apply adv_silent; reflexivity. Qed.
Lemma adv_set_tunnels a s0 s v :
  advance a s0 s → advance a s0 (set_tunnels v s).
Proof. apply adv_silent; reflexivity. Qed.
Lemma adv_set_readerBuffer a s0 s v :
  advance a s0 s → advance a s0 (set_readerBuffer v s).
Proof. apply adv_silent; reflexivity. Qed.

Hint Resolve advance_refl adv_set_now adv_set_offshoreSocket adv_set_closing
  adv_set_queue adv_set_processing adv_set_tunnels adv_set_readerBuffer : adv.

Lemma adv_setTimeout a s0 s d act :
  advance a s0 s → advance a s0 (setTimeout d act s).
Proof.
  apply adv_still; try reflexivity. intros [Hr Ht]. split; cbn.
  - intros r Hrt. specialize (Hr r Hrt). lia.
  - intros x [Hx| ->%list_elem_of_singleton]%elem_of_app; cbn; [|lia].
    specialize (Ht x Hx). lia.
Qed.

Lemma adv_clearTimeout a s0 s t :
  advance a s0 s → advance a s0 (clearTimeout t s).
Proof.
  apply adv_still; try reflexivity. intros [Hr Ht]. split; cbn; [done|].
  intros x [_ Hx]%list_elem_of_filter. by apply Ht.
Qed.

Lemma adv_takeId a s0 s :
  advance a s0 s → advance a s0 (set_nextId (S (nextId s)) s).
Proof.
  apply adv_still; try reflexivity. intros [Hr Ht]. split; cbn.
  - intros r Hrt. specialize (Hr r Hrt). lia.
  - intros x Hx. specialize (Ht x Hx). lia.
Qed.

Lemma adv_forget_reconnect a s0 s :
  advance a s0 s → advance a s0 (set_reconnectTimer None s).
Proof.
  apply adv_still; try reflexivity. intros [Hr Ht]. split; cbn; done.
Qed.

Lemma adv_quiet a s0 s o :
  isSend o = None → advance a s0 s → advance a s0 (emit o s).
Proof. intros Ho. apply adv_emit. intros e. rewrite Ho. done. Qed.

Lemma adv_writeHead a s0 s s' e st hd :
  writeHead e st hd s = Some s' → advance a s0 s → advance a s0 s'.
Proof.
  unfold writeHead. destruct (headersSent e s); [done|].
  intros [= <-]. by apply adv_quiet.
Qed.

Lemma adv_resEnd a s0 s e data :
  advance a s0 s → advance a s0 (resEnd e data s).
Proof. unfold resEnd. destruct (finished e s); [done|]. by apply adv_quiet. Qed.

Lemma adv_catchAll a s0 s cur :
  advance a s0 s → advance a s0 (catchAll cur s).
Proof.
  unfold catchAll. destruct (hasRes cur s).
  - apply adv_resEnd.
  - by apply adv_quiet.
Qed.

Lemma adv_connectToOffshore a s0 s :
  advance a s0 s → advance a s0 (connectToOffshore s).
Proof.
  unfold connectToOffshore. destruct (socketUsable s); [done|].
  intros. apply adv_quiet; [done|].
  apply (adv_takeId a s0
           (set_readerBuffer [] (set_closing _ (set_offshoreSocket _ s)))).
  eauto with adv.
Qed.

Lemma adv_scheduleReconnect a s0 s :
  advance a s0 s → advance a s0 (scheduleReconnect s).
Proof.
  unfold scheduleReconnect. destruct (reconnectTimer s); [done|].
  apply adv_still; try reflexivity. intros [Hr Ht]. split; cbn.
  - intros r [= <-]. lia.
  - intros x [Hx| ->%list_elem_of_singleton]%elem_of_app; cbn; [|lia].
    specialize (Ht x Hx). lia.
Qed.

Hint Resolve adv_setTimeout adv_clearTimeout adv_resEnd adv_catchAll
  adv_connectToOffshore adv_scheduleReconnect : adv.

Lemma hasRes_alter (f : Entry → Entry) e cur s :
  (∀ ent, isConnect (f ent) = isConnect ent) →
  hasRes cur (set_heap (alter f e (heap s)) s) = hasRes cur s.
Proof.
  intros Hf. unfold hasRes. cbn. destruct (decide (e = cur)) as [->|Hne].
  - rewrite list_lookup_alter_eq. destruct (heap s !! cur); cbn; [|done].
    by rewrite Hf.
  - by rewrite list_lookup_alter_ne.
Qed.

Lemma adv_awaitBody a s0 s cur :
  hasRes cur s = true → advance a s0 s → advance a s0 (awaitBody cur s).
Proof.
  intros Hres Hadv. unfold awaitBody. apply adv_suspend.
  - rewrite hasRes_alter; [done|]. intros ent. by destruct (reqFlow ent).
  - apply adv_heap_alter; [|done].
    intros ent. destruct (reqFlow ent) eqn:E; cbn; rewrite ?E; done.
Qed.

Lemma adv_processingLoopQ a q s0 s :
  advance a s0 s → advance a s0 (processingLoopQ q s).
Proof.
  revert s. induction q as [|cur q IH]; intros s Hadv; cbn [processingLoopQ].
  - by destruct (processing s).
  - destruct (processing s); [done|]. cbn zeta.
    change (heap (set_processing true s)) with (heap s).
    destruct (heap s !! cur) as [ent|] eqn:Eent; [|solve [eauto with adv]].
    destruct (isConnect ent) eqn:Ec; cbn [negb].
    + destruct (connectTarget (req ent)) as [host port].
      destruct ((0 <=? port) && (port <? 65536)).
      * apply adv_set_tunnels, adv_quiet; [done|]. solve [eauto with adv].
      * apply IH. solve [eauto with adv].
    + assert (hasRes cur s = true) as Hres by (unfold hasRes; rewrite Eent, Ec; done).
      destruct (socketUsable (set_processing true s)).
      * apply adv_awaitBody; [exact Hres|]. solve [eauto with adv].
      * apply adv_suspend; [|solve [eauto 6 with adv]].
        eapply (hasRes_advance a); [|exact Hres].
        apply adv_setTimeout, adv_connectToOffshore, adv_set_processing,
          advance_refl.
Qed.

Lemma adv_processingLoop a s0 s :
  advance a s0 s → advance a s0 (processingLoop s).
Proof. apply adv_processingLoopQ. Qed.

Lemma adv_finish a s0 s : advance a s0 s → advance a s0 (finish s).
Proof. intros. apply adv_processingLoop. solve [eauto with adv]. Qed.

Hint Resolve adv_processingLoop adv_finish : adv.

Lemma adv_afterWait a s0 s cur :
  hasRes cur s = true → advance a s0 s → advance a s0 (afterWait cur s).
Proof.
  intros Hres Hadv. unfold afterWait.
  destruct (socketUsable s); [by apply adv_awaitBody|].
  rewrite Hres. destruct (writeHead cur (JNum 502) None s) as [s'|] eqn:Ew.
  - apply adv_finish, adv_resEnd. eapply adv_writeHead; eauto.
  - eauto with adv.
Qed.

Lemma adv_afterBody (a : nat → Prop) s0 s cur chunks :
  a cur → hasRes cur s = true →
  advance a s0 s → advance a s0 (afterBody cur chunks s).
Proof.
  intros Ha Hres Hadv. unfold afterBody.
  destruct (heap s !! cur) as [ent|]; [|done].
  destruct (offshoreSocket s) as [sock|]; [|eauto with adv].
  destruct (Framing.sendMessage 0 _) as [bytes|]; [|eauto with adv].
  cbn zeta. apply adv_suspend; [exact Hres|].
  apply adv_setTimeout, adv_emit; [|done].
  intros e. destruct (destroyed sock); cbn; intros [= <-]; exact Ha.
Qed.

Lemma adv_relayResponse a s0 s cur payload :
  advance a s0 s → advance a s0 (relayResponse cur payload s).1.
Proof.
  intros Hadv. unfold relayResponse.
  destruct (JSON_parse _) as [responseObj|]; [|done].
  destruct (get _ "statusCode") as [st|]; [|done].
  destruct (get _ "headers") as [hd|]; [|done].
  destruct (get _ "body") as [bd|]; [|done].
  destruct (hasRes cur s); [|done].
  destruct (writeHead cur _ _ s) as [s'|] eqn:Ew; [|done].
  pose proof (adv_writeHead _ _ _ _ _ _ _ Ew Hadv).
  destruct (fromBase64 _); [|done]. by apply adv_resEnd.
Qed.

Lemma adv_respond a s0 s cur payload :
  advance a s0 s → advance a s0 (respond cur payload s).
Proof.
  intros Hadv. unfold respond. destruct payload as [payload|].
  - pose proof (adv_relayResponse _ _ _ cur payload Hadv) as Hr.
    destruct (relayResponse cur payload s) as [s' threw]. cbn [fst] in Hr.
    destruct (threw && hasRes cur s'); eauto with adv.
  - destruct (hasRes cur s); [|eauto with adv].
    destruct (writeHead cur (JNum 504) None s) as [s'|] eqn:Ew.
    + apply adv_finish, adv_resEnd. eapply adv_writeHead; eauto.
    + eauto with adv.
Qed.

Hint Resolve adv_respond : adv.

Lemma adv_settle a s0 s : advance a s0 s → advance a s0 (settle s).
Proof.
  intros Hadv. unfold settle. cbn zeta.
  generalize (filter (λ i, is_Some (ready s i)) (invocations s)) as woken.
  assert (advance a s0
            (set_invocations
               (filter (λ i, ¬ is_Some (ready s i)) (invocations s)) s)) as Hs.
  { apply adv_invocations_sub; [|done].
    intros i [_ Hi]%list_elem_of_filter. eauto. }
  revert Hs.
  generalize (set_invocations
                (filter (λ i, ¬ is_Some (ready s i)) (invocations s)) s).
  intros s1 Hs1 woken. revert s1 Hs1.
  induction woken as [|i woken IH]; intros s1 Hs1; [done|].
  cbn [foldl]. apply IH.
  destruct (ready s1 i); [|done]. destruct (timerOf i); [|done].
  eauto with adv.
Qed.

Lemma adv_onMessage a s0 s msgType payload :
  advance a s0 s → advance a s0 (onMessage msgType payload s).
Proof.
  intros Hadv. unfold onMessage. destruct (negb (msgType =? 1)); [done|].
  destruct (queue s) as [|head q]; [done|].
  apply adv_heap_alter; [|done].
  intros ent. by destruct (resolved ent).
Qed.

Lemma adv_onSockData a s0 s chunk :
  advance a s0 s → advance a s0 (onSockData chunk s).
Proof.
  intros Hadv. unfold onSockData. cbn zeta. apply adv_settle.
  generalize (Framing.onData (readerBuffer s) chunk).1 as msgs.
  assert (advance a s0
            (set_readerBuffer (Framing.onData (readerBuffer s) chunk).2 s))
    as Hs by eauto with adv.
  revert Hs. generalize (set_readerBuffer
                           (Framing.onData (readerBuffer s) chunk).2 s).
  intros s1 Hs1 msgs. revert s1 Hs1.
  induction msgs as [|m msgs IH]; intros s1 Hs1; [done|].
  cbn [foldl]. apply IH. by apply adv_onMessage.
Qed.

Lemma adv_enqueueRequest a s0 s r isC :
  advance a s0 s → advance a s0 (enqueueRequest r isC s).
Proof.
  intros Hadv. unfold enqueueRequest. cbn zeta.
  match goal with |- context [processing ?x] => destruct (processing x) end.
  - apply adv_set_queue, adv_heap_push, Hadv.
  - apply adv_processingLoop, adv_set_queue, adv_heap_push, Hadv.
Qed.

Lemma adv_markSocket a s0 s f :
  advance a s0 s → advance a s0 (markSocket f s).
Proof. unfold markSocket. eauto with adv. Qed.

Lemma adv_onConnect a s0 s : advance a s0 s → advance a s0 (onConnect s).
Proof.
  intros Hadv. unfold onConnect. apply adv_processingLoop.
  destruct (reconnectTimer s); [|done].
  apply adv_forget_reconnect, adv_clearTimeout, Hadv.
Qed.

Lemma adv_markTunnel a s0 s t f :
  advance a s0 s → advance a s0 (markTunnel t f s).
Proof. unfold markTunnel. eauto with adv. Qed.

Hint Resolve adv_markSocket adv_markTunnel adv_onConnect : adv.

Lemma adv_destroyRemote a s0 s t :
  advance a s0 s → advance a s0 (destroyRemote t s).
Proof.
  intros Hadv. unfold destroyRemote. destruct (tunnels s !! t) as [u|]; [|done].
  destruct (remoteDestroyed u); [done|]. apply adv_quiet; eauto with adv.
Qed.

Hint Resolve adv_destroyRemote : adv.

Lemma adv_onClientError a s0 s e :
  advance a s0 s → advance a s0 (onClientError e s).
Proof.
  unfold onClientError. generalize (tunnelsOf e s) as ts. intros ts. revert s.
  induction ts as [|t ts IH]; intros s Hadv; [done|].
  cbn [foldl]. apply IH. eauto with adv.
Qed.

Lemma adv_onClientClose a s0 s e :
  advance a s0 s → advance a s0 (onClientClose e s).
Proof.
  intros Hadv. unfold onClientClose. generalize (tunnelsOf e s) as ts.
  assert (advance a s0 (set_heap (alter setClientClosed e (heap s)) s)) as Hs.
  { apply adv_heap_alter; [|done]. intros ent. done. }
  revert Hs. generalize (set_heap (alter setClientClosed e (heap s)) s).
  intros s1 Hs1 ts. revert s1 Hs1.
  induction ts as [|t ts IH]; intros s1 Hs1; [done|].
  cbn [foldl]. apply IH. eauto with adv.
Qed.

Lemma adv_wake_bodies (a : nat → Prop) s0 woken s :
  (∀ i, i ∈ woken → a (current i) ∧ hasRes (current i) s0 = true) →
  advance a s0 s →
  advance a s0
    (foldl (λ s i, match stage i with
                   | AwaitBody bodyChunks => afterBody (current i) bodyChunks s
                   | _ => s
                   end) s woken).
Proof.
  revert s. induction woken as [|i woken IH]; intros s Hw Hadv; [done|].
  cbn [foldl]. apply IH; [intros j Hj; apply Hw; by right|].
  destruct (Hw i) as [Ha Hres]; [by left|].
  destruct (stage i); try done.
  apply adv_afterBody; [done| |done]. eapply hasRes_advance; eauto.
Qed.

(** The frames written when a body ends are for the entry whose body
    ended, and only if a suspended call was waiting for it. *)
Lemma adv_onBodyEnd s e :
  callsOk s →
  advance (λ e', e' = e ∧ ∃ i, i ∈ invocations s ∧ current i = e) s
    (onBodyEnd e s).
Proof.
  intros Hok. unfold onBodyEnd. cbn zeta. apply adv_settle.
  apply adv_wake_bodies.
  - intros i [Hi Hin]%list_elem_of_filter.
    unfold awaitsBodyOf in Hi. destruct (stage i); try done.
    apply Nat.eqb_eq in Hi. split; [|by apply Hok]. split; [done|]. eauto.
  - apply adv_invocations_sub.
    + intros i [_ Hi]%list_elem_of_filter. eauto.
    + apply adv_heap_alter; [|apply advance_refl]. intros ent. done.
Qed.

Lemma adv_onTimer a s0 s t :
  callsOk s → advance a s0 s → advance a s0 (onTimer t s).
Proof.
  intros Hok Hadv. unfold onTimer. cbn zeta.
  destruct (action t); [eauto with adv|].
  change (invocations (clearTimeout (timerId t) s)) with (invocations s).
  destruct (List.find _ (invocations s)) as [i|] eqn:Efind; [|eauto with adv].
  apply find_some in Efind as [Hi%list_elem_of_In _].
  assert (advance a s0
            (set_invocations
               (filter (λ j, timerOf j ≠ Some (timerId t)) (invocations s))
               (clearTimeout (timerId t) s))) as Hs.
  { apply adv_invocations_sub; [|eauto with adv].
    intros j [_ Hj]%list_elem_of_filter. eauto. }
  destruct (stage i); [|done|eauto with adv].
  apply adv_afterWait; [|done]. by apply Hok.
Qed.

(** Every step of the agent is an advance; frames are written only by the
    step that ends a request body, for the entry of that body, on behalf
    of a suspended call. *)
Lemma step_advance s ev s' :
  callsOk s → step s ev = Some s' →
  advance (λ e, ev = EBodyEnd e ∧ ∃ i, i ∈ invocations s ∧ current i = e) s s'.
Proof.
  intros Hok Hstep. destruct ev; cbn [step] in Hstep;
    repeat case_match; try discriminate Hstep; injection Hstep as <-;
    try solve [eauto 7 using adv_enqueueRequest, adv_onSockData,
                 adv_onClientError, adv_onClientClose, adv_onTimer,
                 adv_quiet with adv].
  - apply adv_invocations_sub; [|apply advance_refl].
    intros i (j & -> & Hj)%list_elem_of_fmap. exists j. split; [done|].
    unfold pushChunk. destruct (stage j); try done.
    by destruct (Nat.eqb (current j) e).
  - eapply advance_weaken; [|by apply adv_onBodyEnd].
    intros e' [-> Hi]. split; [reflexivity | exact Hi].
Qed.

(** ** Consequences for runs *)

Definition flowOf (s : State) (e : nat) : option Flow :=
  reqFlow <$> heap s !! e.

Lemma flowOf_advance a s s' e :
  advance a s s' → flowOf s e = Some Ended → flowOf s' e = Some Ended.
Proof.
  intros [_ Hh _ _]. unfold flowOf.
  destruct (heap s !! e) as [ent|] eqn:E; [|done]. cbn. intros [= Hf].
  destruct (Hh e ent E) as (ent' & -> & _ & _ & Hend). cbn. by rewrite Hend.
Qed.

Lemma callsOk_initial : callsOk initial.
Proof. intros i Hi. inversion Hi. Qed.

Lemma callsOk_step s ev s' : callsOk s → step s ev = Some s' → callsOk s'.
Proof. intros Hok Hstep. by apply (step_advance _ _ _ Hok Hstep). Qed.

Lemma callsOk_run evs s s' : callsOk s → run s evs = Some s' → callsOk s'.
Proof.
  revert s. induction evs as [|ev evs IH]; intros s Hok; cbn [run].
  - by intros [= <-].
  - destruct (step s ev) as [s1|] eqn:E; [|done]. cbn.
    apply IH. eapply callsOk_step; eauto.
Qed.



Lemma hasRes_run evs s s' e :
  callsOk s → run s evs = Some s' → hasRes e s = true → hasRes e s' = true.
Proof.
  revert s. induction evs as [|ev evs IH]; intros s Hok; cbn [run].
  - by intros [= <-].
  - destruct (step s ev) as [s1|] eqn:E; [|done]. cbn. intros Hrun Hres.
    eapply IH; [eapply callsOk_step; eauto | done |].
    eapply hasRes_advance; [exact (step_advance _ _ _ Hok E) | done].
Qed.

Lemma bodyEnd_enabled s e s' :
  step s (EBodyEnd e) = Some s' → flowOf s e = Some Flowing.
Proof.
  cbn [step]. unfold flowOf.
  destruct (reqFlow <$> heap s !! e) as [[]|]; done.
Qed.

Lemma bodyEnd_ends s e s' :
  callsOk s → step s (EBodyEnd e) = Some s' → flowOf s' e = Some Ended.
Proof.
  intros Hok Hstep. pose proof (bodyEnd_enabled _ _ _ Hstep) as Hflow.
  cbn [step] in Hstep. fold (flowOf s e) in Hstep. rewrite Hflow in Hstep.
  injection Hstep as <-. unfold onBodyEnd. cbn zeta.
  set (s1 := set_invocations _ _).
  assert (flowOf s1 e = Some Ended) as H1.
  { unfold flowOf in *. subst s1. cbn.
    destruct (heap s !! e) as [ent|] eqn:E; [|done].
    rewrite list_lookup_alter_eq, E. reflexivity. }
  eapply (flowOf_advance (λ _, True)); [|exact H1].
  apply adv_settle, adv_wake_bodies; [|apply advance_refl].
  intros i [Hi Hin]%list_elem_of_filter. split; [done|].
  subst s1. change (hasRes (current i)
    (set_heap (alter (setFlow Ended) e (heap s)) s) = true).
  rewrite hasRes_alter by done. by apply Hok.
Qed.

Lemma sends_app e l1 l2 : sends e (l1 ++ l2) = sends e l1 ++ sends e l2.
Proof. apply list.filter_app. Qed.

Lemma sends_nil_iff e l :
  sends e l = [] ↔ ∀ o, o ∈ l → isSend o ≠ Some e.
Proof.
  unfold sends. split.
  - intros Hnil o Hin Ho.
    assert (o ∈ filter (λ o, isSend o = Some e) l) as Hf
      by (apply list_elem_of_filter; done).
    rewrite Hnil in Hf. inversion Hf.
  - intros Hall. induction l as [|o l IH]; [done|].
    rewrite filter_cons. destruct (decide (isSend o = Some e)) as [Ho|Ho].
    + exfalso. eapply Hall; [by left | done].
    + apply IH. intros o' Ho'. apply Hall. by right.
Qed.

(** Once the body of a request has ended, no step writes a frame for it. *)
Lemma step_no_resend s ev s' e :
  callsOk s → flowOf s e = Some Ended → step s ev = Some s' →
  sends e (log s') = sends e (log s) ∧ flowOf s' e = Some Ended.
Proof.
  intros Hok Hend Hstep. pose proof (step_advance _ _ _ Hok Hstep) as Hadv.
  split; [|eapply flowOf_advance; eauto].
  destruct Hadv as [(ext & -> & Hext) _ _ _]. rewrite sends_app.
  replace (sends e ext) with (@nil Output); [done|].
  symmetry. apply sends_nil_iff. intros o Hin Ho.
  destruct (Hext o e Hin Ho) as [-> _].
  apply bodyEnd_enabled in Hstep. congruence.
Qed.

Lemma run_no_resend evs s s' e :
  callsOk s → flowOf s e = Some Ended → run s evs = Some s' →
  sends e (log s') = sends e (log s).
Proof.
  revert s. induction evs as [|ev evs IH]; intros s Hok Hend; cbn [run].
  - by intros [= <-].
  - destruct (step s ev) as [s1|] eqn:E; [|done]. cbn. intros Hrun.
    destruct (step_no_resend _ _ _ _ Hok Hend E) as [<- Hend1].
    eapply IH; [eapply callsOk_step; eauto | done | done].
Qed.

(** A frame was written for [e] only after the body of [e] had ended, for a
    request that is not a CONNECT. *)
Definition sentOk (s : State) : Prop :=
  ∀ o e, o ∈ log s → isSend o = Some e →
         flowOf s e = Some Ended ∧ hasRes e s = true.

Lemma sentOk_step s ev s' :
  callsOk s → sentOk s → step s ev = Some s' → sentOk s'.
Proof.
  intros Hok Hsent Hstep. pose proof (step_advance _ _ _ Hok Hstep) as Hadv.
  intros o e Hin Ho. destruct (Hadv) as [(ext & Hlog & Hext) _ _ _].
  rewrite Hlog in Hin. apply elem_of_app in Hin as [Hin|Hin].
  - destruct (Hext o e Hin Ho) as [-> (i & Hi & <-)]. split.
    + eapply bodyEnd_ends; eauto.
    + eapply hasRes_advance; [exact Hadv|]. by apply Hok.
  - destruct (Hsent o e Hin Ho) as [Hend Hres]. split.
    + eapply flowOf_advance; eauto.
    + eapply hasRes_advance; eauto.
Qed.

Lemma sentOk_run evs s s' :
  callsOk s → sentOk s → run s evs = Some s' → sentOk s'.
Proof.
  revert s. induction evs as [|ev evs IH]; intros s Hok Hsent; cbn [run].
  - by intros [= <-].
  - destruct (step s ev) as [s1|] eqn:E; [|done]. cbn.
    apply IH; [eapply callsOk_step | eapply sentOk_step]; eauto.
Qed.

Lemma sentOk_initial : sentOk initial.
Proof. intros o e Hin. inversion Hin. Qed.

Lemma run_app (evs1 evs2 : list Event) s :
  run s (evs1 ++ evs2) = s1 ← run s evs1; run s1 evs2.
Proof.
  revert s. induction evs1 as [|ev evs1 IH]; intros s; [done|].
  cbn [app run]. destruct (step s ev); [apply IH | done].
Qed.

End ShipFacts.

(** ** What every callback of the relay preserves *)

Section RelayFacts.
Import JS Offshore.
Context `{Platform}.

(** Messages carry numbers below [nextMsg]; a frame is written only about
    the message of an outbound call; and no message in [dead] is queued or
    has a call. *)
Record sound (dead : nat → Prop) (s : State) : Prop := {
  snd_queue : ∀ x, x ∈ requestQueue s →
              (msgId x < nextMsg s)%nat ∧ ¬ dead (msgId x);
  snd_calls : ∀ u, u ∈ calls s → (callOf u < nextMsg s)%nat ∧ ¬ dead (callOf u);
  snd_log : ∀ k a bytes, OWrite k a bytes ∈ log s →
            ∃ u, u ∈ calls s ∧ callOf u = a;
  snd_dead : ∀ m, dead m → (m < nextMsg s)%nat
}.

Lemma sound_initial : sound (λ _, False) initial.
Proof. split; cbn; intros; try done; match goal with H : _ ∈ [] |- _ => inversion H end. Qed.

Lemma sound_emit dead s o :
  (∀ k a bytes, o = OWrite k a bytes → ∃ u, u ∈ calls s ∧ callOf u = a) →
  sound dead s → sound dead (emit o s).
Proof.
  intros Ho [Hq Hc Hl Hd]. split; try done.
  intros k a bytes [Heq|Hin]%elem_of_cons; [|eauto].
  apply (Ho k a bytes). by symmetry.
Qed.

Lemma sound_quiet dead s o :
  (∀ k a bytes, o ≠ OWrite k a bytes) → sound dead s → sound dead (emit o s).
Proof.
  intros Ho. apply sound_emit. intros k a bytes Heq.
  by destruct (Ho k a bytes).
Qed.

Lemma sound_sendFramedMessage dead s msgType payloadBuffer u :
  u ∈ calls s → sound dead s →
  sound dead (sendFramedMessage msgType payloadBuffer (callOf u) s).
Proof.
  intros Hu Hs. unfold sendFramedMessage.
  destruct (clientSocket s) as [k|]; [|done].
  destruct (destroyed k); [done|].
  destruct (Framing.sendMessage _ _); [|done].
  apply sound_emit; [|done]. intros ? ? ? [= _ <- _]. eauto.
Qed.

Lemma sound_markCall dead s c f :
  (∀ u, callOf (f u) = callOf u) → sound dead s → sound dead (markCall c f s).
Proof.
  intros Hf [Hq Hc Hl Hd].
  assert (∀ u, u ∈ alter f c (calls s) →
               ∃ u0, u0 ∈ calls s ∧ callOf u = callOf u0) as Hin.
  { intros u (i & Hi)%list_elem_of_lookup.
    destruct (decide (c = i)) as [->|Hne].
    - rewrite list_lookup_alter_eq in Hi.
      destruct (calls s !! i) as [u0|] eqn:E; [|done]. injection Hi as <-.
      exists u0. split; [eapply list_elem_of_lookup_2; eauto | apply Hf].
    - rewrite list_lookup_alter_ne in Hi by done.
      exists u. split; [eapply list_elem_of_lookup_2; eauto | done]. }
  split; try done.
  - intros u Hu. destruct (Hin u Hu) as (u0 & Hu0 & ->). by apply Hc.
  - intros k a bytes Ha. destruct (Hl k a bytes Ha) as (u & (i & Hi)%list_elem_of_lookup & <-).
    destruct (decide (c = i)) as [->|Hne].
    + exists (f u). split; [|apply Hf].
      eapply list_elem_of_lookup_2. cbn. rewrite list_lookup_alter_eq, Hi. done.
    + exists u. split; [|done].
      eapply list_elem_of_lookup_2. cbn. rewrite list_lookup_alter_ne; eauto.
Qed.

Lemma in_markCall c f s u :
  calls s !! c = Some u → f u ∈ calls (markCall c f s).
Proof.
  intros Hu. eapply list_elem_of_lookup_2. cbn.
  rewrite list_lookup_alter_eq, Hu. done.
Qed.

Lemma sound_newCall dead s m k e :
  (m < nextMsg s)%nat → ¬ dead m → sound dead s →
  sound dead (set_calls (calls s ++ [newCall m k e]) s).
Proof.
  intros Hm Hdead [Hq Hc Hl Hd]. split; try done.
  - intros u [Hu| ->%list_elem_of_singleton]%elem_of_app; [by apply Hc|done].
  - intros k0 a bytes Ha. destruct (Hl _ _ _ Ha) as (u & Hu & <-).
    exists u. split; [|done]. apply elem_of_app. by left.
Qed.

Lemma sound_handleRequestQueueQ dead q s :
  (∀ x, x ∈ q → (msgId x < nextMsg s)%nat ∧ ¬ dead (msgId x)) →
  sound dead s → sound dead (handleRequestQueueQ q s).
Proof.
  revert s. induction q as [|msg q IH]; intros s Hq Hs;
    cbn [handleRequestQueueQ].
  - by destruct (processing s || socketGone s).
  - destruct (processing s || socketGone s); [done|]. cbn zeta.
    destruct (Hq msg) as [Hlt Hnd]; [by left|].
    assert (∀ x, x ∈ q → (msgId x < nextMsg s)%nat ∧ ¬ dead (msgId x)) as Hq'
      by (intros x Hx; apply Hq; by right).
    assert (sound dead (set_requestQueue q (set_processing false
                          (set_processing true s)))) as Hshift.
    { destruct Hs as [? Hc Hl Hd]. split; try done. }
    destruct (plan (payload msg)) as [|port host|secure url m hd body].
    + apply IH; [done|done].
    + apply (sound_newCall dead (emit _ (set_processing true s))); [done|done|].
      apply sound_quiet; [done|]. destruct Hs. by split.
    + cbn zeta.
      assert (sound dead
        (set_calls (calls (set_processing true s) ++
            [newCall (msgId msg) Http
               match body with Some None => false | _ => true end])
           (emit (ORequest (List.length (calls (set_processing true s)))
                    secure url m hd) (set_processing true s)))) as Hcall.
      { apply (sound_newCall dead (emit _ (set_processing true s)));
          [done|done|].
        apply sound_quiet; [done|]. destruct Hs. by split. }
      destruct body as [[data|]|].
      * apply sound_quiet; [done|]. apply sound_quiet; [done|]. exact Hcall.
      * apply IH; [done|]. destruct Hcall as [? Hc Hl Hd]. by split.
      * apply sound_quiet; [done|]. exact Hcall.
Qed.

Lemma sound_handleRequestQueue dead s :
  sound dead s → sound dead (handleRequestQueue s).
Proof.
  intros Hs. apply sound_handleRequestQueueQ; [apply Hs|done].
Qed.

Lemma sound_cleanupRequest dead s :
  sound dead s → sound dead (cleanupRequest s).
Proof.
  intros [Hq Hc Hl Hd]. apply sound_handleRequestQueue. split; try done.
  intros x Hx. apply Hq. cbn in Hx.
  destruct (requestQueue s); [inversion Hx | by right].
Qed.

Lemma sound_push dead s msg :
  sound dead s → sound dead (push msg s).
Proof.
  intros [Hq Hc Hl Hd]. split; cbn.
  - intros x [Hx| ->%list_elem_of_singleton]%elem_of_app.
    + destruct (Hq x Hx). split; [lia|done].
    + cbn. split; [lia|]. intros Hdead. apply Hd in Hdead. lia.
  - intros u Hu. destruct (Hc u Hu). split; [lia|done].
  - done.
  - intros m Hm. apply Hd in Hm. lia.
Qed.

Lemma sound_set_buffer dead s b : sound dead s → sound dead (set_buffer b s).
Proof. intros [? ? ? ?]. by split. Qed.

Lemma sound_onData dead s chunk : sound dead s → sound dead (onData chunk s).
Proof.
  intros Hs. rewrite onData_as_reader. apply sound_set_buffer.
  generalize (Framing.readerLoop (buffer s ++ chunk)).1 as msgs. intros msgs.
  revert s Hs. induction msgs as [|m msgs IH]; intros s Hs; [done|].
  cbn [foldl]. apply IH. unfold onFrame. destruct (negb (m.1 =? 0)); [done|].
  by apply sound_handleRequestQueue, sound_push.
Qed.

(** Every step of the relay keeps the state sound. *)
Lemma sound_step dead s ev s' :
  sound dead s → step s ev = Some s' → sound dead s'.
Proof.
  intros Hs Hstep. destruct ev; cbn [step] in Hstep;
    repeat case_match; try discriminate Hstep; injection Hstep as <-.
  - unfold handleClient. destruct (clientSocket s).
    + by apply sound_quiet.
    + destruct Hs. by split.
  - by apply sound_onData.
  - destruct Hs. by split.
  - destruct Hs as [? Hc Hl Hd]. split; try done. intros x Hx. inversion Hx.
  - unfold onResponseEnd. apply sound_cleanupRequest.
    match goal with Hu : calls s !! _ = Some ?u |- _ =>
      change (callOf u) with (callOf (cOver u));
      apply sound_sendFramedMessage;
        [exact (in_markCall _ _ _ _ Hu) | by apply sound_markCall] end.
  - unfold onRequestError. apply sound_cleanupRequest.
    match goal with Hu : calls s !! _ = Some ?u |- _ =>
      change (callOf u) with (callOf (cOver u));
      apply sound_sendFramedMessage;
        [exact (in_markCall _ _ _ _ Hu) | by apply sound_markCall] end.
  - unfold onRemoteConnect.
    match goal with Hu : calls s !! _ = Some ?u |- _ =>
      change (callOf u) with (callOf (cConnected u));
      apply sound_sendFramedMessage;
        [exact (in_markCall _ _ _ _ Hu) | by apply sound_markCall] end.
  - unfold onRemoteError. apply sound_cleanupRequest.
    match goal with Hu : calls s !! _ = Some ?u |- _ =>
      change (callOf u) with (callOf (cDestroyed u));
      apply sound_sendFramedMessage;
        [exact (in_markCall _ _ _ _ Hu) | by apply sound_markCall] end.
  - unfold onRemoteClose. apply sound_cleanupRequest. by apply sound_markCall.
Qed.

Lemma sound_run dead evs s s' :
  sound dead s → run s evs = Some s' → sound dead s'.
Proof.
  revert s. induction evs as [|ev evs IH]; intros s Hs; cbn [run].
  - by intros [= <-].
  - destruct (step s ev) as [s1|] eqn:E; [|done]. cbn.
    apply IH. eapply sound_step; eauto.
Qed.

End RelayFacts.

(** ** Timeouts *)

Section Timeouts.
Import JS Ship.
Context `{Platform}.

Lemma finished_of_headersSent e s : headersSent e s = false → finished e s = false.
Proof.
  unfold headersSent, finished. induction (log s) as [|o l IH]; [done|].
  cbn. intros [Ho Hl]%orb_false_elim. rewrite (IH Hl), orb_false_r.
  destruct o; try done.
Qed.

Lemma finished_after_writeHead e st hd s :
  headersSent e s = false → finished e (emit (OWriteHead e st hd) s) = false.
Proof. intros Hs. unfold finished. cbn. by apply finished_of_headersSent. Qed.


(** *** A request that waits for its response *)



(** The head request [cur] has its frame out; its call, the only one in
    progress, waits at line 131 with the timer [t], due at [due]; nothing
    has been written to its client. *)
Record waiting (cur t : nat) (due : Z) (s : State) : Prop := {
  w_head : head (queue s) = Some cur;
  w_processing : processing s = true;
  w_calls : invocations s = [{| current := cur; stage := AwaitResponse t |}];
  w_entry : ∃ ent, heap s !! cur = Some ent ∧ isConnect ent = false ∧
                   resolved ent = None;
  w_unanswered : headersSent cur s = false;
  w_timer : List.find (λ x, Nat.eqb (timerId x) t) (timers s)
            = Some {| timerId := t; deadline := due; action := Wake |};
  w_fresh : (t < nextId s)%nat;
  w_reconnect : reconnectTimer s ≠ Some t;
  w_now : now s <= due
}.




















End Timeouts.

(** ** Loss of the managed connection *)

Section ConnectionLoss.
Import JS Ship.
Context `{Platform}.

Lemma onClose_effect s :
  processing (onClose s) = false ∧ queue (onClose s) = queue s ∧
  heap (onClose s) = heap s ∧ invocations (onClose s) = invocations s ∧
  log (onClose s) = log s ∧ (∀ x, x ∈ timers s → x ∈ timers (onClose s)).
Proof.
  unfold onClose, scheduleReconnect. cbn.
  destruct (reconnectTimer s); cbn; repeat split; try done.
  intros x Hx. apply elem_of_app. by left.
Qed.

(** C8 (connection loss in mid-flight), as amended: in a state reached by
    the agent in which a frame has been written for request [cur] and its
    call waits for the response, the [close] handler of the socket clears
    [processing] and schedules a reconnect, and nothing else: the request
    stays in the queue, its call keeps waiting (so a type-1 frame that
    arrives later, also on a new connection, is still matched with it),
    its timer stays pending and nothing is written to its client.
    Whatever happens afterwards, on this or on a new connection, no
    further frame is written for [cur]. *)
Theorem no_resend_after_close
    (evs evs' : list Event) (s s' s'' : State) (k sock cur t : nat)
    (bytes : Buffer) :
  run initial evs = Some s →
  OSockWrite sock cur bytes ∈ log s →
  {| current := cur; stage := AwaitResponse t |} ∈ invocations s →
  step s (ESockClose k) = Some s' →
  run s' evs' = Some s'' →
  (processing s' = false ∧ queue s' = queue s ∧ heap s' = heap s ∧
   invocations s' = invocations s ∧ log s' = log s ∧
   ∀ x, x ∈ timers s → x ∈ timers s') ∧
  sends cur (log s'') = sends cur (log s).
Proof.
  intros Hrun Hsent Hwait Hclose Hrun'.
  pose proof (callsOk_run _ _ _ callsOk_initial Hrun) as Hok.
  pose proof (sentOk_run _ _ _ callsOk_initial sentOk_initial Hrun) as Hs.
  destruct (Hs _ cur Hsent eq_refl) as [Hend _].
  split.
  - cbn [step] in Hclose. destruct (isSocket k s) as [x|].
    + destruct (closed x); [done|]. injection Hclose as <-.
      apply (onClose_effect (markSocket setClosed s)).
    + destruct (bool_decide _); [|done]. injection Hclose as <-.
      apply (onClose_effect (set_closing _ s)).
  - apply (run_no_resend (ESockClose k :: evs') s s'' cur Hok Hend).
    cbn [run]. rewrite Hclose. exact Hrun'.
Qed.

End ConnectionLoss.

(** ** CONNECT requests *)

Section Tunnels.
Import JS Ship.
Context `{Platform}.

(** The CONNECT branch, lines 154-200, for a target with a valid port. *)
Lemma connect_opens_remote s cur q ent host port :
  processing s = false → queue s = cur :: q →
  heap s !! cur = Some ent → isConnect ent = true →
  connectTarget (req ent) = (host, port) → 0 <= port < 65536 →
  processingLoop s =
    set_tunnels (tunnels s ++
                   [{| tunnelOf := cur; remoteConnected := false;
                       remoteDestroyed := false; remoteClosed := false |}])
      (emit (ONetConnect cur port host) (set_processing true s)).
Proof.
  intros Hp Hq Hent Hc Ht Hport. unfold processingLoop. rewrite Hq.
  cbn [processingLoopQ]. rewrite Hp. cbn zeta.
  change (heap (set_processing true s)) with (heap s).
  rewrite Hent, Hc. cbn [negb]. rewrite Ht.
  replace ((0 <=? port) && (port <? 65536)) with true; [done|].
  symmetry. apply andb_true_iff. split; [apply Z.leb_le | apply Z.ltb_lt]; lia.
Qed.


(** Lines 192-198. *)
Lemma remote_closed s t u q :
  tunnels s !! t = Some u → remoteClosed u = false →
  queue s = tunnelOf u :: q →
  ∃ m, step s (ERemoteClose t) = Some (processingLoop m) ∧
       log m = OClientEnd (tunnelOf u) None :: log s ∧
       queue m = q ∧ processing m = false.
Proof.
  intros Hu Hc Hq. cbn [step]. rewrite Hu, Hc. unfold onRemoteClose, finish.
  eexists. split; [reflexivity|]. cbn. rewrite Hq. done.
Qed.





End Tunnels.

(** ** Outbound failures *)

Section OutboundFailure.
Import JS.
Context `{Platform}.

Lemma toString_Buffer_from str : toString (Buffer_from str) = str.
Proof. apply string_of_list_byte_of_string. Qed.



Lemma orElse_JStr b : Ship.orElse (Some (JStr b)) (JStr "") = JStr b.
Proof.
  unfold Ship.orElse, JS.or, truthy.
  destruct (String.eqb b "") eqn:E; cbn; [|done].
  apply String.eqb_eq in E. by subst.
Qed.


(** One call waits and its promise is resolved: it continues. *)
Lemma settle_single (s : Ship.State) i t payload :
  Ship.invocations s = [i] →
  Ship.ready s i = Some payload → Ship.timerOf i = Some t →
  Ship.settle s
  = Ship.respond (Ship.current i) (Some payload)
      (Ship.clearTimeout t (Ship.set_invocations [] s)).
Proof.
  intros Hinv Hready Ht. unfold Ship.settle. cbn zeta. rewrite Hinv.
  rewrite (filter_cons_True (λ i, is_Some (Ship.ready s i)))
    by (rewrite Hready; eauto).
  rewrite (filter_cons_False (λ i, ¬ is_Some (Ship.ready s i)))
    by (rewrite Hready; intros Hn; apply Hn; eauto).
  rewrite !filter_nil. cbn [foldl].
  change (Ship.ready (Ship.set_invocations [] s) i) with (Ship.ready s i).
  rewrite Hready, Ht. reflexivity.
Qed.

Lemma onMessage_resolves_head (s : Ship.State) cur q ent payload :
  Ship.queue s = cur :: q →
  Ship.heap s !! cur = Some ent → Ship.resolved ent = None →
  Ship.onMessage 1 payload s
  = Ship.set_heap
      (alter (Ship.setResolved (Some payload)) cur (Ship.heap s)) s.
Proof.
  intros Hq Hent Hres. unfold Ship.onMessage. cbn [Z.eqb Pos.eqb negb].
  rewrite Hq. f_equal.
  apply list_eq. intros i. destruct (decide (cur = i)) as [<-|Hne].
  - rewrite !list_lookup_alter_eq, Hent. cbn. by rewrite Hres.
  - by rewrite !list_lookup_alter_ne.
Qed.

(** A type-1 frame that arrives whole while one call waits for the
    response of the head request wakes that call with the payload. *)
Lemma ship_frame_wakes_head (s : Ship.State) k sock cur q t ent payload frame :
  Ship.offshoreSocket s = Some sock → Ship.sockId sock = k →
  Ship.connected sock = true → Ship.destroyed sock = false →
  Ship.readerBuffer s = [] →
  Ship.queue s = cur :: q →
  Ship.invocations s
    = [{| Ship.current := cur; Ship.stage := Ship.AwaitResponse t |}] →
  Ship.heap s !! cur = Some ent → Ship.resolved ent = None →
  Framing.sendMessage 1 payload = Some frame →
  Ship.step s (Ship.ESockData k frame) =
    Some (Ship.respond cur (Some payload)
            (Ship.clearTimeout t
               (Ship.set_invocations []
                  (Ship.set_heap
                     (alter (Ship.setResolved (Some payload)) cur (Ship.heap s))
                     (Ship.set_readerBuffer [] s))))).
Proof.
  intros Hsock Hk Hconn Halive Hbuf Hq Hinv Hent Hres Hframe.
  cbn [Ship.step]. unfold Ship.isSocket. rewrite Hsock, Hk, Nat.eqb_refl.
  rewrite Hconn, Halive. cbn [andb negb]. f_equal.
  unfold Ship.onSockData, Framing.onData. rewrite Hbuf. cbn [app].
  pose proof (readerLoop_frame 1 payload frame [] ltac:(lia) Hframe) as Hloop.
  rewrite app_nil_r, readerLoop_nil in Hloop. rewrite Hloop.
  cbn [fst snd foldl].
  rewrite (onMessage_resolves_head (Ship.set_readerBuffer [] s) cur q ent)
    by done.
  rewrite (settle_single _
             {| Ship.current := cur; Ship.stage := Ship.AwaitResponse t |}
             t payload); [reflexivity | exact Hinv | | reflexivity].
  unfold Ship.ready. cbn. rewrite list_lookup_alter_eq, Hent. reflexivity.
Qed.


End OutboundFailure.

(** ** Loss of the relay's connection *)

Section RelayClose.
Import JS Offshore.
Context `{Platform}.

(** C10, as amended (the relay's connection closes): the [close] handler
    sets [clientSocket] to null, clears [processing] and empties the
    queue.  For a queued message whose processing had not started, no
    outbound call is started afterwards and no frame is ever written about
    it.  (A call that was already under way is not cancelled: see
    [relay_answers_after_close].)  A connection accepted next starts with
    an empty queue and an empty read buffer. *)
Theorem relay_close_discards
    (evs evs' : list Event) (r r' r2 r'' : State) (k k2 : nat) (x : Msg) :
  run initial evs = Some r →
  x ∈ requestQueue r →
  (∀ u, u ∈ calls r → callOf u ≠ msgId x) →
  step r (ESockClose k) = Some r' →
  step r' (EAccept k2) = Some r2 →
  run r' evs' = Some r'' →
  (clientSocket r' = None ∧ processing r' = false ∧ requestQueue r' = []) ∧
  (clientSocket r2 = Some {| sockId := k2; destroyed := false |} ∧
   requestQueue r2 = [] ∧ buffer r2 = [] ∧ processing r2 = false) ∧
  (∀ y, y ∈ requestQueue r'' → msgId y ≠ msgId x) ∧
  (∀ u, u ∈ calls r'' → callOf u ≠ msgId x) ∧
  (∀ k0 bytes, OWrite k0 (msgId x) bytes ∉ log r'').
Proof.
  intros Hrun Hx Hcalls Hclose Haccept Hrun'.
  pose proof (sound_run _ _ _ _ sound_initial Hrun) as Hs.
  cbn [step] in Hclose. destruct (isSocket k r); [|done].
  injection Hclose as <-.
  split; [done|]. split.
  { cbn in Haccept. injection Haccept as <-. done. }
  assert (sound (λ m, m = msgId x) (onClose r)) as Hdead.
  { destruct Hs as [Hq Hc Hl Hd]. split; cbn.
    - intros y Hy. inversion Hy.
    - intros u Hu. split; [by apply Hc | by apply Hcalls].
    - exact Hl.
    - intros m ->. by apply Hq. }
  pose proof (sound_run _ _ _ _ Hdead Hrun') as [Hq Hc Hl _].
  split; [|split].
  - intros y Hy Heq. by apply (Hq y Hy).
  - intros u Hu Heq. by apply (Hc u Hu).
  - intros k0 bytes Hin. destruct (Hl _ _ _ Hin) as (u & Hu & Heq).
    by apply (Hc u Hu).
Qed.

End RelayClose.

(** * Concrete runs *)

Section Runs.
Import JS Reference.

Definition shipAfter (evs : list Ship.Event) : Ship.State :=
  default Ship.initial (Ship.run Ship.initial evs).

Definition shoreAfter (evs : list Offshore.Event) : Offshore.State :=
  default Offshore.initial (Offshore.run Offshore.initial evs).

Definition linkAfter (evs : list Link.Event) : Link.System :=
  default Link.initial (Link.run Link.initial evs).

(** A CONNECT request and two GET requests, as the proxy server receives
    them. *)
Definition reqX : Ship.IncomingMessage :=
  {| Ship.method := "CONNECT"; Ship.url := "secure.example:8443";
     Ship.headers := [("host", "secure.example:8443")]%string |}.

Definition reqB : Ship.IncomingMessage :=
  {| Ship.method := "GET"; Ship.url := "http://b.example/";
     Ship.headers := [("host", "b.example")]%string |}.

Definition reqC : Ship.IncomingMessage :=
  {| Ship.method := "GET"; Ship.url := "http://c.example/";
     Ship.headers := [("host", "c.example")]%string |}.

(** The entries for which a frame was written, oldest first. *)
Definition framesFor (s : Ship.State) : list nat :=
  omap isSend (Ship.trace s).

(** The bodies handed to clients with [res.end], oldest first. *)
Definition delivered (s : Ship.State) : list (nat * string) :=
  omap (λ o, match o with
             | Ship.OEnd e data => Some (e, toString data)
             | _ => None
             end) (Ship.trace s).

(** The target of each outbound request of the relay, with the message it
    was made for. *)
Definition requested (r : Offshore.State) : list (nat * string) :=
  omap (λ o, match o with
             | Offshore.ORequest c _ requestUrl _ _ =>
                 m ← Offshore.callOf <$> Offshore.calls r !! c;
                 Some (m, requestUrl)
             | _ => None
             end) (Offshore.trace r).

(** The frames the relay wrote: socket, message answered, type and payload. *)
Definition answers (r : Offshore.State) : list (nat * nat * list (Z * string)) :=
  omap (λ o, match o with
             | Offshore.OWrite k a bytes =>
                 Some (k, a, (λ m, (m.1, toString m.2))
                               <$> (Framing.onData [] bytes).1)
             | _ => None
             end) (Offshore.trace r).

(** The tunnel of [reqX] is torn down by its client while two requests
    wait behind it. *)
Definition tunnelTornDown : list Ship.Event :=
  [Ship.EListening; Ship.ESockConnect 0;
   Ship.EConnectRequest reqX; Ship.EHttpRequest reqB; Ship.EHttpRequest reqC;
   Ship.ERemoteConnect 0;
   Ship.EClientClose 0;   (* line 184: destroys remote, shifts, starts B *)
   Ship.EBodyEnd 1;       (* the frame of B is written *)
   Ship.ERemoteClose 0;   (* line 192: shifts again, starts C *)
   Ship.EBodyEnd 2].      (* the frame of C is written *)

(** The frame the agent writes for a request without body. *)
Definition frameOf (r : Ship.IncomingMessage) : Buffer :=
  default []
    (Framing.sendMessage 0
       (Buffer_from (stringify (Ship.requestPayload r (encode64 []))))).

(** *** One GET request, from its arrival to its timeout *)

Definition arrivedB : list Ship.Event :=
  [Ship.EListening; Ship.ESockConnect 0; Ship.EHttpRequest reqB].

Definition entryB (f : Ship.Flow) : Ship.Entry :=
  {| Ship.req := reqB; Ship.isConnect := false; Ship.resolved := None;
     Ship.reqFlow := f; Ship.clientClosed := false |}.

Definition socket0 : Ship.Socket :=
  {| Ship.sockId := 0; Ship.connected := true; Ship.destroyed := false;
     Ship.closed := false |}.

(** *** A tunnel *)

Definition arrivedX : list Ship.Event :=
  [Ship.EListening; Ship.ESockConnect 0].

Definition entryX : Ship.Entry :=
  {| Ship.req := reqX; Ship.isConnect := true; Ship.resolved := None;
     Ship.reqFlow := Ship.Paused; Ship.clientClosed := false |}.

(** *** The relay *)

Definition twoQueued : list Offshore.Event :=
  [Offshore.EAccept 0; Offshore.EData 0 (frameOf reqB);
   Offshore.EData 0 (frameOf reqC)].

Definition msgOf (n : nat) (r : Ship.IncomingMessage) : Offshore.Msg :=
  {| Offshore.msgId := n; Offshore.payload := drop 5 (frameOf r) |}.

End Runs.

(** ** The laws at concrete inputs *)

Section Witnesses.
Import JS Reference.

Definition oddFrame : Buffer :=
  [Byte.x00; Byte.x00; Byte.x00; Byte.x02; Byte.x07; Byte.x01; Byte.x02].

Definition pongFrame : Buffer :=
  default []
    (Framing.sendMessage 1
       (Offshore.responseMsg 200 (JObj []) (Buffer_from "pong"))).

Definition acceptedRelay : Offshore.State := shoreAfter [Offshore.EAccept 0].

Definition inFlightB : Ship.State := shipAfter (arrivedB ++ [Ship.EBodyEnd 0]).

Lemma fragmentation_invariance_witness :
  let chunks := [[Byte.x00; Byte.x00]; [Byte.x00; Byte.x02; Byte.x00; Byte.x68];
                 [Byte.x69; Byte.x00]] in
  let buffer := [Byte.x00; Byte.x00; Byte.x00; Byte.x02; Byte.x00] in
  let chunk := [Byte.x68] in
  Framing.feed [] chunks = Framing.feed [] [concat chunks] ∧
  foldl (λ s chunk, Offshore.onData chunk s) acceptedRelay chunks
    = Offshore.onData (concat chunks) acceptedRelay ∧
  Framing.onData buffer chunk = ([], buffer ++ chunk) ∧
  Offshore.onData chunk (Offshore.set_buffer buffer acceptedRelay)
    = Offshore.set_buffer (buffer ++ chunk) acceptedRelay.
Proof.
  intros chunks buffer chunk.
  apply (fragmentation_invariance chunks acceptedRelay buffer chunk).
  - reflexivity.
  - right. exists 2. split; [reflexivity | vm_compute; reflexivity].
Defined.

Lemma unknown_type_skipped_witness :
  Framing.readerLoop (oddFrame ++ pongFrame)
    = ((7, [Byte.x01; Byte.x02]) :: (Framing.readerLoop pongFrame).1,
       (Framing.readerLoop pongFrame).2) ∧
  Offshore.onData (frameOf reqB ++ oddFrame ++ pongFrame) acceptedRelay
    = Offshore.onData (frameOf reqB ++ pongFrame) acceptedRelay ∧
  Ship.onSockData (frameOf reqB ++ oddFrame ++ pongFrame) inFlightB
    = Ship.onSockData (frameOf reqB ++ pongFrame) inFlightB.
Proof.
  apply (unknown_type_skipped 7 [Byte.x01; Byte.x02] oddFrame (frameOf reqB)
           pongFrame acceptedRelay inFlightB).
  - lia.
  - lia.
  - lia.
  - reflexivity.
  - vm_compute. reflexivity.
  - vm_compute. reflexivity.
Defined.

Definition waitingB : Ship.State := shipAfter arrivedB.




Definition enotfound : string := "getaddrinfo ENOTFOUND bad.invalid".


Definition callB : Offshore.Call :=
  {| Offshore.callOf := 0; Offshore.kind := Offshore.Http;
     Offshore.ended := true; Offshore.remoteConnected := false;
     Offshore.remoteDestroyed := false; Offshore.over := false |}.

Definition relaySocket0 : Offshore.Socket :=
  {| Offshore.sockId := 0; Offshore.destroyed := false |}.


(** The connection drops while the request of [reqB] is in flight; the
    agent reconnects, another request arrives, and the first one times
    out. *)
Definition afterLoss : list Ship.Event :=
  [Ship.EAdvance 5000; Ship.ETimer 2; Ship.ESockConnect 3;
   Ship.EHttpRequest reqC; Ship.EAdvance 15000; Ship.ETimer 1].

Definition lostB : Ship.State :=
  shipAfter (arrivedB ++ [Ship.EBodyEnd 0; Ship.ESockClose 0]).

Definition recoveredB : Ship.State :=
  shipAfter (arrivedB ++ [Ship.EBodyEnd 0; Ship.ESockClose 0] ++ afterLoss).

Lemma no_resend_after_close_witness :
  (Ship.processing lostB = false ∧ Ship.queue lostB = Ship.queue inFlightB ∧
   Ship.heap lostB = Ship.heap inFlightB ∧
   Ship.invocations lostB = Ship.invocations inFlightB ∧
   Ship.log lostB = Ship.log inFlightB ∧
   ∀ x, x ∈ Ship.timers inFlightB → x ∈ Ship.timers lostB) ∧
  sends 0 (Ship.log recoveredB) = sends 0 (Ship.log inFlightB).
Proof.
  apply (no_resend_after_close (arrivedB ++ [Ship.EBodyEnd 0]) afterLoss
           inFlightB lostB recoveredB 0 0 0 1 (frameOf reqB)).
  - vm_compute. reflexivity.
  - vm_compute. apply list_elem_of_here.
  - vm_compute. apply list_elem_of_here.
  - vm_compute. reflexivity.
  - vm_compute. reflexivity.
Defined.

(** A CONNECT request at the head of the queue, as [enqueueRequest] leaves
    it before it calls [processingLoop], with the request of [reqB] behind
    it. *)
Definition queuedX : Ship.State :=
  Ship.set_queue [0%nat; 1%nat]
    (Ship.set_heap [entryX; entryB Ship.Paused] (shipAfter arrivedX)).


Definition closedRelay : Offshore.State :=
  shoreAfter (twoQueued ++ [Offshore.ESockClose 0]).

Definition lateResponse : list Offshore.Event :=
  [Offshore.EAccept 1;
   Offshore.EResponse 0 200 (JObj []) (Buffer_from "late")].

Definition lateRelay : Offshore.State :=
  shoreAfter (twoQueued ++ Offshore.ESockClose 0 :: lateResponse).

Lemma relay_close_discards_witness :
  (Offshore.clientSocket closedRelay = None ∧
   Offshore.processing closedRelay = false ∧
   Offshore.requestQueue closedRelay = []) ∧
  (Offshore.clientSocket (shoreAfter (twoQueued ++ [Offshore.ESockClose 0;
                                                     Offshore.EAccept 1]))
     = Some {| Offshore.sockId := 1; Offshore.destroyed := false |} ∧
   Offshore.requestQueue (shoreAfter (twoQueued ++ [Offshore.ESockClose 0;
                                                     Offshore.EAccept 1])) = [] ∧
   Offshore.buffer (shoreAfter (twoQueued ++ [Offshore.ESockClose 0;
                                               Offshore.EAccept 1])) = [] ∧
   Offshore.processing (shoreAfter (twoQueued ++ [Offshore.ESockClose 0;
                                                   Offshore.EAccept 1]))
     = false) ∧
  (∀ y, y ∈ Offshore.requestQueue lateRelay →
        Offshore.msgId y ≠ Offshore.msgId (msgOf 1 reqC)) ∧
  (∀ u, u ∈ Offshore.calls lateRelay →
        Offshore.callOf u ≠ Offshore.msgId (msgOf 1 reqC)) ∧
  (∀ k0 bytes,
     Offshore.OWrite k0 (Offshore.msgId (msgOf 1 reqC)) bytes
       ∉ Offshore.log lateRelay).
Proof.
  apply (relay_close_discards twoQueued lateResponse (shoreAfter twoQueued)
           closedRelay
           (shoreAfter (twoQueued ++ [Offshore.ESockClose 0; Offshore.EAccept 1]))
           lateRelay 0 1 (msgOf 1 reqC)).
  - vm_compute. reflexivity.
  - vm_compute. apply list_elem_of_further, list_elem_of_here.
  - intros u Hu. vm_compute in Hu.
    apply list_elem_of_singleton in Hu. subst u. vm_compute. discriminate.
  - vm_compute. reflexivity.
  - vm_compute. reflexivity.
  - vm_compute. reflexivity.
Defined.

End Witnesses.

(** ** Runs on which the agent and the relay leave their discipline *)

Section Defects.
Import JS Reference.

(** C1 (one request in flight) does not hold on the run [tunnelTornDown].
    The client of a tunnel closes its socket: the handler of line 184
    destroys the remote socket, shifts the queue and starts the request of
    [reqB], whose frame is written.  The [close] event of the destroyed
    remote socket follows: the handler of line 192 shifts the queue
    again, which removes the request in flight, and starts the request of
    [reqC], whose frame is written too.  Two frames have gone out on
    socket 0, both calls wait for a response, and nothing has been
    written to the client of the first request. *)
Theorem two_requests_in_flight :
  is_Some (Ship.run Ship.initial tunnelTornDown) ∧
  framesFor (shipAfter tunnelTornDown) = [1; 2]%nat ∧
  Ship.invocations (shipAfter tunnelTornDown)
    = [{| Ship.current := 1; Ship.stage := Ship.AwaitResponse 1 |};
       {| Ship.current := 2; Ship.stage := Ship.AwaitResponse 2 |}] ∧
  Ship.headersSent 1 (shipAfter tunnelTornDown) = false ∧
  Ship.queue (shipAfter tunnelTornDown) = [2%nat].
Proof.
  split; [vm_compute; eauto|]. repeat split; vm_compute; reflexivity.
Qed.

(** The same discipline is left in a second way.  The managed connection
    closes while the call of a request still reads the request body: the
    [close] handler clears [processing], and the [connect] handler of the
    next socket starts a second call on the same head entry.  When the
    body ends both calls write a frame for it. *)
Definition reqP : Ship.IncomingMessage :=
  {| Ship.method := "POST"; Ship.url := "http://p.example/upload";
     Ship.headers := [("host", "p.example")]%string |}.

Definition reconnectWhileReading : list Ship.Event :=
  [Ship.EListening; Ship.ESockConnect 0; Ship.EHttpRequest reqP;
   Ship.EBodyData 0 (Buffer_from "ab");
   Ship.ESockClose 0; Ship.EAdvance 5000; Ship.ETimer 1; Ship.ESockConnect 2;
   Ship.EBodyData 0 (Buffer_from "cd"); Ship.EBodyEnd 0].

Lemma frame_written_twice :
  is_Some (Ship.run Ship.initial reconnectWhileReading) ∧
  framesFor (shipAfter reconnectWhileReading) = [0; 0]%nat ∧
  Ship.headersSent 0 (shipAfter reconnectWhileReading) = false.
Proof.
  split; [vm_compute; eauto|]. repeat split; vm_compute; reflexivity.
Qed.

(** The run [tunnelTornDown] with the relay at the other end of socket 0:
    both frames reach the relay, which takes them in arrival order and
    answers the first. *)
Definition misdelivery : list Link.Event :=
  [Link.Local Ship.EListening; Link.Remote (Offshore.EAccept 0);
   Link.Local (Ship.ESockConnect 0);
   Link.Local (Ship.EConnectRequest reqX);
   Link.Local (Ship.EHttpRequest reqB);
   Link.Local (Ship.EHttpRequest reqC);
   Link.Local (Ship.ERemoteConnect 0);
   Link.Local (Ship.EClientClose 0);
   Link.Local (Ship.EBodyEnd 1);
   Link.Local (Ship.ERemoteClose 0);
   Link.Local (Ship.EBodyEnd 2);
   Link.ToShore; Link.ToShore;
   Link.Remote (Offshore.EResponse 0 200 (JObj [])
                  (Buffer_from "answer for b"));
   Link.ToShip].

(** C2 (FIFO correlation) does not hold on the run [misdelivery].  The
    relay makes its outbound requests in arrival order, first for
    [b.example] (message 0), then for [c.example], and answers message 0.
    At the agent the second shift of the tunnel's teardown has removed
    the request of [reqB] from the queue, so the head is the request of
    [reqC] (entry 2), and the answer for [b.example] is written to its
    client; the client of [reqB] (entry 1) has received nothing. *)
Theorem response_reaches_wrong_client :
  is_Some (Link.run Link.initial misdelivery) ∧
  Ship.url <$> (Ship.req <$> Ship.heap (Link.ship (linkAfter misdelivery)))
    = ["secure.example:8443"; "http://b.example/"; "http://c.example/"]%string ∧
  requested (Link.shore (linkAfter misdelivery))
    = [(0%nat, "http://b.example/"%string);
       (1%nat, "http://c.example/"%string)] ∧
  answers (Link.shore (linkAfter misdelivery))
    = [(0%nat, 0%nat,
        [(1, toString (Offshore.responseMsg 200 (JObj [])
                         (Buffer_from "answer for b")))])] ∧
  delivered (Link.ship (linkAfter misdelivery))
    = [(2%nat, "answer for b"%string)] ∧
  Ship.headersSent 1 (Link.ship (linkAfter misdelivery)) = false.
Proof.
  split; [vm_compute; eauto|]. repeat split; vm_compute; reflexivity.
Qed.

(** The statement of C8 before its amendment, in its first half: once the
    managed connection has closed with the request [cur] in flight, the
    match of [cur] with a response is void and [cur] is left to its
    timeout, so the only status line its client can still receive is the
    504 of the timeout. *)
Definition leftToItsTimeout : Prop :=
  ∀ (evs evs' : list Ship.Event) (s s' s'' : Ship.State) (sock cur t : nat)
    (bytes : Buffer),
    Ship.run Ship.initial evs = Some s →
    Ship.OSockWrite sock cur bytes ∈ Ship.log s →
    {| Ship.current := cur; Ship.stage := Ship.AwaitResponse t |}
      ∈ Ship.invocations s →
    Ship.step s (Ship.ESockClose sock) = Some s' →
    Ship.run s' evs' = Some s'' →
    ∀ status hd, Ship.OWriteHead cur status hd ∈ Ship.log s'' →
                 status = JNum 504.

(** The connection closes, on both sides, while the relay's outbound call
    for the request of [reqB] is under way.  The agent reconnects after
    [RECONNECT_MS], the relay accepts the new connection, and the call
    completes: the relay frames the response to the new connection (the
    run of C10), and the agent hands it to the head of its queue, which
    is still the request of [reqB]. *)
Definition lostAndFound : list Link.Event :=
  [Link.Local Ship.EListening; Link.Remote (Offshore.EAccept 0);
   Link.Local (Ship.ESockConnect 0);
   Link.Local (Ship.EHttpRequest reqB);
   Link.Local (Ship.EBodyEnd 0);
   Link.ToShore;
   Link.Local (Ship.ESockClose 0); Link.Remote (Offshore.ESockClose 0);
   Link.Local (Ship.EAdvance 5000); Link.Local (Ship.ETimer 2);
   Link.Remote (Offshore.EAccept 3); Link.Local (Ship.ESockConnect 3);
   Link.Remote (Offshore.EResponse 0 200 (JObj [])
                  (Buffer_from "late answer"));
   Link.ToShip].

Definition lateFrame : Buffer :=
  default []
    (Framing.sendMessage 1
       (Offshore.responseMsg 200 (JObj []) (Buffer_from "late answer"))).

(** The same run as the agent sees it after the close. *)
Definition foundAgain : list Ship.Event :=
  [Ship.EAdvance 5000; Ship.ETimer 2; Ship.ESockConnect 3;
   Ship.ESockData 3 lateFrame].

(** After the close another request arrives while the relay cannot be
    reached: [enqueueRequest] finds [processing] cleared and calls
    [processingLoop], which takes the head of the queue, still the
    request of [reqB], opens a socket, and 200 ms later, the socket having
    failed, answers the head request with status 502 (lines 102-109). *)
Definition unreachable : list Ship.Event :=
  [Ship.EHttpRequest reqC; Ship.ESockError 3; Ship.EAdvance 200;
   Ship.ETimer 4].

(** C8, as stated, does not hold on the run [lostAndFound]: the request
    that was in flight when the connection closed is not left to its
    timeout, and its match with a response is not void.  The frame that
    arrives on the new connection, 5000 ms after the close and 15000 ms
    before the timeout, is matched with it, and its client receives
    status 200 and the body of the response.  On the run [unreachable]
    the same request is answered with status 502, 200 ms after the next
    request has arrived. *)
Lemma lost_request_answered :
  is_Some (Link.run Link.initial lostAndFound) ∧
  answers (Link.shore (linkAfter lostAndFound))
    = [(3%nat, 0%nat, (λ m, (m.1, toString m.2))
                        <$> (Framing.onData [] lateFrame).1)] ∧
  Ship.run lostB foundAgain = Some (Link.ship (linkAfter lostAndFound)) ∧
  framesFor (Link.ship (linkAfter lostAndFound)) = [0%nat] ∧
  delivered (Link.ship (linkAfter lostAndFound))
    = [(0%nat, "late answer"%string)] ∧
  (delivered <$> Ship.run lostB unreachable)
    = Some [(0%nat, "Bad Gateway: offshore unavailable"%string)] ∧
  ¬ leftToItsTimeout.
Proof.
  split; [vm_compute; eauto|].
  do 5 (split; [vm_compute; reflexivity|]).
  intros Hclaim.
  assert (JNum 200 = JNum 504) as Heq; [|discriminate Heq].
  refine (Hclaim (arrivedB ++ [Ship.EBodyEnd 0]) foundAgain inFlightB lostB
            (Link.ship (linkAfter lostAndFound)) 0%nat 0%nat 1%nat
            (frameOf reqB) _ _ _ _ _ (JNum 200) (Some (JObj [])) _).
  - vm_compute. reflexivity.
  - vm_compute. apply list_elem_of_here.
  - vm_compute. apply list_elem_of_here.
  - vm_compute. reflexivity.
  - vm_compute. reflexivity.
  - vm_compute. apply list_elem_of_further, list_elem_of_here.
Qed.







(** The statement of C10 before its amendment: after the connection has
    closed, no frame is ever written about a message that was in the
    queue. *)
Definition discardsSilently : Prop :=
  ∀ (evs evs' : list Offshore.Event) (r r' r'' : Offshore.State)
    (k : nat) (x : Offshore.Msg),
    Offshore.run Offshore.initial evs = Some r →
    x ∈ Offshore.requestQueue r →
    Offshore.step r (Offshore.ESockClose k) = Some r' →
    Offshore.run r' evs' = Some r'' →
    ∀ k0 bytes,
      Offshore.OWrite k0 (Offshore.msgId x) bytes ∉ Offshore.log r''.

(** Two requests are queued at the relay and the outbound call of the
    first is under way when the connection closes.  A new connection is
    accepted, the call completes, and its response is written to the new
    connection as a type-1 frame. *)
Lemma relay_answers_after_close :
  Offshore.requestQueue (shoreAfter twoQueued)
    = [msgOf 0 reqB; msgOf 1 reqC] ∧
  Offshore.run (shoreAfter twoQueued)
    (Offshore.ESockClose 0 :: lateResponse) = Some lateRelay ∧
  answers lateRelay
    = [(1%nat, 0%nat,
        [(1, toString (Offshore.responseMsg 200 (JObj [])
                         (Buffer_from "late")))])] ∧
  ¬ discardsSilently.
Proof.
  split; [vm_compute; reflexivity|].
  split; [vm_compute; reflexivity|].
  split; [vm_compute; reflexivity|].
  intros Hclaim.
  refine (Hclaim twoQueued lateResponse (shoreAfter twoQueued) closedRelay
            lateRelay 0%nat (msgOf 0 reqB) _ _ _ _ 1%nat
            (default [] (Framing.sendMessage 1
               (Offshore.responseMsg 200 (JObj []) (Buffer_from "late")))) _).
  - vm_compute. reflexivity.
  - vm_compute. apply list_elem_of_here.
  - vm_compute. reflexivity.
  - vm_compute. reflexivity.
  - vm_compute. apply list_elem_of_here.
Qed.

End Defects.

(** * Further properties of the two programs *)

(** ** The codec on whole streams *)

Section CodecStreams.
Import Framing.

(** The bytes a socket receives when [sendMessage] is called for each
    message in turn; [None] when one of the calls throws. *)
Fixpoint sendAll (msgs : list Message) : option Buffer :=
  match msgs with
  | [] => Some []
  | m :: msgs' =>
      frame ← sendMessage m.1 m.2;
      rest ← sendAll msgs';
      Some (frame ++ rest)
  end.

(** A message [sendMessage] can frame without loss: its type is a byte
    and its length fits the length field. *)
Definition framable (m : Message) : Prop :=
  0 <= m.1 < 256 ∧ Z.of_nat (List.length m.2) < 2 ^ 32.

Lemma sendAll_total msgs :
  Forall framable msgs → ∃ bytes, sendAll msgs = Some bytes.
Proof.
  induction 1 as [|m msgs [_ Hlen] _ [bytes IH]]; cbn [sendAll]; [eauto|].
  destruct (sendMessage_total m.1 m.2 Hlen) as (header & _ & ->).
  rewrite IH. cbn. eauto.
Qed.

Lemma readerLoop_sendAll msgs bytes :
  Forall framable msgs → sendAll msgs = Some bytes →
  readerLoop bytes = (msgs, []).
Proof.
  intros Hall. revert bytes.
  induction Hall as [|m msgs [Hty _] _ IH]; intros bytes; cbn [sendAll].
  - intros [= <-]. apply readerLoop_nil.
  - destruct (sendMessage m.1 m.2) as [frame|] eqn:Hframe; [|done].
    destruct (sendAll msgs) as [rest|]; [|done]. cbn. intros [= <-].
    rewrite (readerLoop_frame _ _ _ rest Hty Hframe), (IH rest eq_refl).
    by destruct m.
Qed.

(** X1 (stream round trip):
    messages framed one after the other and delivered in chunks cut
    anywhere are handed over by the reader exactly as they were sent, in
    order, and no byte stays buffered. *)
Theorem stream_round_trip (msgs : list Message) :
  Forall framable msgs →
  ∃ bytes, sendAll msgs = Some bytes ∧
           ∀ chunks, concat chunks = bytes → feed [] chunks = (msgs, []).
Proof.
  intros Hall. destruct (sendAll_total msgs Hall) as [bytes Hbytes].
  exists bytes. split; [exact Hbytes|]. intros chunks <-.
  rewrite feed_concat by reflexivity. cbn [app].
  by apply readerLoop_sendAll.
Qed.

Lemma stream_round_trip_witness :
  ∃ bytes,
    sendAll [(0, [Byte.x68; Byte.x69]); (7, []); (1, [Byte.x21])]
      = Some bytes ∧
    ∀ chunks, concat chunks = bytes →
      feed [] chunks
        = ([(0, [Byte.x68; Byte.x69]); (7, []); (1, [Byte.x21])], []).
Proof.
  apply (stream_round_trip
           [(0, [Byte.x68; Byte.x69]); (7, []); (1, [Byte.x21])]).
  repeat constructor; cbn; lia.
Defined.

(** *** From bytes back to frames *)

Lemma write_read_UInt32BE b0 b1 b2 b3 rest n :
  readUInt32BE (b0 :: b1 :: b2 :: b3 :: rest) = Some n →
  writeUInt32BE n = Some [b0; b1; b2; b3].
Proof.
  cbn. intros [= <-].
  pose proof (byteZ_range b0) as H0. pose proof (byteZ_range b1) as H1.
  pose proof (byteZ_range b2) as H2. pose proof (byteZ_range b3) as H3.
  set (n := byteZ b0 * 2 ^ 24 + byteZ b1 * 2 ^ 16 + byteZ b2 * 2 ^ 8 + byteZ b3).
  assert (0 <= n <= 4294967295) as Hn by (subst n; lia).
  unfold writeUInt32BE.
  replace (0 <=? n) with true by (symmetry; apply Z.leb_le; lia).
  replace (n <=? 4294967295) with true by (symmetry; apply Z.leb_le; lia).
  cbn [andb]. rewrite !Z.shiftr_div_pow2 by lia.
  assert (n / 2 ^ 24 = byteZ b0) as ->.
  { symmetry. apply (Z.div_unique n (2 ^ 24) (byteZ b0)
      (byteZ b1 * 2 ^ 16 + byteZ b2 * 2 ^ 8 + byteZ b3)); subst n; lia. }
  assert (toByte (n / 2 ^ 16) = b1) as ->.
  { rewrite <- (toByte_byteZ b1). unfold toByte. do 3 f_equal.
    assert (n / 2 ^ 16 = byteZ b0 * 256 + byteZ b1) as ->.
    { symmetry. apply (Z.div_unique n (2 ^ 16) _
        (byteZ b2 * 2 ^ 8 + byteZ b3)); subst n; lia. }
    rewrite Z.add_comm, Z.mod_add by lia. reflexivity. }
  assert (toByte (n / 2 ^ 8) = b2) as ->.
  { rewrite <- (toByte_byteZ b2). unfold toByte. do 3 f_equal.
    assert (n / 2 ^ 8 = (byteZ b0 * 2 ^ 8 + byteZ b1) * 256 + byteZ b2) as ->.
    { symmetry. apply (Z.div_unique n (2 ^ 8) _ (byteZ b3)); subst n; lia. }
    rewrite Z.add_comm, Z.mod_add by lia. reflexivity. }
  assert (toByte n = b3) as ->.
  { rewrite <- (toByte_byteZ b3). unfold toByte. do 3 f_equal.
    replace n with (byteZ b3 + (byteZ b0 * 2 ^ 16 + byteZ b1 * 2 ^ 8 + byteZ b2) * 256)
      by (subst n; lia).
    rewrite Z.mod_add by lia. reflexivity. }
  by rewrite toByte_byteZ.
Qed.

(** What the loop takes out of a buffer is a frame as [sendMessage]
    writes it, and the buffer is that frame followed by what is left. *)
Lemma nextFrame_is_frame buffer msgType payload rest :
  nextFrame buffer = Some (msgType, payload, rest) →
  0 <= msgType < 256 ∧ Z.of_nat (List.length payload) < 2 ^ 32 ∧
  ∃ frame, sendMessage msgType payload = Some frame ∧ buffer = frame ++ rest.
Proof.
  unfold nextFrame. intros Hnext.
  destruct (5 <=? Z.of_nat (List.length buffer)) eqn:E5; [|done].
  destruct (readUInt32BE buffer) as [n|] eqn:En; [|done]. cbn in Hnext.
  destruct (n + 5 <=? Z.of_nat (List.length buffer)) eqn:E; [|done].
  apply Z.leb_le in E.
  pose proof (readUInt32BE_nonneg _ _ En) as Hn0.
  destruct buffer as [|b0 [|b1 [|b2 [|b3 [|b4 body]]]]]; try done.
  cbn in Hnext. injection Hnext as <- <- <-.
  pose proof (write_read_UInt32BE _ _ _ _ _ _ En) as Hw.
  assert (n <= 4294967295) as Hmax.
  { unfold writeUInt32BE in Hw. destruct (0 <=? n); [|done].
    destruct (n <=? 4294967295) eqn:Em; [|done]. by apply Z.leb_le. }
  cbn [List.length] in E.
  assert (slice 5 (5 + n) (b0 :: b1 :: b2 :: b3 :: b4 :: body)
          = take (Z.to_nat n) body) as Hpayload.
  { unfold slice. replace (5 + n - 5) with n by lia. reflexivity. }
  assert (drop (Z.to_nat (5 + n)) (b0 :: b1 :: b2 :: b3 :: b4 :: body)
          = drop (Z.to_nat n) body) as Hrest.
  { replace (Z.to_nat (5 + n)) with (5 + Z.to_nat n)%nat by lia. reflexivity. }
  rewrite Hpayload, Hrest.
  assert (List.length (take (Z.to_nat n) body) = Z.to_nat n) as Hlen
    by (rewrite length_take; lia).
  split; [apply byteZ_range|]. split; [rewrite Hlen; lia|].
  unfold sendMessage. rewrite Hlen, Z2Nat.id by lia. rewrite Hw. cbn.
  eexists. split; [reflexivity|].
  rewrite toByte_byteZ. cbn. by rewrite take_drop.
Qed.

Lemma nextFrame_None_incomplete buffer :
  nextFrame buffer = None → incomplete buffer.
Proof.
  unfold nextFrame, incomplete.
  destruct (5 <=? Z.of_nat (List.length buffer)) eqn:E5.
  - destruct buffer as [|b0 [|b1 [|b2 [|b3 [|b4 body]]]]];
      try (apply Z.leb_le in E5; cbn in E5; lia).
    cbn [readUInt32BE mbind option_bind].
    set (n := byteZ b0 * 2 ^ 24 + _ + _ + _).
    destruct (n + 5 <=? _) eqn:E; [done|]. apply Z.leb_gt in E.
    intros _. right. exists n. split; [reflexivity | exact E].
  - apply Z.leb_gt in E5. intros _. by left.
Qed.

(** X2 (no byte lost):
    the reader accounts for every byte it is given: the messages it hands
    over, framed again by [sendMessage], followed by the bytes it keeps,
    are the buffer it started from; every message it hands over has a
    byte as type and a length that fits the length field; and what it
    keeps is short of a whole frame. *)
Theorem reader_keeps_every_byte (buffer : Buffer) :
  Forall framable (readerLoop buffer).1 ∧
  (∃ bytes, sendAll (readerLoop buffer).1 = Some bytes ∧
            buffer = bytes ++ (readerLoop buffer).2) ∧
  incomplete (readerLoop buffer).2.
Proof.
  split; [|split].
  - remember (List.length buffer) as n eqn:Hn. revert buffer Hn.
    induction n as [n IH] using lt_wf_ind. intros buffer ->.
    rewrite (readerLoop_eq buffer).
    destruct (nextFrame buffer) as [[[msgType payload] rest]|] eqn:Enext;
      [|constructor].
    cbn [fst]. constructor.
    + destruct (nextFrame_is_frame _ _ _ _ Enext) as (? & ? & _). by split.
    + eapply IH; [|reflexivity]. eapply nextFrame_shorter; eauto.
  - remember (List.length buffer) as n eqn:Hn. revert buffer Hn.
    induction n as [n IH] using lt_wf_ind. intros buffer ->.
    rewrite (readerLoop_eq buffer).
    destruct (nextFrame buffer) as [[[msgType payload] rest]|] eqn:Enext.
    + cbn [fst snd sendAll].
      destruct (nextFrame_is_frame _ _ _ _ Enext)
        as (_ & _ & frame & -> & ->).
      destruct (IH (List.length rest)
                  ltac:(eapply nextFrame_shorter; eauto) rest eq_refl)
        as (bytes & -> & Hrest).
      cbn. eexists. split; [reflexivity|].
      rewrite <- app_assoc. by rewrite <- Hrest.
    + exists []. done.
  - apply nextFrame_None_incomplete, readerLoop_idle.
Qed.

End CodecStreams.

(** ** What the agent's callbacks leave alone *)

Section ShipKeeps.
Import JS Ship.
Context `{Platform}.

Definition isReconnect (x : Timer) : bool :=
  match action x with Reconnect => true | Wake => false end.

(** The pending timers that will call [connectToOffshore]. *)
Definition reconnects (s : State) : list Timer :=
  filter (λ x, isReconnect x = true) (timers s).

(** The sockets opened to the relay so far, newest first. *)
Definition opened (s : State) : list nat :=
  omap (λ o, match o with OConnect k => Some k | _ => None end) (log s).

(** [s'] comes after [s] by code that is neither the socket's [error],
    [close] and [connect] handlers nor the arrival of a request: the
    variable [reconnectTimer] is the same and no reconnect timer was
    armed; the queue lost entries at its head at most; no request object
    was created; the socket is the same and none was opened, unless the
    socket was not usable and one new socket was opened in its place; and
    a client that has an answer had it before, or its request object
    exists. *)
Record keeps (s s' : State) : Prop := {
  k_reconnect : reconnectTimer s' = reconnectTimer s;
  k_timers : reconnects s' `sublist_of` reconnects s;
  k_queue : ∃ n, queue s' = drop n (queue s);
  k_heap : List.length (heap s') = List.length (heap s);
  k_open : (offshoreSocket s' = offshoreSocket s ∧ opened s' = opened s) ∨
           (socketUsable s = false ∧
            ∃ k, offshoreSocket s'
                   = Some {| sockId := k; connected := false;
                             destroyed := false; closed := false |} ∧
                 opened s' = k :: opened s);
  k_answered : ∀ e, headersSent e s' = true →
               headersSent e s = true ∨ (e < List.length (heap s))%nat
}.

Lemma keeps_refl s : keeps s s.
Proof. split; try done; [by exists 0%nat | by left | by left]. Qed.

Lemma keeps_trans s1 s2 s3 : keeps s1 s2 → keeps s2 s3 → keeps s1 s3.
Proof.
  intros [R1 T1 [n1 Q1] H1 K1 A1] [R2 T2 [n2 Q2] H2 K2 A2]. split.
  - congruence.
  - by etrans.
  - exists (n1 + n2)%nat. by rewrite Q2, Q1, drop_drop.
  - congruence.
  - destruct K1 as [[S1 O1]|(U1 & k1 & S1 & O1)],
             K2 as [[S2 O2]|(U2 & k2 & S2 & O2)].
    + left. split; congruence.
    + right. split; [unfold socketUsable in *; by rewrite <- S1|].
      exists k2. split; congruence.
    + right. split; [done|]. exists k1. split; congruence.
    + unfold socketUsable in U2. by rewrite S1 in U2.
  - intros e He. destruct (A2 e He) as [He2|He2]; [by apply A1|].
    right. lia.
Qed.

(** Changes that touch none of the fields [keeps] speaks about. *)
Lemma keeps_same s0 s s' :
  reconnectTimer s' = reconnectTimer s → timers s' = timers s →
  queue s' = queue s → List.length (heap s') = List.length (heap s) →
  offshoreSocket s' = offshoreSocket s → log s' = log s →
  keeps s0 s → keeps s0 s'.
Proof.
  intros R T Q Hh K L Hk. eapply keeps_trans; [exact Hk|]. split; try done.
  - unfold reconnects. by rewrite T.
  - exists 0%nat. by rewrite Q.
  - left. unfold opened. by rewrite L.
  - intros e He. left. unfold headersSent in *. by rewrite <- L.
Qed.

(** The entry an output answers. *)
Definition isAnswer (o : Output) : option nat :=
  match o with
  | OWriteHead e _ _ | OEnd e _ => Some e
  | _ => None
  end.

Lemma hasRes_lt e s : hasRes e s = true → (e < List.length (heap s))%nat.
Proof.
  unfold hasRes. destruct (heap s !! e) eqn:E; [|done].
  intros _. by eapply lookup_lt_Some.
Qed.

Lemma keeps_emit s0 s o :
  (∀ k, o ≠ OConnect k) →
  (∀ e, isAnswer o = Some e → hasRes e s = true) →
  keeps s0 s → keeps s0 (emit o s).
Proof.
  intros Ho Ha Hk. eapply keeps_trans; [exact Hk|]. split; try done.
  - by exists 0%nat.
  - left. split; [done|]. unfold opened. cbn.
    destruct o; try done. by destruct (Ho sock).
  - intros e. unfold headersSent. cbn.
    intros [He|He]%orb_true_iff; [|by left]. right.
    destruct o; try done; apply Nat.eqb_eq in He as ->;
      by apply hasRes_lt, Ha.
Qed.

Lemma keeps_quiet s0 s o :
  (∀ k, o ≠ OConnect k) → isAnswer o = None →
  keeps s0 s → keeps s0 (emit o s).
Proof. intros Ho Ha. apply keeps_emit; [done|]. intros e. by rewrite Ha. Qed.

Lemma keeps_heap_alter s0 s (f : Entry → Entry) e :
  keeps s0 s → keeps s0 (set_heap (alter f e (heap s)) s).
Proof. apply keeps_same; try reflexivity. cbn. apply length_alter. Qed.

Lemma hasRes_emit e o s : hasRes e (emit o s) = hasRes e s.
Proof. reflexivity. Qed.

Lemma keeps_set_invocations s0 s v :
  keeps s0 s → keeps s0 (set_invocations v s).
Proof. apply keeps_same; reflexivity. Qed.

Lemma keeps_set_processing s0 s v :
  keeps s0 s → keeps s0 (set_processing v s).
Proof. apply keeps_same; reflexivity. Qed.

Lemma keeps_set_tunnels s0 s v : keeps s0 s → keeps s0 (set_tunnels v s).
Proof. apply keeps_same; reflexivity. Qed.

Lemma keeps_set_readerBuffer s0 s v :
  keeps s0 s → keeps s0 (set_readerBuffer v s).
Proof. apply keeps_same; reflexivity. Qed.

Lemma keeps_suspend s0 s cur st : keeps s0 s → keeps s0 (suspend cur st s).
Proof. apply keeps_set_invocations. Qed.

Lemma keeps_shift s0 s :
  keeps s0 s → keeps s0 (set_queue (tail (queue s)) s).
Proof.
  intros Hk. eapply keeps_trans; [exact Hk|]. split; try done.
  - exists 1%nat. cbn. by destruct (queue s).
  - by left.
  - by left.
Qed.

Lemma keeps_setTimeout_wake s0 s d :
  keeps s0 s → keeps s0 (setTimeout d Wake s).
Proof.
  intros Hk. eapply keeps_trans; [exact Hk|]. split; try done.
  - unfold reconnects. cbn. rewrite list.filter_app.
    rewrite filter_cons, filter_nil. cbn. by rewrite app_nil_r.
  - by exists 0%nat.
  - by left.
  - by left.
Qed.

Lemma sublist_filter_filter {A} (P Q : A → Prop)
    `{∀ x, Decision (P x)} `{∀ x, Decision (Q x)} (l : list A) :
  filter P (filter Q l) `sublist_of` filter P l.
Proof.
  induction l as [|x l IH]; [done|]. rewrite !filter_cons.
  destruct (decide (Q x)), (decide (P x)); rewrite ?filter_cons;
    try destruct (decide (P x)); try done.
  - by apply sublist_skip.
  - by apply sublist_cons.
Qed.

Lemma keeps_clearTimeout s0 s t :
  keeps s0 s → keeps s0 (clearTimeout t s).
Proof.
  intros Hk. eapply keeps_trans; [exact Hk|]. split; try done.
  - unfold reconnects. cbn. apply sublist_filter_filter.
  - by exists 0%nat.
  - by left.
  - by left.
Qed.

Lemma keeps_connectToOffshore s0 s :
  keeps s0 s → keeps s0 (connectToOffshore s).
Proof.
  intros Hk. eapply keeps_trans; [exact Hk|].
  unfold connectToOffshore. destruct (socketUsable s) eqn:Hu.
  - apply keeps_refl.
  - split.
    + reflexivity.
    + reflexivity.
    + by exists 0%nat.
    + reflexivity.
    + right. split; [done|]. by exists (nextId s).
    + intros e He. by left.
Qed.

Lemma keeps_writeHead s0 s s' e st hd :
  hasRes e s = true →
  writeHead e st hd s = Some s' → keeps s0 s →
  keeps s0 s' ∧ hasRes e s' = true.
Proof.
  intros Hres. unfold writeHead. destruct (headersSent e s); [done|].
  intros [= <-]. split; [|done]. apply keeps_emit; [done| |done].
  by intros e' [= <-].
Qed.

Lemma keeps_resEnd s0 s e data :
  hasRes e s = true → keeps s0 s → keeps s0 (resEnd e data s).
Proof.
  intros Hres. unfold resEnd. destruct (finished e s); [done|].
  apply keeps_emit; [done|]. by intros e' [= <-].
Qed.

Lemma keeps_catchAll s0 s cur : keeps s0 s → keeps s0 (catchAll cur s).
Proof.
  unfold catchAll. destruct (hasRes cur s) eqn:Hres.
  - by apply keeps_resEnd.
  - by apply keeps_quiet.
Qed.

Lemma keeps_awaitBody s0 s cur : keeps s0 s → keeps s0 (awaitBody cur s).
Proof. intros. unfold awaitBody. by apply keeps_suspend, keeps_heap_alter. Qed.

Lemma drop_cons_tail {A} n (l : list A) x q :
  drop n l = x :: q → q = drop (S n) l.
Proof.
  revert l. induction n as [|n IH]; intros [|y l]; cbn; try done.
  - by intros [= _ <-].
  - intros Hd. by apply IH.
Qed.

Lemma keeps_set_queue s0 s v :
  (∃ n, v = drop n (queue s0)) → keeps s0 s → keeps s0 (set_queue v s).
Proof.
  intros [n ->] [R T _ Hh K A]. split; try done. by exists n.
Qed.

Lemma keeps_usable s s' :
  keeps s s' → socketUsable s = true →
  offshoreSocket s' = offshoreSocket s ∧ opened s' = opened s.
Proof.
  intros [_ _ _ _ [K|(U & _)] _] Hu; [done | congruence].
Qed.

Lemma keeps_processingLoopQ q s0 s :
  (∃ n, q = drop n (queue s0)) → keeps s0 s →
  keeps s0 (processingLoopQ q s).
Proof.
  revert s. induction q as [|cur q IH]; intros s Hq Hk; cbn [processingLoopQ].
  - by destruct (processing s).
  - destruct (processing s); [done|]. cbn zeta.
    change (heap (set_processing true s)) with (heap s).
    pose proof (keeps_set_processing _ _ true Hk) as Hk1.
    destruct (heap s !! cur) as [ent|]; [|done].
    destruct (isConnect ent); cbn [negb].
    + destruct (connectTarget (req ent)) as [host port].
      destruct ((0 <=? port) && (port <? 65536)).
      * by apply keeps_set_tunnels, keeps_quiet.
      * assert (∃ n, q = drop n (queue s0)) as Hq'.
        { destruct Hq as [n Hq]. exists (S n). symmetry in Hq.
          by apply drop_cons_tail in Hq. }
        apply IH; [exact Hq'|].
        by apply keeps_set_processing, keeps_set_queue, keeps_catchAll.
    + destruct (socketUsable (set_processing true s)).
      * by apply keeps_awaitBody.
      * by apply keeps_suspend, keeps_setTimeout_wake,
          keeps_connectToOffshore.
Qed.

Lemma keeps_processingLoop s0 s : keeps s0 s → keeps s0 (processingLoop s).
Proof.
  intros Hk. apply keeps_processingLoopQ; [|done]. exact (k_queue _ _ Hk).
Qed.

Lemma keeps_finish s0 s : keeps s0 s → keeps s0 (finish s).
Proof.
  intros. by apply keeps_processingLoop, keeps_set_processing, keeps_shift.
Qed.

Lemma keeps_afterWait s0 s cur : keeps s0 s → keeps s0 (afterWait cur s).
Proof.
  intros Hk. unfold afterWait.
  destruct (socketUsable s); [by apply keeps_awaitBody|].
  destruct (hasRes cur s) eqn:Hres; [|by apply keeps_finish].
  destruct (writeHead cur (JNum 502) None s) as [s'|] eqn:Ew.
  - destruct (keeps_writeHead _ _ _ _ _ _ Hres Ew Hk).
    by apply keeps_finish, keeps_resEnd.
  - by apply keeps_finish, keeps_catchAll.
Qed.

Lemma keeps_afterBody s0 s cur chunks :
  keeps s0 s → keeps s0 (afterBody cur chunks s).
Proof.
  intros Hk. unfold afterBody.
  destruct (heap s !! cur) as [ent|]; [|done].
  destruct (offshoreSocket s) as [sock|];
    [|by apply keeps_finish, keeps_catchAll].
  destruct (Framing.sendMessage 0 _) as [bytes|];
    [|by apply keeps_finish, keeps_catchAll].
  cbn zeta. apply keeps_suspend, keeps_setTimeout_wake, keeps_quiet;
    [| |done]; by destruct (destroyed sock).
Qed.

Lemma keeps_relayResponse s0 s cur payload :
  keeps s0 s → keeps s0 (relayResponse cur payload s).1.
Proof.
  intros Hk. unfold relayResponse.
  destruct (JSON_parse _) as [responseObj|]; [|done].
  destruct (get _ "statusCode") as [st|]; [|done].
  destruct (get _ "headers") as [hd|]; [|done].
  destruct (get _ "body") as [bd|]; [|done].
  destruct (hasRes cur s) eqn:Hres; [|done].
  destruct (writeHead cur _ _ s) as [s'|] eqn:Ew; [|done].
  destruct (keeps_writeHead _ _ _ _ _ _ Hres Ew Hk).
  destruct (fromBase64 _); [|done]. by apply keeps_resEnd.
Qed.

Lemma keeps_respond s0 s cur payload :
  keeps s0 s → keeps s0 (respond cur payload s).
Proof.
  intros Hk. unfold respond. destruct payload as [payload|].
  - pose proof (keeps_relayResponse _ _ cur payload Hk) as Hr.
    destruct (relayResponse cur payload s) as [s' threw]. cbn [fst] in Hr.
    destruct threw, (hasRes cur s') eqn:Hres; cbn [andb].
    + by apply keeps_finish, keeps_resEnd.
    + by apply keeps_finish.
    + by apply keeps_finish.
    + by apply keeps_finish.
  - destruct (hasRes cur s) eqn:Hres; [|by apply keeps_finish].
    destruct (writeHead cur (JNum 504) None s) as [s'|] eqn:Ew.
    + destruct (keeps_writeHead _ _ _ _ _ _ Hres Ew Hk).
      by apply keeps_finish, keeps_resEnd.
    + by apply keeps_finish, keeps_catchAll.
Qed.

Lemma keeps_settle s0 s : keeps s0 s → keeps s0 (settle s).
Proof.
  intros Hk. unfold settle. cbn zeta.
  generalize (filter (λ i, is_Some (ready s i)) (invocations s)) as woken.
  pose proof (keeps_set_invocations _ _
    (filter (λ i, ¬ is_Some (ready s i)) (invocations s)) Hk) as Hs.
  revert Hs.
  generalize (set_invocations
                (filter (λ i, ¬ is_Some (ready s i)) (invocations s)) s).
  intros s1 Hs1 woken. revert s1 Hs1.
  induction woken as [|i woken IH]; intros s1 Hs1; [done|].
  cbn [foldl]. apply IH.
  destruct (ready s1 i); [|done]. destruct (timerOf i); [|done].
  by apply keeps_respond, keeps_clearTimeout.
Qed.

Lemma keeps_onMessage s0 s msgType payload :
  keeps s0 s → keeps s0 (onMessage msgType payload s).
Proof.
  intros Hk. unfold onMessage. destruct (negb (msgType =? 1)); [done|].
  destruct (queue s) as [|head q]; [done|]. by apply keeps_heap_alter.
Qed.

Lemma keeps_onSockData s0 s chunk :
  keeps s0 s → keeps s0 (onSockData chunk s).
Proof.
  intros Hk. unfold onSockData. cbn zeta. apply keeps_settle.
  generalize (Framing.onData (readerBuffer s) chunk).1 as msgs.
  pose proof (keeps_set_readerBuffer _ _
    (Framing.onData (readerBuffer s) chunk).2 Hk) as Hs.
  revert Hs. generalize (set_readerBuffer
                           (Framing.onData (readerBuffer s) chunk).2 s).
  intros s1 Hs1 msgs. revert s1 Hs1.
  induction msgs as [|m msgs IH]; intros s1 Hs1; [done|].
  cbn [foldl]. apply IH. by apply keeps_onMessage.
Qed.

Lemma keeps_markTunnel s0 s t f : keeps s0 s → keeps s0 (markTunnel t f s).
Proof. apply keeps_set_tunnels. Qed.

Lemma keeps_destroyRemote s0 s t : keeps s0 s → keeps s0 (destroyRemote t s).
Proof.
  intros Hk. unfold destroyRemote. destruct (tunnels s !! t) as [u|]; [|done].
  destruct (remoteDestroyed u); [done|].
  by apply keeps_quiet, keeps_markTunnel.
Qed.

Lemma keeps_onClientError s0 s e : keeps s0 s → keeps s0 (onClientError e s).
Proof.
  unfold onClientError. generalize (tunnelsOf e s) as ts. intros ts. revert s.
  induction ts as [|t ts IH]; intros s Hk; [done|].
  cbn [foldl]. by apply IH, keeps_destroyRemote.
Qed.

Lemma keeps_onClientClose s0 s e : keeps s0 s → keeps s0 (onClientClose e s).
Proof.
  intros Hk. unfold onClientClose. generalize (tunnelsOf e s) as ts.
  pose proof (keeps_heap_alter _ _ setClientClosed e Hk) as Hs.
  revert Hs. generalize (set_heap (alter setClientClosed e (heap s)) s).
  intros s1 Hs1 ts. revert s1 Hs1.
  induction ts as [|t ts IH]; intros s1 Hs1; [done|].
  cbn [foldl]. by apply IH, keeps_finish, keeps_destroyRemote.
Qed.

Lemma keeps_onBodyEnd s0 s e : keeps s0 s → keeps s0 (onBodyEnd e s).
Proof.
  intros Hk. unfold onBodyEnd. cbn zeta. apply keeps_settle.
  generalize (filter (λ i, awaitsBodyOf e i = true) (invocations s)) as woken.
  pose proof (keeps_set_invocations _ _
    (filter (λ i, awaitsBodyOf e i ≠ true) (invocations s))
    (keeps_heap_alter _ _ (setFlow Ended) e Hk)) as Hs.
  revert Hs. generalize (set_invocations
    (filter (λ i, awaitsBodyOf e i ≠ true) (invocations s))
    (set_heap (alter (setFlow Ended) e (heap s)) s)).
  intros s1 Hs1 woken. revert s1 Hs1.
  induction woken as [|i woken IH]; intros s1 Hs1; [done|].
  cbn [foldl]. apply IH. destruct (stage i); try done.
  by apply keeps_afterBody.
Qed.

Lemma keeps_onTimer s0 s t : keeps s0 s → keeps s0 (onTimer t s).
Proof.
  intros Hk. unfold onTimer. cbn zeta.
  pose proof (keeps_clearTimeout _ _ (timerId t) Hk) as Hk1.
  destruct (action t); [by apply keeps_connectToOffshore|].
  change (invocations (clearTimeout (timerId t) s)) with (invocations s).
  destruct (List.find _ (invocations s)) as [i|]; [|done].
  pose proof (keeps_set_invocations _ _
    (filter (λ j, timerOf j ≠ Some (timerId t)) (invocations s)) Hk1) as Hk2.
  destruct (stage i); [by apply keeps_afterWait|done|by apply keeps_respond].
Qed.

(** The queue and the request objects as lines 73-84 leave them. *)
Definition arrived (r : IncomingMessage) (isC : bool) (s : State) : State :=
  set_queue (queue s ++ [List.length (heap s)])
    (set_heap (heap s ++
       [{| req := r; isConnect := isC; resolved := None;
           reqFlow := Paused; clientClosed := false |}]) s).

(** Lines 41-44 on the socket that connected. *)
Definition connectedNow (s : State) : State :=
  match reconnectTimer s with
  | Some t => set_reconnectTimer None (clearTimeout t (markSocket setConnected s))
  | None => markSocket setConnected s
  end.

(** Every callback, from the point where it leaves the lines that are its
    own. *)
Lemma step_keeps s ev s' :
  step s ev = Some s' →
  match ev with
  | EHttpRequest r => keeps (arrived r false s) s'
  | EConnectRequest r => keeps (arrived r true s) s'
  | ESockConnect _ => keeps (connectedNow s) s'
  | ESockError _ => s' = scheduleReconnect (markSocket setDestroyed s)
  | ESockClose k =>
      s' = scheduleReconnect (set_processing false (markSocket setClosed s)) ∨
      s' = scheduleReconnect
             (set_processing false
                (set_closing (filter (λ j, j ≠ k) (closing s)) s))
  | _ => keeps s s'
  end.
Proof.
  intros Hstep. destruct ev; cbn [step] in Hstep.
  - destruct (offshoreSocket s); [done|]. injection Hstep as <-.
    apply keeps_connectToOffshore, keeps_refl.
  - destruct (offshoreSocket s); [|done]. injection Hstep as <-.
    unfold enqueueRequest. fold (arrived r false s). cbn zeta.
    destruct (processing _); [apply keeps_refl|].
    apply keeps_processingLoop, keeps_refl.
  - destruct (offshoreSocket s); [|done]. injection Hstep as <-.
    unfold enqueueRequest. fold (arrived r true s). cbn zeta.
    destruct (processing _); [apply keeps_refl|].
    apply keeps_processingLoop, keeps_refl.
  - destruct (reqFlow <$> heap s !! e) as [[]|]; try done.
    injection Hstep as <-. apply keeps_set_invocations, keeps_refl.
  - destruct (reqFlow <$> heap s !! e) as [[]|]; try done.
    injection Hstep as <-. apply keeps_onBodyEnd, keeps_refl.
  - destruct (isSocket sock s) as [k|]; [|done].
    destruct (connected k || destroyed k); [done|]. injection Hstep as <-.
    unfold onConnect, connectedNow.
    change (reconnectTimer (markSocket setConnected s)) with (reconnectTimer s).
    apply keeps_processingLoop, keeps_refl.
  - destruct (isSocket sock s) as [k|]; [|done].
    destruct (destroyed k); [done|]. by injection Hstep as <-.
  - destruct (isSocket sock s) as [k|].
    + destruct (closed k); [done|]. injection Hstep as <-. by left.
    + destruct (bool_decide _); [|done]. injection Hstep as <-. by right.
  - destruct (isSocket sock s) as [k|]; [|done].
    destruct (connected k && negb (destroyed k)); [|done].
    injection Hstep as <-. apply keeps_onSockData, keeps_refl.
  - destruct ((0 <? dt) && _); [|done]. injection Hstep as <-.
    apply (keeps_same s s); try reflexivity. apply keeps_refl.
  - destruct (List.find _ (timers s)) as [x|]; [|done].
    destruct (deadline x <=? now s); [|done]. injection Hstep as <-.
    apply keeps_onTimer, keeps_refl.
  - destruct (tunnels s !! tunnel) as [u|]; [|done].
    destruct (remoteConnected u || remoteDestroyed u); [done|].
    injection Hstep as <-. unfold onRemoteConnect.
    do 2 (apply keeps_quiet; [done|done|]). apply keeps_markTunnel, keeps_refl.
  - destruct (tunnels s !! tunnel) as [u|]; [|done].
    destruct (remoteDestroyed u); [done|]. injection Hstep as <-.
    unfold onRemoteError. apply keeps_quiet; [done|done|].
    apply keeps_markTunnel, keeps_refl.
  - destruct (tunnels s !! tunnel) as [u|]; [|done].
    destruct (remoteClosed u); [done|]. injection Hstep as <-.
    unfold onRemoteClose. apply keeps_finish, keeps_quiet; [done|done|].
    apply keeps_markTunnel, keeps_refl.
  - destruct (heap s !! e) as [ent|]; [|done].
    destruct (isConnect ent && negb (clientClosed ent)); [|done].
    injection Hstep as <-. apply keeps_onClientError, keeps_refl.
  - destruct (heap s !! e) as [ent|]; [|done].
    destruct (isConnect ent && negb (clientClosed ent)); [|done].
    injection Hstep as <-. apply keeps_onClientClose, keeps_refl.
Qed.

End ShipKeeps.

(** ** The managed connection, the reconnect timer and the queue *)

Section ShipOrder.
Import JS Ship.
Context `{Platform}.

Lemma scheduleReconnect_frame s :
  offshoreSocket (scheduleReconnect s) = offshoreSocket s ∧
  log (scheduleReconnect s) = log s ∧
  queue (scheduleReconnect s) = queue s ∧
  heap (scheduleReconnect s) = heap s.
Proof. unfold scheduleReconnect. by destruct (reconnectTimer s). Qed.

(** *** One connection *)

(** The socket in [offshoreSocket] is the one opened last. *)
Definition heldIsLast (s : State) : Prop :=
  sockId <$> offshoreSocket s = head (opened s).

Lemma heldIsLast_keeps s s' : keeps s s' → heldIsLast s → heldIsLast s'.
Proof.
  intros [_ _ _ _ [[S O]|(_ & k & S & O)] _] Hs; unfold heldIsLast.
  - by rewrite S, O.
  - by rewrite S, O.
Qed.

Lemma heldIsLast_same s s' :
  sockId <$> offshoreSocket s' = sockId <$> offshoreSocket s →
  log s' = log s → heldIsLast s → heldIsLast s'.
Proof. unfold heldIsLast, opened. intros -> ->. done. Qed.

Lemma sockId_markSocket f s :
  (∀ k, sockId (f k) = sockId k) →
  sockId <$> offshoreSocket (markSocket f s) = sockId <$> offshoreSocket s.
Proof. intros Hf. cbn. destruct (offshoreSocket s); cbn; by rewrite ?Hf. Qed.

Lemma heldIsLast_step s ev s' :
  heldIsLast s → step s ev = Some s' → heldIsLast s'.
Proof.
  intros Hs Hstep. pose proof (step_keeps _ _ _ Hstep) as Hk.
  destruct ev; try exact (heldIsLast_keeps _ _ Hk Hs).
  - eapply heldIsLast_keeps; [exact Hk|]. apply (heldIsLast_same s); [| |done].
    + unfold connectedNow. destruct (reconnectTimer s); by apply sockId_markSocket.
    + unfold connectedNow. by destruct (reconnectTimer s).
  - subst s'. destruct (scheduleReconnect_frame (markSocket setDestroyed s))
      as (S & L & _). apply (heldIsLast_same s); [| |done].
    + rewrite S. by apply sockId_markSocket.
    + by rewrite L.
  - destruct Hk as [-> | ->].
    + destruct (scheduleReconnect_frame
                  (set_processing false (markSocket setClosed s)))
        as (S & L & _). apply (heldIsLast_same s); [| |done].
      * rewrite S. by apply (sockId_markSocket setClosed).
      * by rewrite L.
    + destruct (scheduleReconnect_frame
                  (set_processing false
                     (set_closing (filter (λ j, j ≠ sock) (closing s)) s)))
        as (S & L & _). apply (heldIsLast_same s); [by rewrite S|by rewrite L|done].
Qed.

Lemma heldIsLast_run evs s s' :
  heldIsLast s → run s evs = Some s' → heldIsLast s'.
Proof.
  revert s. induction evs as [|ev evs IH]; intros s Hs; cbn [run].
  - by intros [= <-].
  - destruct (step s ev) as [s1|] eqn:E; [|done]. cbn.
    apply IH. eapply heldIsLast_step; eauto.
Qed.

(** X3 (one connection):
    the agent holds one connection to the relay at a time: in every state
    it reaches, the socket in [offshoreSocket] is the one it opened last,
    and a callback opens a socket only if it starts without a usable one,
    and then opens exactly one. *)
Theorem one_socket_at_a_time (evs : list Event) (s s' : State) (ev : Event) :
  run initial evs = Some s → step s ev = Some s' →
  sockId <$> offshoreSocket s = head (opened s) ∧
  (opened s' = opened s ∨
   socketUsable s = false ∧ ∃ k, opened s' = k :: opened s).
Proof.
  intros Hrun Hstep. split.
  { eapply (heldIsLast_run evs initial); [reflexivity | exact Hrun]. }
  pose proof (step_keeps _ _ _ Hstep) as Hk.
  assert (∀ s1, keeps s1 s' → socketUsable s1 = socketUsable s →
                opened s1 = opened s →
                opened s' = opened s ∨
                socketUsable s = false ∧ ∃ k, opened s' = k :: opened s)
    as Hfrom.
  { intros s1 [_ _ _ _ [[_ O]|(U & k & _ & O)] _] Hu Ho.
    - left. congruence.
    - right. split; [congruence|]. exists k. congruence. }
  destruct ev; try (by apply (Hfrom _ Hk)).
  - apply (Hfrom _ Hk).
    + unfold connectedNow, socketUsable.
      destruct (reconnectTimer s); cbn; by destruct (offshoreSocket s).
    + unfold connectedNow. by destruct (reconnectTimer s).
  - left. subst s'. unfold opened.
    by destruct (scheduleReconnect_frame (markSocket setDestroyed s))
      as (_ & -> & _).
  - left. unfold opened. destruct Hk as [-> | ->].
    + by destruct (scheduleReconnect_frame
                     (set_processing false (markSocket setClosed s)))
        as (_ & -> & _).
    + by destruct (scheduleReconnect_frame
                     (set_processing false
                        (set_closing (filter (λ j, j ≠ sock) (closing s)) s)))
        as (_ & -> & _).
Qed.

(** *** The reconnect timer *)

(** At most one reconnect timer is pending, and the variable
    [reconnectTimer] holds it. *)
Definition armedOnce (s : State) : Prop :=
  (List.length (reconnects s) <= 1)%nat ∧
  ∀ x, x ∈ reconnects s → reconnectTimer s = Some (timerId x).

Lemma armedOnce_keeps s s' : keeps s s' → armedOnce s → armedOnce s'.
Proof.
  intros [R T _ _ _ _] [Hlen Hvar]. split.
  - apply sublist_length in T. lia.
  - intros x Hx. rewrite R. apply Hvar. eapply elem_of_sublist; eauto.
Qed.

Lemma reconnects_none s :
  armedOnce s → reconnectTimer s = None → reconnects s = [].
Proof.
  intros [_ Hvar] Hnone. apply elem_of_nil_inv. intros x Hx.
  specialize (Hvar x Hx). congruence.
Qed.

Lemma armedOnce_scheduleReconnect s :
  armedOnce s → armedOnce (scheduleReconnect s).
Proof.
  intros Hs. unfold scheduleReconnect.
  destruct (reconnectTimer s) eqn:Er; [done|].
  pose proof (reconnects_none s Hs Er) as Hnil. unfold reconnects in *.
  split; cbn; rewrite list.filter_app, Hnil, filter_cons, filter_nil; cbn;
    (destruct (decide (true = true)) as [_|Hn]; [|by destruct Hn]).
  - cbn. lia.
  - by intros x ->%list_elem_of_singleton.
Qed.

Lemma armedOnce_connectedNow s : armedOnce s → reconnects (connectedNow s) = [].
Proof.
  intros Hs. unfold connectedNow. destruct (reconnectTimer s) as [t|] eqn:Er.
  - apply elem_of_nil_inv. intros x Hx. unfold reconnects in Hx. cbn in Hx.
    apply list_elem_of_filter in Hx as [Hr Hx].
    apply list_elem_of_filter in Hx as [Hne Hx].
    destruct Hs as [_ Hvar]. specialize (Hvar x).
    rewrite Er in Hvar. apply Hne.
    assert (Some t = Some (timerId x)) as [= ->]; [|done].
    apply Hvar. unfold reconnects. by apply list_elem_of_filter.
  - by apply reconnects_none.
Qed.

Lemma armedOnce_step s ev s' : armedOnce s → step s ev = Some s' → armedOnce s'.
Proof.
  intros Hs Hstep. pose proof (step_keeps _ _ _ Hstep) as Hk.
  destruct ev; try exact (armedOnce_keeps _ _ Hk Hs).
  - apply (armedOnce_keeps _ _ Hk).
    pose proof (armedOnce_connectedNow s Hs) as Hnil.
    split; rewrite Hnil; [cbn; lia|]. intros x Hx. inversion Hx.
  - subst s'. by apply armedOnce_scheduleReconnect.
  - destruct Hk as [-> | ->]; by apply armedOnce_scheduleReconnect.
Qed.

Lemma armedOnce_run evs s s' : armedOnce s → run s evs = Some s' → armedOnce s'.
Proof.
  revert s. induction evs as [|ev evs IH]; intros s Hs; cbn [run].
  - by intros [= <-].
  - destruct (step s ev) as [s1|] eqn:E; [|done]. cbn.
    apply IH. eapply armedOnce_step; eauto.
Qed.

Lemma armedOnce_initial : armedOnce initial.
Proof. split; [cbn; lia|]. intros x Hx. inversion Hx. Qed.

(** X4 (one reconnect timer):
    in every state the agent reaches at most one reconnect timer is
    pending, and it is the one the variable [reconnectTimer] holds. *)
Theorem one_reconnect_timer (evs : list Event) (s : State) :
  run initial evs = Some s →
  (List.length (reconnects s) <= 1)%nat ∧
  ∀ x, x ∈ timers s → action x = Reconnect →
       reconnectTimer s = Some (timerId x).
Proof.
  intros Hrun. destruct (armedOnce_run _ _ _ armedOnce_initial Hrun)
    as [Hlen Hvar].
  split; [exact Hlen|]. intros x Hx Ha. apply Hvar.
  unfold reconnects. apply list_elem_of_filter. split; [|done].
  unfold isReconnect. by rewrite Ha.
Qed.

(** No reconnect timer is pending although the variable is set: the state
    after a reconnect timer has fired. *)
Definition spent (s : State) : Prop :=
  reconnects s = [] ∧ is_Some (reconnectTimer s).

Lemma spent_keeps s s' : keeps s s' → spent s → spent s'.
Proof.
  intros [R T _ _ _ _] [Hnil Hvar]. split; [|by rewrite R].
  rewrite Hnil in T. by apply sublist_nil_r in T.
Qed.

Lemma spent_scheduleReconnect s : spent s → scheduleReconnect s = s.
Proof. intros [_ [t Ht]]. unfold scheduleReconnect. by rewrite Ht. Qed.

Lemma spent_step s ev s' :
  spent s → (∀ k, ev ≠ ESockConnect k) → step s ev = Some s' → spent s'.
Proof.
  intros Hs Hev Hstep. pose proof (step_keeps _ _ _ Hstep) as Hk.
  destruct ev; try exact (spent_keeps _ _ Hk Hs).
  - by destruct (Hev sock).
  - subst s'. by rewrite spent_scheduleReconnect.
  - destruct Hk as [-> | ->]; by rewrite spent_scheduleReconnect.
Qed.

Lemma spent_run evs s s' :
  spent s → Forall (λ ev, ∀ k, ev ≠ ESockConnect k) evs →
  run s evs = Some s' → spent s'.
Proof.
  intros Hs Hall. revert s Hs.
  induction Hall as [|ev evs Hev _ IH]; intros s Hs; cbn [run].
  - by intros [= <-].
  - destruct (step s ev) as [s1|] eqn:E; [|done]. cbn.
    apply IH. eapply spent_step; eauto.
Qed.

(** X5 (reconnect timer not re-armed):
    when a reconnect timer has fired, the variable [reconnectTimer] still
    holds it (only the [connect] handler clears the variable), so the
    [error] and [close] handlers of the socket it opened arm no other:
    until a socket connects, no reconnect timer is pending in any later
    state. *)
Theorem reconnect_timer_not_rearmed
    (evs evs' : list Event) (s s1 s2 : State) (t : nat) (x : Timer) :
  run initial evs = Some s →
  List.find (λ y, Nat.eqb (timerId y) t) (timers s) = Some x →
  action x = Reconnect →
  step s (ETimer t) = Some s1 →
  Forall (λ ev, ∀ k, ev ≠ ESockConnect k) evs' →
  run s1 evs' = Some s2 →
  reconnectTimer s2 = Some t ∧
  ∀ y, y ∈ timers s2 → action y = Wake.
Proof.
  intros Hrun Hx Ha Hstep Hall Hrun'.
  pose proof (armedOnce_run _ _ _ armedOnce_initial Hrun) as [Hlen Hvar].
  pose proof Hx as Hfound. apply find_some in Hfound as [Hin Hid].
  apply Nat.eqb_eq in Hid. apply list_elem_of_In in Hin.
  assert (x ∈ reconnects s) as Hxr.
  { unfold reconnects. apply list_elem_of_filter. split; [|done].
    unfold isReconnect. by rewrite Ha. }
  pose proof (Hvar x Hxr) as Hrt. rewrite Hid in Hrt.
  assert (spent s1) as Hs1.
  { cbn [step] in Hstep. rewrite Hx in Hstep.
    destruct (deadline x <=? now s); [|done]. injection Hstep as <-.
    unfold onTimer. rewrite Ha. cbn zeta.
    apply (spent_keeps (clearTimeout (timerId x) s));
      [apply keeps_connectToOffshore, keeps_refl|].
    split; [|cbn; rewrite Hrt; eauto].
    apply elem_of_nil_inv. intros y Hy. unfold reconnects in Hy. cbn in Hy.
    apply list_elem_of_filter in Hy as [Hr Hy].
    apply list_elem_of_filter in Hy as [Hne Hy].
    apply Hne. assert (Some t = Some (timerId y)) as [= <-]; [|done].
    rewrite <- Hrt. apply Hvar. unfold reconnects.
    by apply list_elem_of_filter. }
  assert (reconnectTimer s1 = Some t) as Hrt1.
  { pose proof (step_keeps _ _ _ Hstep) as Hk. cbn in Hk.
    by rewrite (k_reconnect _ _ Hk). }
  assert (∀ evs s1 s2, spent s1 →
            Forall (λ ev, ∀ k, ev ≠ ESockConnect k) evs →
            run s1 evs = Some s2 → reconnectTimer s2 = reconnectTimer s1)
    as Hsame.
  { clear. intros evs s1 s2 Hs Hall. revert s1 Hs.
    induction Hall as [|ev evs Hev _ IH]; intros s1 Hs; cbn [run].
    - by intros [= <-].
    - destruct (step s1 ev) as [s|] eqn:E; [|done]. cbn. intros Hrun.
      rewrite (IH s (spent_step _ _ _ Hs Hev E) Hrun).
      pose proof (step_keeps _ _ _ E) as Hk.
      destruct ev; try exact (k_reconnect _ _ Hk).
      + by destruct (Hev sock).
      + subst s. by rewrite spent_scheduleReconnect.
      + destruct Hk as [-> | ->]; by rewrite spent_scheduleReconnect. }
  split.
  - by rewrite (Hsame _ _ _ Hs1 Hall Hrun').
  - destruct (spent_run _ _ _ Hs1 Hall Hrun') as [Hnil _].
    intros y Hy. destruct (action y) eqn:Ey; [|done].
    exfalso. eapply (filter_nil_not_elem_of _ _ y Hnil); [|exact Hy].
    unfold isReconnect. by rewrite Ey.
Qed.

(** *** The queue *)

Definition ascending (q : list nat) : Prop :=
  ∀ i j a b, (i < j)%nat → q !! i = Some a → q !! j = Some b → (a < b)%nat.

(** The queue lists request objects in the order of their creation. *)
Definition queueOk (s : State) : Prop :=
  ascending (queue s) ∧ ∀ e, e ∈ queue s → (e < List.length (heap s))%nat.

(** The entry [enqueueRequest] pushes when the event is a request. *)
Definition pushed (ev : Event) (s : State) : list nat :=
  match ev with
  | EHttpRequest _ | EConnectRequest _ => [List.length (heap s)]
  | _ => []
  end.

Lemma ascending_drop n q : ascending q → ascending (drop n q).
Proof.
  intros Hq i j a b Hij. rewrite !lookup_drop. apply Hq. lia.
Qed.

Lemma ascending_snoc q x :
  ascending q → (∀ e, e ∈ q → (e < x)%nat) → ascending (q ++ [x]).
Proof.
  intros Hq Hx i j a b Hij Ha Hb.
  apply lookup_snoc_Some in Ha as [[Hi Ha]|[-> <-]],
                            Hb as [[Hj Hb]|[-> <-]].
  - by apply (Hq i j).
  - apply Hx. by eapply list_elem_of_lookup_2.
  - lia.
  - lia.
Qed.

Lemma queueOk_keeps s s' : keeps s s' → queueOk s → queueOk s'.
Proof.
  intros [_ _ [n Q] Hh _ _] [Ha Hb]. unfold queueOk. rewrite Q, Hh. split.
  - by apply ascending_drop.
  - intros e He. apply Hb. eapply elem_of_sublist; [exact He|].
    apply sublist_drop.
Qed.

Lemma queueOk_arrived r isC s : queueOk s → queueOk (arrived r isC s).
Proof.
  intros [Ha Hb]. split; cbn.
  - by apply ascending_snoc.
  - rewrite length_app. cbn.
    intros e [He| ->%list_elem_of_singleton]%elem_of_app; [|lia].
    specialize (Hb e He). lia.
Qed.

Lemma queueOk_same s s' :
  queue s' = queue s → heap s' = heap s → queueOk s → queueOk s'.
Proof. unfold queueOk. by intros -> ->. Qed.

Lemma queueOk_step s ev s' : queueOk s → step s ev = Some s' → queueOk s'.
Proof.
  intros Hs Hstep. pose proof (step_keeps _ _ _ Hstep) as Hk.
  destruct ev; try exact (queueOk_keeps _ _ Hk Hs).
  - apply (queueOk_keeps _ _ Hk). by apply queueOk_arrived.
  - apply (queueOk_keeps _ _ Hk). by apply queueOk_arrived.
  - apply (queueOk_keeps _ _ Hk). apply (queueOk_same s); [| |done];
      unfold connectedNow; by destruct (reconnectTimer s).
  - subst s'.
    destruct (scheduleReconnect_frame (markSocket setDestroyed s))
      as (_ & _ & Q & Hh). by apply (queueOk_same s).
  - destruct Hk as [-> | ->].
    + destruct (scheduleReconnect_frame
                  (set_processing false (markSocket setClosed s)))
        as (_ & _ & Q & Hh). by apply (queueOk_same s).
    + destruct (scheduleReconnect_frame
                  (set_processing false
                     (set_closing (filter (λ j, j ≠ sock) (closing s)) s)))
        as (_ & _ & Q & Hh). by apply (queueOk_same s).
Qed.

Lemma queueOk_run evs s s' : queueOk s → run s evs = Some s' → queueOk s'.
Proof.
  revert s. induction evs as [|ev evs IH]; intros s Hs; cbn [run].
  - by intros [= <-].
  - destruct (step s ev) as [s1|] eqn:E; [|done]. cbn.
    apply IH. eapply queueOk_step; eauto.
Qed.

Lemma queueOk_initial : queueOk initial.
Proof. split; [intros i j a b _ Hi; inversion Hi | intros e He; inversion He]. Qed.

(** X6 (queue order):
    in every state the agent reaches the queue lists request objects in
    the order in which they were created, none twice.  A callback changes
    the queue in two ways only: the arrival of a request appends the new
    request object at the back, and nothing else creates one; entries
    leave at the front. *)
Theorem queue_in_arrival_order
    (evs : list Event) (s s' : State) (ev : Event) :
  run initial evs = Some s → step s ev = Some s' →
  ascending (queue s) ∧
  (∀ e, e ∈ queue s → (e < List.length (heap s))%nat) ∧
  (∃ n, queue s' = drop n (queue s ++ pushed ev s)) ∧
  List.length (heap s') = (List.length (heap s) + List.length (pushed ev s))%nat.
Proof.
  intros Hrun Hstep.
  destruct (queueOk_run _ _ _ queueOk_initial Hrun) as [Ha Hb].
  split; [exact Ha|]. split; [exact Hb|].
  pose proof (step_keeps _ _ _ Hstep) as Hk.
  assert (∀ s1, keeps s1 s' → queue s1 = queue s ++ pushed ev s →
                List.length (heap s1)
                = (List.length (heap s) + List.length (pushed ev s))%nat →
                (∃ n, queue s' = drop n (queue s ++ pushed ev s)) ∧
                List.length (heap s')
                = (List.length (heap s) + List.length (pushed ev s))%nat)
    as Hfrom.
  { intros s1 [_ _ [n Q] Hh _ _] Hq Hl. split; [exists n|]; congruence. }
  destruct ev; cbn [pushed] in *;
    try (apply (Hfrom _ Hk); [by rewrite app_nil_r | cbn; lia]).
  - apply (Hfrom _ Hk); [done|]. cbn. by rewrite length_app.
  - apply (Hfrom _ Hk); [done|]. cbn. by rewrite length_app.
  - apply (Hfrom _ Hk); unfold connectedNow;
      destruct (reconnectTimer s); cbn; rewrite ?app_nil_r; lia || done.
  - subst s'.
    destruct (scheduleReconnect_frame (markSocket setDestroyed s))
      as (_ & _ & Q & Hh). rewrite Q, Hh, app_nil_r. cbn.
    split; [by exists 0%nat | lia].
  - destruct Hk as [-> | ->].
    + destruct (scheduleReconnect_frame
                  (set_processing false (markSocket setClosed s)))
        as (_ & _ & Q & Hh). rewrite Q, Hh, app_nil_r. cbn.
      split; [by exists 0%nat | lia].
    + destruct (scheduleReconnect_frame
                  (set_processing false
                     (set_closing (filter (λ j, j ≠ sock) (closing s)) s)))
        as (_ & _ & Q & Hh). rewrite Q, Hh, app_nil_r. cbn.
      split; [by exists 0%nat | lia].
Qed.

End ShipOrder.

(** ** Paths of [processingLoop] beyond the frame and its response *)

Section ShipPaths.
Import JS Ship.
Context `{Platform}.








(** *** The relay cannot be reached (lines 99-110) *)


(** *** The response branch (lines 142-152) *)

(** The state in which the call of the head request continues with the
    payload of a type-1 frame. *)
Definition resumed (cur t : nat) (payload : Buffer) (s : State) : State :=
  clearTimeout t
    (set_invocations []
       (set_heap (alter (setResolved (Some payload)) cur (heap s))
          (set_readerBuffer [] s))).

Lemma frame_reaches_waiting s cur t due sock payload frame :
  waiting cur t due s →
  offshoreSocket s = Some sock →
  connected sock = true → destroyed sock = false →
  readerBuffer s = [] →
  Framing.sendMessage 1 payload = Some frame →
  step s (ESockData (sockId sock) frame)
    = Some (respond cur (Some payload) (resumed cur t payload s)) ∧
  queue s = cur :: tail (queue s) ∧
  hasRes cur (resumed cur t payload s) = true ∧
  headersSent cur (resumed cur t payload s) = false.
Proof.
  intros [Hhead _ Hcalls (ent & Hent & Hc & Hr) Hun _ _ _ _]
    Hsock Hconn Halive Hbuf Hframe.
  assert (queue s = cur :: tail (queue s)) as Hq.
  { destruct (queue s); [done|]. cbn in Hhead. by injection Hhead as ->. }
  split; [|split; [exact Hq|split]].
  - exact (ship_frame_wakes_head s _ sock cur _ t ent payload frame
             Hsock eq_refl Hconn Halive Hbuf Hq Hcalls Hent Hr Hframe).
  - unfold hasRes, resumed. cbn. rewrite list_lookup_alter_eq, Hent. cbn.
    by rewrite Hc.
  - exact Hun.
Qed.

(** The envelope of lines 93-97 of the relay. *)
Definition responseEnvelope (statusCode : Z) (headers : json) (body : Buffer)
  : json :=
  JObj [("statusCode", JNum statusCode); ("headers", headers);
        ("body", JStr (toBase64 body))]%string.

(** *** Heads that [res.writeHead] takes

    [writeHead] stands for the call of line 145 where that call throws
    for no other reason than a head written twice.  The call also throws
    for a status outside 100..999, for a header name that is no HTTP
    token, for a header value with a character it refuses, and for a
    [Trailer] header on a response that is not chunked.  A header is
    [plain] when its name is a token other than [Trailer] and its value
    is a string of printable ASCII characters and tabs: with a status of
    three digits and plain headers the call throws for none of these
    reasons, whatever the other headers are. *)
Definition tokenChar (c : ascii) : bool :=
  ((48 <=? code c) && (code c <=? 57)) ||
  ((65 <=? code c) && (code c <=? 90)) ||
  ((97 <=? code c) && (code c <=? 122)) ||
  existsb (Ascii.eqb c) (list_ascii_of_string "!#$%&'*+-.^_`|~").

Definition plainChar (c : ascii) : bool :=
  (code c =? 9) || ((32 <=? code c) && (code c <=? 126)).

Definition plain (kv : string * json) : bool :=
  match kv with
  | (name, JStr v) =>
      negb (String.eqb name "") &&
      forallb tokenChar (list_ascii_of_string name) &&
      negb (String.eqb (toUpperCase name) "TRAILER") &&
      forallb plainChar (list_ascii_of_string v)
  | _ => false
  end.

(** X8 (response round trip):
    a response travels from the relay's outbound call to the client of
    the head request: the relay frames status, headers and the base64
    text of the body (lines 91-99); when the frame reaches the agent
    while the head request waits, the agent writes that status and those
    headers, ends the response with the bytes of the body, removes the
    request from the queue and goes on.  The status has three digits and
    the headers are plain, so that [res.writeHead] takes them.  JSON and
    base64 are the platform's; they are assumed to read back what they
    wrote here. *)
Theorem response_round_trip
    (r : Offshore.State) (c : nat) (u : Offshore.Call) (rsock : Offshore.Socket)
    (statusCode : Z) (fields : list (string * json)) (body frame : Buffer)
    (s : State) (sock : Socket) (cur t : nat) (due : Z) :
  Offshore.calls r !! c = Some u → Offshore.kind u = Offshore.Http →
  Offshore.ended u = true → Offshore.over u = false →
  Offshore.clientSocket r = Some rsock → Offshore.destroyed rsock = false →
  100 <= statusCode <= 999 → forallb plain fields = true →
  Framing.sendMessage 1
    (Offshore.responseMsg statusCode (JObj fields) body) = Some frame →
  JSON_parse (JSON_stringify (responseEnvelope statusCode (JObj fields) body))
    = Some (responseEnvelope statusCode (JObj fields) body) →
  fromBase64 (JStr (toBase64 body)) = Some body →
  waiting cur t due s →
  offshoreSocket s = Some sock →
  connected sock = true → destroyed sock = false →
  readerBuffer s = [] →
  (∃ m, Offshore.step r (Offshore.EResponse c statusCode (JObj fields) body)
          = Some (Offshore.cleanupRequest m) ∧
        Offshore.log m
          = Offshore.OWrite (Offshore.sockId rsock) (Offshore.callOf u) frame
              :: Offshore.log r) ∧
  (∃ m, step s (ESockData (sockId sock) frame) = Some (processingLoop m) ∧
        log m = OEnd cur body
                  :: OWriteHead cur (JNum statusCode) (Some (JObj fields))
                  :: log s ∧
        queue m = tail (queue s) ∧ processing m = false).
Proof.
  intros Hu Hk Hended Hover Hrsock Hralive Hst _ Hframe Hjson Hb64
    Hw Hsock Hconn Halive Hbuf.
  split.
  { cbn [Offshore.step]. rewrite Hu, Hk, Hended, Hover. cbn [andb negb].
    unfold Offshore.onResponseEnd. eexists. split; [reflexivity|].
    unfold Offshore.sendFramedMessage.
    cbn [Offshore.clientSocket Offshore.markCall Offshore.set_calls].
    rewrite Hrsock, Hralive, Hframe. reflexivity. }
  destruct (frame_reaches_waiting _ _ _ _ _ _ _ Hw Hsock Hconn Halive Hbuf
              Hframe) as (Hstep & Hq & Hres & Hun).
  rewrite Hstep. clear Hstep Hframe.
  set (payload := Offshore.responseMsg statusCode (JObj fields) body) in *.
  unfold respond, relayResponse.
  assert (toString payload
          = JSON_stringify (responseEnvelope statusCode (JObj fields) body))
    as -> by apply toString_Buffer_from.
  rewrite Hjson.
  cbn [get responseEnvelope field String.eqb Ascii.eqb Bool.eqb].
  rewrite Hres. unfold writeHead. rewrite Hun.
  assert (orElse (Some (JNum statusCode)) (JNum 200) = JNum statusCode) as ->.
  { unfold orElse, JS.or, truthy.
    destruct (statusCode =? 0) eqn:E; [|done]. apply Z.eqb_eq in E. lia. }
  assert (orElse (Some (JObj fields)) (JObj []) = JObj fields) as -> by done.
  rewrite orElse_JStr, Hb64.
  unfold resEnd. rewrite finished_after_writeHead by exact Hun.
  cbn [andb]. unfold finish. eexists. split; [reflexivity|].
  split; [reflexivity|]. split; reflexivity.
Qed.

(** X9 (malformed response):
    a type-1 frame whose payload is not JSON, or is the JSON text
    [null], reaches the agent while the head request waits: no status
    line is written; the response is ended with the body [Bad Gateway];
    the request leaves the queue and the agent goes on. *)
Theorem malformed_response_bad_gateway
    (s : State) (sock : Socket) (cur t : nat) (due : Z)
    (payload frame : Buffer) :
  waiting cur t due s →
  offshoreSocket s = Some sock →
  connected sock = true → destroyed sock = false →
  readerBuffer s = [] →
  Framing.sendMessage 1 payload = Some frame →
  JSON_parse (toString payload) = None ∨
  JSON_parse (toString payload) = Some JNull →
  ∃ m, step s (ESockData (sockId sock) frame) = Some (processingLoop m) ∧
       log m = OEnd cur (Buffer_from "Bad Gateway") :: log s ∧
       queue m = tail (queue s) ∧ processing m = false.
Proof.
  intros Hw Hsock Hconn Halive Hbuf Hframe Hbad.
  destruct (frame_reaches_waiting _ _ _ _ _ _ _ Hw Hsock Hconn Halive Hbuf
              Hframe) as (Hstep & Hq & Hres & Hun).
  rewrite Hstep. unfold respond, relayResponse.
  assert (finished cur (resumed cur t payload s) = false) as Hfin
    by (by apply finished_of_headersSent).
  destruct Hbad as [-> | ->]; cbn [get]; cbn [andb]; rewrite Hres;
    unfold resEnd; rewrite Hfin; unfold finish;
    (eexists; split; [reflexivity|]; split; [reflexivity|];
     split; reflexivity).
Qed.

(** X10 (response defaults):
    a type-1 frame whose payload is a JSON object without the keys
    [statusCode], [headers] and [body]: the defaults of line 145-146
    apply, the client receives status 200 with no headers and an empty
    body. *)
Theorem empty_envelope_defaults
    (s : State) (sock : Socket) (cur t : nat) (due : Z)
    (payload frame : Buffer) (fields : list (string * json)) :
  waiting cur t due s →
  offshoreSocket s = Some sock →
  connected sock = true → destroyed sock = false →
  readerBuffer s = [] →
  Framing.sendMessage 1 payload = Some frame →
  JSON_parse (toString payload) = Some (JObj fields) →
  field "statusCode" fields = None → field "headers" fields = None →
  field "body" fields = None →
  fromBase64 (JStr "") = Some [] →
  ∃ m, step s (ESockData (sockId sock) frame) = Some (processingLoop m) ∧
       log m = OEnd cur [] :: OWriteHead cur (JNum 200) (Some (JObj []))
                 :: log s ∧
       queue m = tail (queue s) ∧ processing m = false.
Proof.
  intros Hw Hsock Hconn Halive Hbuf Hframe Hjson Hst Hhd Hbd Hb64.
  destruct (frame_reaches_waiting _ _ _ _ _ _ _ Hw Hsock Hconn Halive Hbuf
              Hframe) as (Hstep & Hq & Hres & Hun).
  rewrite Hstep. unfold respond, relayResponse. rewrite Hjson. cbn [get].
  rewrite Hst, Hhd, Hbd, Hres. unfold writeHead. rewrite Hun.
  change (orElse None (JNum 200)) with (JNum 200).
  change (orElse None (JObj [])) with (JObj []).
  change (orElse None (JStr "")) with (JStr ""). rewrite Hb64.
  unfold resEnd. rewrite finished_after_writeHead by exact Hun.
  cbn [andb]. unfold finish. eexists. split; [reflexivity|].
  split; [reflexivity|]. split; reflexivity.
Qed.

(** *** Frames nobody waits for (lines 60-68) *)

Lemma onMessage_empty_queue (s : State) (msgs : list Framing.Message) :
  queue s = [] → foldl (λ s m, onMessage m.1 m.2 s) s msgs = s.
Proof.
  intros Hq. induction msgs as [|m msgs IH]; [done|]. cbn [foldl].
  unfold onMessage at 2. rewrite Hq.
  by destruct (negb (m.1 =? 1)).
Qed.

(** X20 (unsolicited frames):
    while the queue is empty and no call of [processingLoop] is under
    way, whatever bytes the relay sends change nothing but the reader's
    buffer: no client is written to, no request object is touched, and no
    timer is set or cleared. *)
Theorem unsolicited_frames_ignored (s : State) (sock : Socket)
    (chunk : Buffer) :
  offshoreSocket s = Some sock →
  connected sock = true → destroyed sock = false →
  queue s = [] → invocations s = [] →
  step s (ESockData (sockId sock) chunk)
  = Some (set_readerBuffer (Framing.onData (readerBuffer s) chunk).2 s).
Proof.
  intros Hsock Hconn Halive Hq Hinv. cbn [step]. unfold isSocket.
  rewrite Hsock, Nat.eqb_refl, Hconn, Halive. cbn [andb negb]. f_equal.
  unfold onSockData. cbn zeta.
  rewrite onMessage_empty_queue by done.
  unfold settle. cbn [invocations set_readerBuffer]. rewrite Hinv.
  rewrite !filter_nil. cbn [foldl].
  destruct s. cbn in Hinv. subst. reflexivity.
Qed.

End ShipPaths.

(** ** The target of a CONNECT request (lines 156-164) *)

From Stdlib Require DecimalPos.

Section ConnectTarget.
Import JS Ship.

(** The number a string of decimal digits denotes, read from the left. *)
Fixpoint uval (d : Decimal.uint) (acc : Z) : Z :=
  match d with
  | Decimal.Nil => acc
  | Decimal.D0 l => uval l (acc * 10 + 0)
  | Decimal.D1 l => uval l (acc * 10 + 1)
  | Decimal.D2 l => uval l (acc * 10 + 2)
  | Decimal.D3 l => uval l (acc * 10 + 3)
  | Decimal.D4 l => uval l (acc * 10 + 4)
  | Decimal.D5 l => uval l (acc * 10 + 5)
  | Decimal.D6 l => uval l (acc * 10 + 6)
  | Decimal.D7 l => uval l (acc * 10 + 7)
  | Decimal.D8 l => uval l (acc * 10 + 8)
  | Decimal.D9 l => uval l (acc * 10 + 9)
  end.

Lemma digits_string_of_uint d acc :
  digits 10 (DecimalString.NilEmpty.string_of_uint d) (Some acc)
  = Some (uval d acc).
Proof.
  revert acc. induction d as [|d IH|d IH|d IH|d IH|d IH|d IH|d IH|d IH|d IH|d IH];
    intros acc; [reflexivity|..];
    cbn [DecimalString.NilEmpty.string_of_uint digits uval];
    apply IH.
Qed.

Lemma digits_string_of_uint_first d :
  d ≠ Decimal.Nil →
  digits 10 (DecimalString.NilEmpty.string_of_uint d) None = Some (uval d 0).
Proof.
  destruct d; [done|..]; intros _;
    cbn [DecimalString.NilEmpty.string_of_uint digits uval];
    apply digits_string_of_uint.
Qed.

Lemma uval_of_uint_acc d acc :
  Z.pos (Pos.of_uint_acc d acc) = uval d (Z.pos acc).
Proof.
  revert acc. induction d; intros acc; cbn [Pos.of_uint_acc uval];
    [reflexivity|..]; rewrite IHd; f_equal; lia.
Qed.

Lemma uval_of_uint d : Z.of_N (Pos.of_uint d) = uval d 0.
Proof.
  induction d; cbn [Pos.of_uint uval]; [reflexivity|exact IHd|..];
    cbn [Z.of_N]; by rewrite uval_of_uint_acc.
Qed.

(** [parseInt] reads back the decimal text of a positive number. *)
Lemma parseInt_decimal n : 0 < n → parseInt (decimal n) (Some 10) = Some n.
Proof.
  destruct n as [|p|p]; try lia. intros _.
  unfold decimal. cbn [Z.to_int DecimalString.NilZero.string_of_int].
  pose proof (DecimalPos.Unsigned.to_uint_nonnil p) as Hnil.
  pose proof (DecimalPos.Unsigned.of_to p) as Hback.
  assert (Some (Z.pos p) = Some (uval (Pos.to_uint p) 0)) as ->.
  { by rewrite <- uval_of_uint, Hback. }
  rewrite <- (digits_string_of_uint_first _ Hnil).
  destruct (Pos.to_uint p); [done|..]; reflexivity.
Qed.

(** The same without a radix, as the relay calls it (line 47 of the
    relay): a decimal text is no [0x] literal. *)
Lemma parseInt_decimal_auto n : 0 < n → parseInt (decimal n) None = Some n.
Proof.
  destruct n as [|p|p]; try lia. intros _.
  unfold decimal. cbn [Z.to_int DecimalString.NilZero.string_of_int].
  pose proof (DecimalPos.Unsigned.to_uint_nonnil p) as Hnil.
  pose proof (DecimalPos.Unsigned.of_to p) as Hback.
  assert (Some (Z.pos p) = Some (uval (Pos.to_uint p) 0)) as ->.
  { by rewrite <- uval_of_uint, Hback. }
  rewrite <- (digits_string_of_uint_first _ Hnil).
  destruct (Pos.to_uint p) as [|d|d|d|d|d|d|d|d|d|d]; [done|..];
    try reflexivity.
  destruct d; reflexivity.
Qed.

Lemma includes_string_of_uint d :
  includes ":" (DecimalString.NilEmpty.string_of_uint d) = false.
Proof. induction d; [reflexivity|..]; exact IHd. Qed.

Lemma includes_decimal n : 0 < n → includes ":" (decimal n) = false.
Proof.
  destruct n as [|p|p]; try lia. intros _. unfold decimal.
  cbn [Z.to_int DecimalString.NilZero.string_of_int].
  pose proof (DecimalPos.Unsigned.to_uint_nonnil p) as Hnil.
  destruct (Pos.to_uint p) eqn:E; [done|..]; rewrite <- E;
    unfold DecimalString.NilZero.string_of_uint; rewrite E, <- E;
    apply includes_string_of_uint.
Qed.

Lemma append_nil str : ("" ++ str)%string = str.
Proof. reflexivity. Qed.

Lemma append_cons a str str' :
  (String a str ++ str')%string = String a (str ++ str')%string.
Proof. reflexivity. Qed.

Lemma includes_app c host rest :
  includes c (host ++ String c rest)%string = true.
Proof.
  induction host as [|a host IH];
    rewrite ?append_nil, ?append_cons; cbn [includes].
  - by rewrite Ascii.eqb_refl.
  - destruct (Ascii.eqb c a); [done|exact IH].
Qed.

Lemma split_none c str : includes c str = false → split c str = [str].
Proof.
  induction str as [|a str IH]; cbn [includes split]; [done|].
  destruct (Ascii.eqb c a); [done|]. intros Hs. by rewrite (IH Hs).
Qed.

Lemma split_first c host rest :
  includes c host = false →
  split c (host ++ String c rest)%string = host :: split c rest.
Proof.
  induction host as [|a host IH];
    rewrite ?append_nil, ?append_cons; cbn [includes split].
  - intros _. by rewrite Ascii.eqb_refl.
  - destruct (Ascii.eqb c a); [done|]. intros Hh. by rewrite (IH Hh).
Qed.

(** A target that ends in a colon and a decimal number, as lines 158-160
    take it apart. *)
Lemma target_parts (host : string) (port : Z) :
  includes ":" host = false → 0 < port →
  includes ":" (host ++ ":" ++ decimal port) = true ∧
  split ":" (host ++ ":" ++ decimal port) = [host; decimal port] ∧
  parseInt (decimal port) (Some 10) = Some port.
Proof.
  intros Hhost Hport.
  change (":" ++ decimal port)%string with (String ":" (decimal port)).
  rewrite includes_app, (split_first _ _ _ Hhost).
  rewrite (split_none _ _ (includes_decimal _ Hport)).
  by rewrite (parseInt_decimal _ Hport).
Qed.

(** X11 (CONNECT target):
    a CONNECT target [host:port] with a positive decimal port (one that a
    JavaScript number holds exactly) is taken apart into that host and
    that port, whatever the request's headers. *)
Theorem connect_target_host_port
    (host : string) (port : Z) (m : string) (hs : list (string * string)) :
  includes ":" host = false → 0 < port <= 9007199254740991 →
  connectTarget {| method := m; url := (host ++ ":" ++ decimal port)%string;
                   headers := hs |}
  = (Some host, port).
Proof.
  intros Hhost [Hport _].
  destruct (target_parts host port Hhost Hport) as (Hcolon & Hsplit & Hint).
  unfold connectTarget. cbn [url]. rewrite Hcolon, Hsplit, Hint.
  unfold numberOr.
  destruct (port =? 0) eqn:E; [|done]. apply Z.eqb_eq in E. lia.
Qed.

Lemma connect_target_host_port_witness :
  connectTarget {| method := "CONNECT";
                   url := ("secure.example" ++ ":" ++ decimal 8443)%string;
                   headers := [] |}
  = (Some "secure.example"%string, 8443).
Proof.
  apply (connect_target_host_port "secure.example" 8443 "CONNECT" []);
    [reflexivity | lia].
Defined.

(** X12 (CONNECT target defaults):
    the defaults of the CONNECT target: without a colon the host is the
    [Host] header and the port 443; with an empty port, the port [0] or a
    port that is no number (it begins with an ASCII character that is
    neither a decimal digit, a sign nor white space), the port is 443. *)
Theorem connect_target_defaults
    (host word : string) (c : ascii) (m : string)
    (hs : list (string * string)) :
  includes ":" host = false →
  code c < 128 →
  (∀ d, digitVal c = Some d → 10 <= d) →
  c ≠ "-"%char → c ≠ "+"%char → isSpace c = false →
  connectTarget {| method := m; url := host; headers := hs |}
    = (snd <$> List.find (λ kv, String.eqb kv.1 "host") hs, 443) ∧
  connectTarget {| method := m; url := (host ++ ":")%string; headers := hs |}
    = (Some host, 443) ∧
  connectTarget {| method := m; url := (host ++ ":0")%string; headers := hs |}
    = (Some host, 443) ∧
  connectTarget {| method := m; url := (host ++ ":" ++ String c word)%string;
                   headers := hs |}
    = (Some host, 443).
Proof.
  intros Hhost _ Hc Hminus Hplus Hspace. unfold connectTarget.
  cbn [url headers].
  rewrite Hhost. split; [reflexivity|].
  change (host ++ ":")%string with (host ++ String ":" "")%string.
  change (host ++ ":0")%string with (host ++ String ":" "0")%string.
  change (":" ++ String c word)%string with (String ":" (String c word)).
  rewrite !includes_app, !(split_first _ _ _ Hhost).
  split; [reflexivity|]. split; [reflexivity|].
  cbn [split]. destruct (Ascii.eqb_spec ":" c) as [<-|_]; [reflexivity|].
  assert (∀ more, parseInt (String c more) (Some 10) = None) as Hnan.
  { intros more. unfold parseInt. cbn [skipSpace]. rewrite Hspace.
    assert (unsignedInt (Some 10) (String c more) = None) as Hnan.
    { cbn. destruct (digitVal c) as [d|]; [|done].
      specialize (Hc d eq_refl).
      by replace (d <? 10) with false by (symmetry; apply Z.ltb_ge; lia). }
    destruct c as [[] [] [] [] [] [] [] []]; try done. }
  destruct (split ":" word); by rewrite Hnan.
Qed.

Lemma connect_target_defaults_witness :
  connectTarget {| method := "CONNECT"; url := "secure.example";
                   headers := [("host", "secure.example")]%string |}
    = (snd <$> List.find (λ kv, String.eqb kv.1 "host")
                 [("host", "secure.example")]%string, 443) ∧
  connectTarget {| method := "CONNECT"; url := ("secure.example" ++ ":")%string;
                   headers := [("host", "secure.example")]%string |}
    = (Some "secure.example"%string, 443) ∧
  connectTarget {| method := "CONNECT"; url := ("secure.example" ++ ":0")%string;
                   headers := [("host", "secure.example")]%string |}
    = (Some "secure.example"%string, 443) ∧
  connectTarget {| method := "CONNECT";
                   url := ("secure.example" ++ ":" ++ String "h" "ttps")%string;
                   headers := [("host", "secure.example")]%string |}
    = (Some "secure.example"%string, 443).
Proof.
  apply (connect_target_defaults "secure.example" "ttps" "h" "CONNECT"
           [("host", "secure.example")]%string);
    try reflexivity; try discriminate.
  intros d Hd. vm_compute in Hd. injection Hd as <-. lia.
Defined.

End ConnectTarget.

(** ** Tunnels that fail (lines 168-177 and 202-210) *)

Section TunnelPaths.
Import JS Ship.
Context `{Platform}.

(** X13 (tunnel failure):
    the target of a tunnel cannot be reached: when the remote socket
    fails the agent ends the client socket with the status line
    [502 Bad Gateway] and keeps the request at the head of the queue;
    the socket can neither connect nor fail again; its [close] event
    then ends the client socket once more, removes the request, clears
    [processing] and calls [processingLoop] on the rest. *)
Theorem tunnel_remote_failure
    (s : State) (cur : nat) (q : list nat) (ent : Entry)
    (host : option string) (port : Z) :
  processing s = false → queue s = cur :: q →
  heap s !! cur = Some ent → isConnect ent = true →
  connectTarget (req ent) = (host, port) → 0 <= port < 65536 →
  let t := List.length (tunnels s) in
  let s1 := processingLoop s in
  ∃ s2, step s1 (ERemoteError t) = Some s2 ∧
        log s2 = OClientEnd cur (Some badGateway) :: log s1 ∧
        queue s2 = cur :: q ∧ processing s2 = true ∧
        step s2 (ERemoteConnect t) = None ∧
        step s2 (ERemoteError t) = None ∧
        ∃ m, step s2 (ERemoteClose t) = Some (processingLoop m) ∧
             log m = OClientEnd cur None :: log s2 ∧
             queue m = q ∧ processing m = false.
Proof.
  intros Hp Hq Hent Hc Htarget Hport t s1.
  pose proof (connect_opens_remote _ _ _ _ _ _ Hp Hq Hent Hc Htarget Hport)
    as Hs1. fold s1 in Hs1.
  set (u := {| tunnelOf := cur; remoteConnected := false;
               remoteDestroyed := false; remoteClosed := false |}) in Hs1.
  assert (tunnels s1 !! t = Some u) as Hu.
  { rewrite Hs1. cbn. subst t. by rewrite lookup_app_r, Nat.sub_diag by lia. }
  set (s2 := onRemoteError t u s1).
  assert (tunnels s2 = tunnels s ++ [tDestroyed u]) as Ht2.
  { subst s2. rewrite Hs1. cbn. subst t.
    rewrite alter_app_r_alt, Nat.sub_diag by lia. reflexivity. }
  assert (tunnels s2 !! t = Some (tDestroyed u)) as Hu2.
  { rewrite Ht2. subst t. by rewrite lookup_app_r, Nat.sub_diag by lia. }
  assert (queue s2 = cur :: q) as Hq2 by (subst s2; rewrite Hs1; exact Hq).
  exists s2. split; [cbn [step]; by rewrite Hu|].
  split; [reflexivity|]. split; [exact Hq2|].
  split; [subst s2; by rewrite Hs1|].
  split; [cbn [step]; by rewrite Hu2|]. split; [cbn [step]; by rewrite Hu2|].
  exact (remote_closed _ _ _ _ Hu2 eq_refl Hq2).
Qed.

(** X14 (port out of range):
    a CONNECT target whose port is above 65535: [net.connect] throws, and
    the [catch] block ends the client socket without a status line; the
    request is removed from the queue, no tunnel is opened, and
    [processingLoop] goes on with the rest. *)
Theorem connect_port_out_of_range
    (s : State) (cur : nat) (q : list nat) (ent : Entry)
    (host : string) (port : Z) :
  processing s = false → queue s = cur :: q →
  heap s !! cur = Some ent → isConnect ent = true →
  url (req ent) = (host ++ ":" ++ decimal port)%string →
  includes ":" host = false → 65536 <= port →
  ∃ m, processingLoop s = processingLoop m ∧
       log m = OClientEnd cur None :: log s ∧
       queue m = q ∧ processing m = false ∧ tunnels m = tunnels s.
Proof.
  intros Hp Hq Hent Hc Hurl Hhost Hport.
  assert (connectTarget (req ent) = (Some host, port)) as Htarget.
  { destruct (target_parts host port Hhost) as (Hcolon & Hsplit & Hint);
      [lia|].
    unfold connectTarget. rewrite Hurl, Hcolon, Hsplit, Hint.
    unfold numberOr.
    destruct (port =? 0) eqn:E; [|done]. apply Z.eqb_eq in E. lia. }
  unfold processingLoop at 1. rewrite Hq. cbn [processingLoopQ]. rewrite Hp.
  cbn zeta. change (heap (set_processing true s)) with (heap s).
  rewrite Hent, Hc. cbn [negb]. rewrite Htarget.
  replace ((0 <=? port) && (port <? 65536)) with false
    by (symmetry; apply andb_false_iff; right; apply Z.ltb_ge; lia).
  unfold catchAll, hasRes. cbn [heap set_processing]. rewrite Hent, Hc.
  cbn [negb].
  exists (set_processing false
            (set_queue q (emit (OClientEnd cur None) (set_processing true s)))).
  split; [reflexivity|]. done.
Qed.

End TunnelPaths.

(** ** The relay's queue and its outbound calls *)

Section RelayOrder.
Import JS Offshore.
Context `{Platform}.

Definition inOrder {A} (f : A → nat) (l : list A) : Prop :=
  ∀ i j a b, (i < j)%nat → l !! i = Some a → l !! j = Some b →
             (f a < f b)%nat.

(** Queued messages are in the order of their arrival, so are the calls
    by the message they were started for, and every call is for a message
    that arrived no later than those queued; when nothing is in progress
    it arrived before them. *)
Record ordered (s : State) : Prop := {
  o_queue : inOrder msgId (requestQueue s);
  o_calls : inOrder callOf (calls s);
  o_queued : ∀ x, x ∈ requestQueue s → (msgId x < nextMsg s)%nat;
  o_called : ∀ u, u ∈ calls s → (callOf u < nextMsg s)%nat;
  o_head : ∀ u x, u ∈ calls s → x ∈ requestQueue s →
           (callOf u <= msgId x)%nat ∧
           (processing s = false → (callOf u < msgId x)%nat)
}.

Lemma inOrder_nil {A} (f : A → nat) : inOrder f [].
Proof. intros i j a b _ Hi. inversion Hi. Qed.

Lemma inOrder_snoc {A} (f : A → nat) l x :
  inOrder f l → (∀ a, a ∈ l → (f a < f x)%nat) → inOrder f (l ++ [x]).
Proof.
  intros Hl Hx i j a b Hij Ha Hb.
  apply lookup_snoc_Some in Ha as [[Hi Ha]|[-> <-]],
                            Hb as [[Hj Hb]|[-> <-]].
  - by apply (Hl i j).
  - apply Hx. by eapply list_elem_of_lookup_2.
  - lia.
  - lia.
Qed.

Lemma inOrder_cons {A} (f : A → nat) x l :
  inOrder f (x :: l) → inOrder f l ∧ ∀ a, a ∈ l → (f x < f a)%nat.
Proof.
  intros Hl. split.
  - intros i j a b Hij Ha Hb. apply (Hl (S i) (S j)); [lia|done|done].
  - intros a (i & Hi)%list_elem_of_lookup. apply (Hl 0%nat (S i)); [lia|done|done].
Qed.

Lemma inOrder_alter {A} (f : A → nat) (g : A → A) c l :
  (∀ a, f (g a) = f a) → inOrder f l → inOrder f (alter g c l).
Proof.
  intros Hg Hl i j a b Hij Ha Hb.
  assert (∀ n y, alter g c l !! n = Some y →
                 ∃ y0, l !! n = Some y0 ∧ f y = f y0) as Hback.
  { intros n y Hy. destruct (decide (c = n)) as [->|Hne].
    - rewrite list_lookup_alter_eq in Hy.
      destruct (l !! n) as [y0|]; [|done]. injection Hy as <-. eauto.
    - rewrite list_lookup_alter_ne in Hy by done. eauto. }
  destruct (Hback _ _ Ha) as (a0 & Ha0 & ->).
  destruct (Hback _ _ Hb) as (b0 & Hb0 & ->). by apply (Hl i j).
Qed.

Lemma elem_of_alter_back {A} (g : A → A) c (l : list A) y :
  y ∈ alter g c l → ∃ y0, y0 ∈ l ∧ (y = y0 ∨ y = g y0).
Proof.
  intros (n & Hy)%list_elem_of_lookup. destruct (decide (c = n)) as [->|Hne].
  - rewrite list_lookup_alter_eq in Hy.
    destruct (l !! n) as [y0|] eqn:E; [|done]. injection Hy as <-.
    exists y0. split; [by eapply list_elem_of_lookup_2 | by right].
  - rewrite list_lookup_alter_ne in Hy by done.
    exists y. split; [by eapply list_elem_of_lookup_2 | by left].
Qed.

Lemma ordered_initial : ordered initial.
Proof.
  split; cbn; try apply inOrder_nil; intros; 
    match goal with Hx : _ ∈ [] |- _ => inversion Hx end.
Qed.

Lemma ordered_same s s' :
  requestQueue s' = requestQueue s → calls s' = calls s →
  nextMsg s' = nextMsg s → processing s' = processing s →
  ordered s → ordered s'.
Proof. intros Q C N P [? ? ? ? ?]. split; rewrite ?Q, ?C, ?N, ?P; done. Qed.

Lemma ordered_markCall s c g :
  (∀ u, callOf (g u) = callOf u) → ordered s → ordered (markCall c g s).
Proof.
  intros Hg [Hq Hc Hb1 Hb2 Hh]. split; cbn; try done.
  - by apply inOrder_alter.
  - intros u (u0 & Hu0 & [-> | ->])%elem_of_alter_back; rewrite ?Hg; by apply Hb2.
  - intros u x (u0 & Hu0 & [-> | ->])%elem_of_alter_back Hx; rewrite ?Hg;
      by apply Hh.
Qed.

Lemma ordered_sendFramedMessage s msgType payloadBuffer a :
  ordered s → ordered (sendFramedMessage msgType payloadBuffer a s).
Proof.
  intros Hs. unfold sendFramedMessage.
  destruct (clientSocket s) as [k|]; [|done].
  destruct (destroyed k); [done|].
  destruct (Framing.sendMessage _ _); [|done].
  by apply (ordered_same s).
Qed.

(** The head of the queue is given up: lines 127-128, and line 172. *)
Lemma ordered_shift s msg q :
  requestQueue s = msg :: q → ordered s →
  ordered (set_requestQueue q (set_processing false s)).
Proof.
  intros Hq [Hqo Hc Hb1 Hb2 Hh]. rewrite Hq in *.
  destruct (inOrder_cons _ _ _ Hqo) as [Hq' Hlt].
  split; cbn; try done.
  - intros x Hx. apply Hb1. by right.
  - intros u x Hu Hx. destruct (Hh u msg Hu) as [Hle _]; [by left|].
    specialize (Hlt x Hx). split; [lia|]. intros _. lia.
Qed.

Lemma ordered_call s msg q k e o :
  requestQueue s = msg :: q → processing s = false → ordered s →
  ordered (set_calls (calls s ++ [newCall (msgId msg) k e])
             (emit o (set_processing true s))).
Proof.
  intros Hq Hp [Hqo Hc Hb1 Hb2 Hh]. rewrite Hq in *.
  destruct (inOrder_cons _ _ _ Hqo) as [Hq' Hlt].
  split; cbn; rewrite ?Hq; try done.
  - apply inOrder_snoc; [done|]. intros u Hu.
    destruct (Hh u msg Hu) as [_ Hs]; [by left|]. by apply Hs.
  - intros u [Hu| ->%list_elem_of_singleton]%elem_of_app; [by apply Hb2|].
    cbn. apply Hb1. by left.
  - intros u x [Hu| ->%list_elem_of_singleton]%elem_of_app Hx.
    + destruct (Hh u x Hu Hx) as [Hle _]. split; [done|]. done.
    + cbn. split; [|done].
      apply elem_of_cons in Hx as [-> | Hx]; [lia|].
      specialize (Hlt x Hx). lia.
Qed.

Lemma ordered_handleRequestQueueQ q s :
  requestQueue s = q → ordered s → ordered (handleRequestQueueQ q s).
Proof.
  revert s. induction q as [|msg q IH]; intros s Hq Hs;
    cbn [handleRequestQueueQ].
  - by destruct (processing s || socketGone s).
  - destruct (processing s) eqn:Hp; [done|].
    destruct (socketGone s); [done|]. cbn [orb]. cbn zeta.
    destruct (plan (payload msg)) as [|port host|secure url m hd body].
    + apply IH; [done|]. exact (ordered_shift s msg q Hq Hs).
    + by apply (ordered_call s msg q).
    + cbn zeta.
      pose proof (ordered_call s msg q Http
                    match body with Some None => false | _ => true end
                    (ORequest (List.length (calls (set_processing true s)))
                       secure url m hd) Hq Hp Hs) as Hcall.
      destruct body as [[data|]|].
      * eapply ordered_same; [| | | |exact Hcall]; reflexivity.
      * apply IH; [done|]. refine (ordered_shift _ msg q _ Hcall). exact Hq.
      * eapply ordered_same; [| | | |exact Hcall]; reflexivity.
Qed.

Lemma ordered_handleRequestQueue s : ordered s → ordered (handleRequestQueue s).
Proof. by apply ordered_handleRequestQueueQ. Qed.

Lemma ordered_cleanupRequest s : ordered s → ordered (cleanupRequest s).
Proof.
  intros Hs. apply ordered_handleRequestQueue.
  destruct (requestQueue s) as [|msg q] eqn:Hq.
  - destruct Hs as [? ? ? ? Hh]. split; cbn; rewrite ?Hq; try done.
    + intros x Hx. inversion Hx.
    + intros u x _ Hx. inversion Hx.
  - by apply (ordered_shift s msg).
Qed.

Lemma ordered_push s msg : ordered s → ordered (push msg s).
Proof.
  intros [Hq Hc Hb1 Hb2 Hh]. split; cbn.
  - apply inOrder_snoc; [done|]. intros x Hx. cbn. by apply Hb1.
  - done.
  - intros x [Hx| ->%list_elem_of_singleton]%elem_of_app; [|cbn; lia].
    specialize (Hb1 x Hx). lia.
  - intros u Hu. specialize (Hb2 u Hu). lia.
  - intros u x Hu [Hx| ->%list_elem_of_singleton]%elem_of_app.
    + by apply Hh.
    + cbn. specialize (Hb2 u Hu). split; [lia|]. intros _. lia.
Qed.

Lemma ordered_onData s chunk : ordered s → ordered (onData chunk s).
Proof.
  intros Hs. rewrite onData_as_reader.
  apply (ordered_same (foldl onFrame s
           (Framing.readerLoop (buffer s ++ chunk)).1)); try reflexivity.
  generalize (Framing.readerLoop (buffer s ++ chunk)).1 as msgs. intros msgs.
  revert s Hs. induction msgs as [|m msgs IH]; intros s Hs; [done|].
  cbn [foldl]. apply IH. unfold onFrame. destruct (negb (m.1 =? 0)); [done|].
  by apply ordered_handleRequestQueue, ordered_push.
Qed.

Lemma ordered_step s ev s' : ordered s → step s ev = Some s' → ordered s'.
Proof.
  intros Hs Hstep. destruct ev; cbn [step] in Hstep;
    repeat case_match; try discriminate Hstep; injection Hstep as <-.
  - unfold handleClient. destruct (clientSocket s);
      by apply (ordered_same s).
  - by apply ordered_onData.
  - by apply (ordered_same s).
  - destruct Hs as [? ? ? ? ?]. split; cbn; try done.
    + intros x Hx. inversion Hx.
    + intros u x _ Hx. inversion Hx.
  - by apply ordered_cleanupRequest, ordered_sendFramedMessage,
      ordered_markCall.
  - by apply ordered_cleanupRequest, ordered_sendFramedMessage,
      ordered_markCall.
  - by apply ordered_sendFramedMessage, ordered_markCall.
  - by apply ordered_cleanupRequest, ordered_sendFramedMessage,
      ordered_markCall.
  - by apply ordered_cleanupRequest, ordered_markCall.
Qed.

Lemma ordered_run evs s s' : ordered s → run s evs = Some s' → ordered s'.
Proof.
  revert s. induction evs as [|ev evs IH]; intros s Hs; cbn [run].
  - by intros [= <-].
  - destruct (step s ev) as [s1|] eqn:E; [|done]. cbn.
    apply IH. eapply ordered_step; eauto.
Qed.

(** X15 (relay order):
    in every state the relay reaches, its outbound calls were started in
    the order in which their messages arrived, at most one call per
    message; the queue holds messages in arrival order; and no call was
    started for a message that arrived after one still queued. *)
Theorem relay_calls_in_arrival_order (evs : list Event) (r : State) :
  run initial evs = Some r →
  inOrder callOf (calls r) ∧ inOrder msgId (requestQueue r) ∧
  ∀ u x, u ∈ calls r → x ∈ requestQueue r → (callOf u <= msgId x)%nat.
Proof.
  intros Hrun. destruct (ordered_run _ _ _ ordered_initial Hrun)
    as [Hq Hc _ _ Hh].
  split; [exact Hc|]. split; [exact Hq|]. intros u x Hu Hx.
  by destruct (Hh u x Hu Hx).
Qed.

End RelayOrder.

(** ** What the relay does with a request envelope, and where it writes *)

Section RelayPaths.
Import JS Offshore.
Context `{Platform}.

(** A whole type-0 frame reaches a relay that has nothing buffered: lines
    144-158. *)
Lemma relay_frame_arrives (s : State) sock payload frame :
  clientSocket s = Some sock → destroyed sock = false → buffer s = [] →
  Framing.sendMessage 0 payload = Some frame →
  step s (EData (sockId sock) frame)
  = Some (set_buffer [] (handleRequestQueue (push payload s))).
Proof.
  intros Hsock Halive Hbuf Hframe. cbn [step]. unfold isSocket.
  rewrite Hsock, Nat.eqb_refl, Halive. f_equal.
  rewrite onData_as_reader, Hbuf. cbn [app].
  pose proof (readerLoop_frame 0 payload frame [] ltac:(lia) Hframe) as Hloop.
  rewrite app_nil_r, readerLoop_nil in Hloop. rewrite Hloop.
  reflexivity.
Qed.

Lemma socketGone_alive (s : State) sock :
  clientSocket s = Some sock → destroyed sock = false → socketGone s = false.
Proof. intros Hsock Halive. unfold socketGone. by rewrite Hsock. Qed.

(** An idle relay takes up the message it has just queued. *)
Lemma handleRequestQueue_push_idle (s : State) sock msg :
  clientSocket s = Some sock → destroyed sock = false →
  requestQueue s = [] → processing s = false →
  handleRequestQueue (push msg s)
  = let s1 := set_processing true (push msg s) in
    let c := List.length (calls s1) in
    match plan msg with
    | Throws =>
        handleRequestQueueQ []
          (set_requestQueue [] (set_processing false s1))
    | Connect port host =>
        set_calls (calls s1 ++ [newCall (nextMsg s) Tunnel false])
          (emit (ONetConnect c port host) s1)
    | Forward secure requestUrl m hd body =>
        let willEnd := match body with Some None => false | _ => true end in
        let s2 := set_calls (calls s1 ++ [newCall (nextMsg s) Http willEnd])
                    (emit (ORequest c secure requestUrl m hd) s1) in
        match body with
        | Some None =>
            handleRequestQueueQ []
              (set_requestQueue [] (set_processing false s2))
        | Some (Some data) => emit (OEndRequest c) (emit (OBody c data) s2)
        | None => emit (OEndRequest c) s2
        end
    end.
Proof.
  intros Hsock Halive Hq Hp. unfold handleRequestQueue.
  replace (requestQueue (push msg s))
    with [{| msgId := nextMsg s; payload := msg |}]
    by (cbn; by rewrite Hq).
  cbn [handleRequestQueueQ].
  change (processing (push msg s)) with (processing s).
  change (socketGone (push msg s)) with (socketGone s).
  rewrite Hp, (socketGone_alive s sock Hsock Halive). reflexivity.
Qed.





(** The headers of the agent's envelope: line 122 of the agent. *)
Definition headersValue (r : Ship.IncomingMessage) : value :=
  Some (JObj (map (λ kv, (kv.1, JStr kv.2)) (Ship.headers r))).

Lemma hasHttpScheme_nonempty str : hasHttpScheme str = true → truthy (Some (JStr str)) = true.
Proof. by destruct str. Qed.

(** The plan of the relay for the envelope the agent builds. *)
Lemma plan_requestPayload (r : Ship.IncomingMessage) (text : string) :
  JSON_parse (JSON_stringify (Ship.requestPayload r text))
    = Some (Ship.requestPayload r text) →
  String.eqb (toUpperCase (Ship.method r)) "CONNECT" = false →
  hasHttpScheme (Ship.url r) = true →
  requestAccepted (Ship.url r) (Some (JStr (Ship.method r))) (headersValue r)
    = true →
  plan (Buffer_from (JSON_stringify (Ship.requestPayload r text)))
  = Forward (String.prefix "HTTPS://" (toUpperCase (Ship.url r)))
      (Ship.url r) (Some (JStr (Ship.method r))) (headersValue r)
      (if String.eqb text "" then None else Some (fromBase64 (JStr text))).
Proof.
  intros Hjson Hm Hurl Hacc. unfold plan.
  rewrite toString_Buffer_from, Hjson.
  assert (forwardPlan (Ship.requestPayload r text)
          = Forward (String.prefix "HTTPS://" (toUpperCase (Ship.url r)))
              (Ship.url r) (Some (JStr (Ship.method r))) (headersValue r)
              (if String.eqb text "" then None
               else Some (fromBase64 (JStr text)))) as Hfwd.
  { unfold forwardPlan, Ship.requestPayload.
    cbn [get field String.eqb Ascii.eqb Bool.eqb].
    unfold or at 2. rewrite (hasHttpScheme_nonempty _ Hurl).
    unfold or. rewrite (hasHttpScheme_nonempty _ Hurl).
    cbn [toStr]. rewrite Hurl. fold (headersValue r). rewrite Hacc.
    cbn [truthy]. by destruct (String.eqb text ""). }
  unfold Ship.requestPayload at 1 2.
  cbn [get field String.eqb Ascii.eqb Bool.eqb].
  fold (Ship.requestPayload r text).
  destruct (truthy (Some (JStr (Ship.method r)))); [|exact Hfwd].
  rewrite Hm. cbn [andb]. exact Hfwd.
Qed.

(** X18 (request round trip):
    a request travels from the agent to the origin: the agent frames
    method, URL, headers and the base64 text of the body (lines 118-125 of
    the agent); when the frame reaches an idle relay whole, the relay
    starts one outbound request with that URL, that method and those
    headers, writes the decoded body when its text is not empty, and ends
    the request (lines 71-118).  Nothing is written when the body is
    empty.  JSON and base64 are the platform's; they are assumed to read
    back what they wrote here. *)
Theorem request_round_trip (r : Ship.IncomingMessage)
    (bodyChunks : list Buffer) (s : State) (sock : Socket) (frame : Buffer) :
  clientSocket s = Some sock → destroyed sock = false → buffer s = [] →
  requestQueue s = [] → processing s = false →
  Framing.sendMessage 0
    (Buffer_from (JSON_stringify
       (Ship.requestPayload r (toBase64 (concat bodyChunks))))) = Some frame →
  JSON_parse (JSON_stringify
                (Ship.requestPayload r (toBase64 (concat bodyChunks))))
    = Some (Ship.requestPayload r (toBase64 (concat bodyChunks))) →
  fromBase64 (JStr (toBase64 (concat bodyChunks))) = Some (concat bodyChunks) →
  String.eqb (toUpperCase (Ship.method r)) "CONNECT" = false →
  hasHttpScheme (Ship.url r) = true →
  requestAccepted (Ship.url r) (Some (JStr (Ship.method r))) (headersValue r)
    = true →
  ∃ s', step s (EData (sockId sock) frame) = Some s' ∧
        log s'
        = (if String.eqb (toBase64 (concat bodyChunks)) ""
           then [OEndRequest (List.length (calls s))]
           else [OEndRequest (List.length (calls s));
                 OBody (List.length (calls s)) (concat bodyChunks)]) ++
          ORequest (List.length (calls s))
            (String.prefix "HTTPS://" (toUpperCase (Ship.url r)))
            (Ship.url r) (Some (JStr (Ship.method r))) (headersValue r)
          :: log s ∧
        calls s' = calls s ++ [newCall (nextMsg s) Http true] ∧
        processing s' = true ∧ buffer s' = [].
Proof.
  intros Hsock Halive Hbuf Hq Hp Hframe Hjson Hb64 Hm Hurl Hacc.
  eexists. split; [by apply relay_frame_arrives|].
  rewrite (handleRequestQueue_push_idle s sock) by done.
  rewrite (plan_requestPayload r _ Hjson Hm Hurl Hacc). cbn zeta.
  destruct (String.eqb (toBase64 (concat bodyChunks)) "").
  - by cbn.
  - rewrite Hb64. by cbn.
Qed.

(** *** A CONNECT envelope at the relay (lines 44-66) *)

Lemma calls_after_push (l : list Call) (u : Call) (g : Call → Call) :
  (l ++ [u]) !! List.length l = Some u ∧
  alter g (List.length l) (l ++ [u]) = l ++ [g u].
Proof.
  split; [by apply list_lookup_middle|].
  rewrite alter_app_r_alt by lia. by rewrite Nat.sub_diag.
Qed.

(** The plan for a CONNECT envelope whose target is a host, a colon and
    a decimal port (lines 41-47). *)
Lemma plan_connect (msg : Buffer) (fields : list (string * json))
    (m host : string) (port : Z) :
  JSON_parse (toString msg) = Some (JObj fields) →
  field "method" fields = Some (JStr m) → toUpperCase m = "CONNECT"%string →
  field "url" fields = Some (JStr (host ++ ":" ++ decimal port)) →
  includes ":" host = false → 0 < port < 65536 →
  plan msg = Connect port host.
Proof.
  intros Hjson Hm Hup Hurl Hhost Hport. unfold plan. rewrite Hjson.
  cbn [get]. rewrite Hm, Hurl.
  assert (truthy (Some (JStr m)) = true) as -> by (by destruct m).
  rewrite Hup. cbn [String.eqb Ascii.eqb Bool.eqb andb].
  destruct (target_parts host port Hhost) as (_ & Hsplit & _); [lia|].
  assert (truthy (Some (JStr (host ++ ":" ++ decimal port))) = true) as ->.
  { change (":" ++ decimal port)%string with (String ":" (decimal port)).
    destruct host; reflexivity. }
  unfold connectPlan. rewrite Hsplit, parseInt_decimal_auto by lia.
  unfold numberOr.
  replace (port =? 0) with false by (symmetry; apply Z.eqb_neq; lia).
  replace (0 <=? port) with true by (symmetry; apply Z.leb_le; lia).
  by replace (port <? 65536) with true by (symmetry; apply Z.ltb_lt; lia).
Qed.

(** X19 (relay tunnel):
    an idle relay receives whole a CONNECT envelope whose target is a
    host, a colon and a decimal port between 1 and 65535: it opens a
    socket to that host and port and stays busy.  When that socket
    connects, the relay writes one type-1 frame with the payload [OK] and
    remains busy with the message at the head of its queue; the socket's
    [close] then removes the message and leaves the relay idle, without a
    frame.  When instead the socket fails, the relay writes one type-1
    frame with the payload [FAIL], removes the message and is idle. *)
Theorem relay_tunnel (s : State) (sock : Socket) (msg frame : Buffer)
    (fields : list (string * json)) (m host : string) (port : Z) :
  clientSocket s = Some sock → destroyed sock = false → buffer s = [] →
  requestQueue s = [] → processing s = false →
  Framing.sendMessage 0 msg = Some frame →
  JSON_parse (toString msg) = Some (JObj fields) →
  field "method" fields = Some (JStr m) → toUpperCase m = "CONNECT"%string →
  field "url" fields = Some (JStr (host ++ ":" ++ decimal port)) →
  includes ":" host = false → 0 < port < 65536 →
  ∃ s1 ok fail,
    step s (EData (sockId sock) frame) = Some s1 ∧
    log s1 = ONetConnect (List.length (calls s)) port host :: log s ∧
    processing s1 = true ∧
    requestQueue s1 = [{| msgId := nextMsg s; payload := msg |}] ∧
    Framing.sendMessage 1 (Buffer_from "OK") = Some ok ∧
    Framing.sendMessage 1 (Buffer_from "FAIL") = Some fail ∧
    (∃ s2 s3,
       step s1 (ERemoteConnect (List.length (calls s))) = Some s2 ∧
       log s2 = OWrite (sockId sock) (nextMsg s) ok :: log s1 ∧
       processing s2 = true ∧ requestQueue s2 = requestQueue s1 ∧
       step s2 (ERemoteClose (List.length (calls s))) = Some s3 ∧
       log s3 = log s2 ∧ processing s3 = false ∧ requestQueue s3 = []) ∧
    (∃ s2,
       step s1 (ERemoteError (List.length (calls s))) = Some s2 ∧
       log s2 = OWrite (sockId sock) (nextMsg s) fail :: log s1 ∧
       processing s2 = false ∧ requestQueue s2 = []).
Proof.
  intros Hsock Halive Hbuf Hq Hp Hframe Hjson Hm Hup Hurl Hhost Hport.
  pose proof (plan_connect msg fields m host port Hjson Hm Hup Hurl Hhost
                Hport) as Hplan.
  set (c := List.length (calls s)).
  set (u := newCall (nextMsg s) Tunnel false).
  set (s1 := set_buffer []
               (set_calls (calls s ++ [u])
                  (emit (ONetConnect c port host)
                     (set_processing true (push msg s))))).
  destruct (calls_after_push (calls s) u cConnected) as [Hu Hconn].
  destruct (calls_after_push (calls s) u cDestroyed) as [_ Hfail].
  destruct (calls_after_push (calls s) (cConnected u) cOver) as [Hu' _].
  assert (∃ ok, Framing.sendMessage 1 (Buffer_from "OK") = Some ok)
    as [ok Eok] by (eexists; reflexivity).
  assert (∃ fail, Framing.sendMessage 1 (Buffer_from "FAIL") = Some fail)
    as [fail Efail] by (eexists; reflexivity).
  exists s1, ok, fail.
  split.
  { rewrite (relay_frame_arrives s sock msg frame) by done.
    rewrite (handleRequestQueue_push_idle s sock) by done.
    by rewrite Hplan. }
  split; [reflexivity|]. split; [reflexivity|].
  split; [cbn; by rewrite Hq|].
  split; [exact Eok|]. split; [exact Efail|].
  assert (calls s1 !! c = Some u) as Hcall by exact Hu.
  split.
  - set (s2 := sendFramedMessage 1 (Buffer_from "OK") (callOf u)
                 (markCall c cConnected s1)).
    assert (step s1 (ERemoteConnect c) = Some s2) as Hstep2.
    { cbn [step]. by rewrite Hcall. }
    assert (s2 = emit (OWrite (sockId sock) (nextMsg s) ok)
                   (set_calls (calls s ++ [cConnected u]) s1)) as Es2.
    { unfold s2, sendFramedMessage, markCall.
      change (clientSocket (set_calls _ s1)) with (clientSocket s).
      rewrite Hsock, Halive, Eok. change (calls s1) with (calls s ++ [u]).
      unfold c. by rewrite Hconn. }
    exists s2. eexists.
    split; [exact Hstep2|]. rewrite Es2.
    split; [reflexivity|]. split; [reflexivity|]. split; [reflexivity|].
    split.
    { cbn [step calls emit set_log set_calls]. unfold c. rewrite Hu'.
      reflexivity. }
    unfold onRemoteClose, cleanupRequest, handleRequestQueue, s1. cbn.
    rewrite Hq. cbn. by destruct (socketGone _).
  - set (s2 := cleanupRequest
                 (sendFramedMessage 1 (Buffer_from "FAIL") (callOf u)
                    (markCall c cDestroyed s1))).
    assert (step s1 (ERemoteError c) = Some s2) as Hstep2.
    { cbn [step]. by rewrite Hcall. }
    exists s2. split; [exact Hstep2|].
    unfold s2, sendFramedMessage, markCall.
    change (clientSocket (set_calls _ s1)) with (clientSocket s).
    rewrite Hsock, Halive, Efail.
    unfold cleanupRequest, handleRequestQueue, s1. cbn.
    rewrite Hq. cbn. by destruct (socketGone _).
Qed.

(** ** Where the relay writes *)

(** [o], when it is a write, goes to the socket [s] holds, which is not
    destroyed. *)
Definition toHeld (s : State) (o : Output) : Prop :=
  ∀ k a bytes, o = OWrite k a bytes →
    ∃ sock, clientSocket s = Some sock ∧ sockId sock = k ∧
            destroyed sock = false.

(** [s'] holds the socket of [s] and has logged more, writes only to that
    socket. *)
Record grows (s s' : State) : Prop := {
  g_socket : clientSocket s' = clientSocket s;
  g_log : ∃ new, log s' = new ++ log s ∧ Forall (toHeld s) new
}.

Lemma grows_refl s : grows s s.
Proof. split; [done|]. by exists []. Qed.

Lemma grows_trans s1 s2 s3 : grows s1 s2 → grows s2 s3 → grows s1 s3.
Proof.
  intros [E1 (n1 & L1 & F1)] [E2 (n2 & L2 & F2)]. split; [congruence|].
  exists (n2 ++ n1). split; [by rewrite L2, L1, app_assoc|].
  apply Forall_app. split; [|done].
  eapply Forall_impl; [|exact F2]. intros o Ho. unfold toHeld in *.
  by rewrite <- E1.
Qed.

Lemma grows_same s s' :
  clientSocket s' = clientSocket s → log s' = log s → grows s s'.
Proof. intros E L. split; [done|]. by exists []. Qed.

Lemma grows_emit s o : toHeld s o → grows s (emit o s).
Proof.
  intros Ho. split; [done|]. exists [o]. split; [done|].
  by apply Forall_singleton.
Qed.

Lemma grows_quiet s s' o :
  clientSocket s' = clientSocket s → log s' = o :: log s →
  (∀ k a bytes, o ≠ OWrite k a bytes) → grows s s'.
Proof.
  intros E L Ho. split; [done|]. exists [o]. split; [done|].
  apply Forall_singleton. intros k a bytes Heq. by destruct (Ho k a bytes).
Qed.

Lemma grows_sendFramedMessage s msgType payloadBuffer a :
  grows s (sendFramedMessage msgType payloadBuffer a s).
Proof.
  unfold sendFramedMessage.
  destruct (clientSocket s) as [k|] eqn:Hsock; [|apply grows_refl].
  destruct (destroyed k) eqn:Halive; [apply grows_refl|].
  destruct (Framing.sendMessage _ _); [|apply grows_refl].
  apply grows_emit. intros k' a' bytes' [= <- _ _]. eauto.
Qed.

Lemma grows_handleRequestQueueQ q s : grows s (handleRequestQueueQ q s).
Proof.
  revert s. induction q as [|msg q IH]; intros s; cbn [handleRequestQueueQ].
  - destruct (processing s || socketGone s); apply grows_refl.
  - destruct (processing s || socketGone s); [apply grows_refl|]. cbn zeta.
    destruct (plan (payload msg)) as [|port host|secure url m hd body].
    + eapply grows_trans; [|apply IH]. by apply grows_same.
    + by eapply grows_quiet.
    + cbn zeta.
      assert (grows s
        (set_calls (calls (set_processing true s) ++
            [newCall (msgId msg) Http
               match body with Some None => false | _ => true end])
           (emit (ORequest (List.length (calls (set_processing true s)))
                    secure url m hd) (set_processing true s)))) as Hcall.
      { by eapply grows_quiet. }
      destruct body as [[data|]|].
      * eapply grows_trans; [exact Hcall|].
        eapply (grows_trans _ (emit (OBody _ data) _)); by eapply grows_quiet.
      * eapply grows_trans; [exact Hcall|].
        eapply grows_trans; [|apply IH]. by apply grows_same.
      * eapply grows_trans; [exact Hcall|]. by eapply grows_quiet.
Qed.

Lemma grows_cleanupRequest s : grows s (cleanupRequest s).
Proof.
  eapply grows_trans; [|apply grows_handleRequestQueueQ]. by apply grows_same.
Qed.

Lemma grows_onFrame s m : grows s (onFrame s m).
Proof.
  unfold onFrame. destruct (negb (m.1 =? 0)); [apply grows_refl|].
  eapply grows_trans; [|apply grows_handleRequestQueueQ]. by apply grows_same.
Qed.

Lemma grows_onData s chunk : grows s (onData chunk s).
Proof.
  rewrite onData_as_reader.
  apply (grows_trans _
           (foldl onFrame s (Framing.readerLoop (buffer s ++ chunk)).1));
    [|by apply grows_same].
  generalize (Framing.readerLoop (buffer s ++ chunk)).1 as msgs. intros msgs.
  assert (∀ s0, grows s s0 → grows s (foldl onFrame s0 msgs)) as Hall.
  { induction msgs as [|m msgs IH]; intros s0 Hs0; [done|].
    cbn [foldl]. apply IH. eapply grows_trans; [exact Hs0|apply grows_onFrame]. }
  apply Hall, grows_refl.
Qed.

Lemma grows_markCall s c g : grows s (markCall c g s).
Proof. by apply grows_same. Qed.

(** X16 (relay writes):
    whatever happens, the relay writes frames to no socket but the one it
    holds at that moment, and never to a destroyed one: the frames a
    callback writes (the answer of an outbound call, [OK] or [FAIL] of a
    tunnel) go to the connection held when the callback runs, also when the
    request had come over an earlier connection. *)
Theorem relay_writes_to_held_socket (s s' : State) (ev : Event) :
  step s ev = Some s' →
  ∃ new, log s' = new ++ log s ∧
         ∀ k a bytes, OWrite k a bytes ∈ new →
           ∃ sock, clientSocket s = Some sock ∧ sockId sock = k ∧
                   destroyed sock = false.
Proof.
  intros Hstep.
  assert ((∃ new, log s' = new ++ log s ∧ Forall (toHeld s) new) →
          ∃ new, log s' = new ++ log s ∧
            ∀ k a bytes, OWrite k a bytes ∈ new →
              ∃ sock, clientSocket s = Some sock ∧ sockId sock = k ∧
                      destroyed sock = false) as Hfin.
  { intros (new & Hlog & Hall). exists new. split; [done|].
    intros k a bytes Hin. rewrite list.Forall_forall in Hall.
    by apply (Hall _ Hin k a bytes). }
  apply Hfin.
  destruct ev; cbn [step] in Hstep;
    repeat case_match; try discriminate Hstep; injection Hstep as <-.
  - unfold handleClient. destruct (clientSocket s).
    + exists [OReject sock]. split; [done|]. by apply Forall_singleton.
    + by exists [].
  - apply grows_onData.
  - by exists [].
  - by exists [].
  - unfold onResponseEnd.
    refine (g_log _ _ (grows_trans _ _ _ (grows_markCall s _ cOver) _)).
    eapply grows_trans; [apply grows_sendFramedMessage|apply grows_cleanupRequest].
  - unfold onRequestError.
    refine (g_log _ _ (grows_trans _ _ _ (grows_markCall s _ cOver) _)).
    eapply grows_trans; [apply grows_sendFramedMessage|apply grows_cleanupRequest].
  - unfold onRemoteConnect.
    refine (g_log _ _ (grows_trans _ _ _ (grows_markCall s _ cConnected) _)).
    apply grows_sendFramedMessage.
  - unfold onRemoteError.
    refine (g_log _ _ (grows_trans _ _ _ (grows_markCall s _ cDestroyed) _)).
    eapply grows_trans; [apply grows_sendFramedMessage|apply grows_cleanupRequest].
  - unfold onRemoteClose.
    refine (g_log _ _ (grows_trans _ _ _ (grows_markCall s _ cOver) _)).
    apply grows_cleanupRequest.
Qed.

End RelayPaths.

(** ** The further properties at concrete inputs *)

Section MoreWitnesses.
Import JS Reference Ship.

Lemma tunnel_remote_failure_witness :
  ∃ s2, Ship.step (Ship.processingLoop queuedX) (ERemoteError 0) = Some s2 ∧
        log s2 = OClientEnd 0 (Some badGateway)
                   :: log (processingLoop queuedX) ∧
        queue s2 = [0; 1]%nat ∧ processing s2 = true ∧
        step s2 (ERemoteConnect 0) = None ∧
        step s2 (ERemoteError 0) = None ∧
        ∃ m, step s2 (ERemoteClose 0) = Some (processingLoop m) ∧
             log m = OClientEnd 0 None :: log s2 ∧
             queue m = [1%nat] ∧ processing m = false.
Proof.
  apply (tunnel_remote_failure queuedX 0 [1%nat] entryX
           (Some "secure.example"%string) 8443);
    try (vm_compute; reflexivity). lia.
Defined.

Definition entryFar : Entry :=
  {| req := {| method := "CONNECT";
               url := ("secure.example" ++ ":" ++ decimal 70000)%string;
               headers := [] |};
     isConnect := true; resolved := None; reqFlow := Paused;
     clientClosed := false |}.

Definition queuedFar : State :=
  set_heap [entryFar] (set_queue [0%nat] (shipAfter arrivedX)).

Lemma connect_port_out_of_range_witness :
  ∃ m, processingLoop queuedFar = processingLoop m ∧
       log m = OClientEnd 0 None :: log queuedFar ∧
       queue m = [] ∧ processing m = false ∧
       tunnels m = tunnels queuedFar.
Proof.
  apply (connect_port_out_of_range queuedFar 0 [] entryFar
           "secure.example" 70000);
    try reflexivity. lia.
Defined.

(** *** The connection to the relay *)

(** The first connection is refused. *)
Definition refusedOnce : list Event := [EListening; ESockError 0].

Definition refused : State := shipAfter refusedOnce.

Lemma one_socket_at_a_time_witness :
  sockId <$> offshoreSocket refused = head (opened refused) ∧
  (opened (shipAfter (refusedOnce ++ [EHttpRequest reqB])) = opened refused ∨
   socketUsable refused = false ∧
   ∃ k, opened (shipAfter (refusedOnce ++ [EHttpRequest reqB]))
        = k :: opened refused).
Proof.
  apply (one_socket_at_a_time refusedOnce refused
           (shipAfter (refusedOnce ++ [EHttpRequest reqB]))
           (EHttpRequest reqB)); vm_compute; reflexivity.
Defined.

Lemma one_reconnect_timer_witness :
  (List.length (reconnects refused) <= 1)%nat ∧
  ∀ x, x ∈ timers refused → action x = Reconnect →
       reconnectTimer refused = Some (timerId x).
Proof.
  apply (one_reconnect_timer refusedOnce refused). vm_compute. reflexivity.
Defined.

(** The timer of the refused connection is due; the next connection fails
    as well. *)
Definition retryDue : list Event := refusedOnce ++ [EAdvance 5000].

Definition refusedAgain : list Event := [ESockError 2; ESockClose 2].

Lemma reconnect_timer_not_rearmed_witness :
  reconnectTimer (shipAfter (retryDue ++ ETimer 1 :: refusedAgain)) = Some 1%nat ∧
  ∀ y, y ∈ timers (shipAfter (retryDue ++ ETimer 1 :: refusedAgain)) →
       action y = Wake.
Proof.
  apply (reconnect_timer_not_rearmed retryDue refusedAgain
           (shipAfter retryDue) (shipAfter (retryDue ++ [ETimer 1]))
           (shipAfter (retryDue ++ ETimer 1 :: refusedAgain)) 1
           {| timerId := 1; deadline := 5000; action := Reconnect |});
    try (vm_compute; reflexivity).
  repeat constructor; intros k; discriminate.
Defined.

Lemma queue_in_arrival_order_witness :
  ascending (queue waitingB) ∧
  (∀ e, e ∈ queue waitingB → (e < List.length (heap waitingB))%nat) ∧
  (∃ n, queue (shipAfter (arrivedB ++ [EHttpRequest reqC]))
        = drop n (queue waitingB ++ pushed (EHttpRequest reqC) waitingB)) ∧
  List.length (heap (shipAfter (arrivedB ++ [EHttpRequest reqC])))
  = (List.length (heap waitingB)
     + List.length (pushed (EHttpRequest reqC) waitingB))%nat.
Proof.
  apply (queue_in_arrival_order arrivedB waitingB
           (shipAfter (arrivedB ++ [EHttpRequest reqC])) (EHttpRequest reqC));
    vm_compute; reflexivity.
Defined.



(** *** Responses *)

Lemma waiting_inFlightB : waiting 0 1 20000 inFlightB.
Proof.
  split; try (vm_compute; reflexivity).
  - exists (entryB Ended). vm_compute. done.
  - vm_compute. discriminate.
  - vm_compute. discriminate.
Qed.

Definition plainText : list (string * json) :=
  [("content-type", JStr "text/plain")]%string.

Definition okFrame : Buffer :=
  default []
    (Framing.sendMessage 1
       (Offshore.responseMsg 200 (JObj plainText) (Buffer_from "hello"))).

Lemma response_round_trip_witness :
  (∃ m, Offshore.step (shoreAfter twoQueued)
          (Offshore.EResponse 0 200 (JObj plainText) (Buffer_from "hello"))
          = Some (Offshore.cleanupRequest m) ∧
        Offshore.log m
          = Offshore.OWrite (Offshore.sockId relaySocket0)
              (Offshore.callOf callB) okFrame
              :: Offshore.log (shoreAfter twoQueued)) ∧
  (∃ m, step inFlightB (ESockData (sockId socket0) okFrame)
          = Some (processingLoop m) ∧
        log m = OEnd 0 (Buffer_from "hello")
                  :: OWriteHead 0 (JNum 200) (Some (JObj plainText))
                  :: log inFlightB ∧
        queue m = tail (queue inFlightB) ∧ processing m = false).
Proof.
  apply (response_round_trip (shoreAfter twoQueued) 0 callB relaySocket0
           200 plainText (Buffer_from "hello") okFrame
           inFlightB socket0 0 1 20000);
    try (vm_compute; reflexivity).
  - lia.
  - exact waiting_inFlightB.
Defined.

Definition noJson : Buffer := Buffer_from "<html>".

Definition noJsonFrame : Buffer := default [] (Framing.sendMessage 1 noJson).

Lemma malformed_response_bad_gateway_witness :
  ∃ m, step inFlightB (ESockData (sockId socket0) noJsonFrame)
         = Some (processingLoop m) ∧
       log m = OEnd 0 (Buffer_from "Bad Gateway") :: log inFlightB ∧
       queue m = tail (queue inFlightB) ∧ processing m = false.
Proof.
  apply (malformed_response_bad_gateway inFlightB socket0 0 1 20000
           noJson noJsonFrame);
    try (vm_compute; reflexivity).
  - exact waiting_inFlightB.
  - left. vm_compute. reflexivity.
Defined.

Definition emptyObject : Buffer := Buffer_from "{}".

Definition emptyObjectFrame : Buffer :=
  default [] (Framing.sendMessage 1 emptyObject).

Lemma empty_envelope_defaults_witness :
  ∃ m, step inFlightB (ESockData (sockId socket0) emptyObjectFrame)
         = Some (processingLoop m) ∧
       log m = OEnd 0 [] :: OWriteHead 0 (JNum 200) (Some (JObj []))
                 :: log inFlightB ∧
       queue m = tail (queue inFlightB) ∧ processing m = false.
Proof.
  apply (empty_envelope_defaults inFlightB socket0 0 1 20000
           emptyObject emptyObjectFrame []);
    try (vm_compute; reflexivity).
  exact waiting_inFlightB.
Defined.

(** *** The relay *)

Lemma relay_calls_in_arrival_order_witness :
  inOrder Offshore.callOf (Offshore.calls (shoreAfter twoQueued)) ∧
  inOrder Offshore.msgId (Offshore.requestQueue (shoreAfter twoQueued)) ∧
  ∀ u x, u ∈ Offshore.calls (shoreAfter twoQueued) →
         x ∈ Offshore.requestQueue (shoreAfter twoQueued) →
         (Offshore.callOf u <= Offshore.msgId x)%nat.
Proof.
  apply (relay_calls_in_arrival_order twoQueued (shoreAfter twoQueued)).
  vm_compute. reflexivity.
Defined.

Lemma relay_writes_to_held_socket_witness :
  ∃ new, Offshore.log (shoreAfter (twoQueued ++
                         [Offshore.ERequestError 0 enotfound]))
         = new ++ Offshore.log (shoreAfter twoQueued) ∧
         ∀ k a bytes, Offshore.OWrite k a bytes ∈ new →
           ∃ sock, Offshore.clientSocket (shoreAfter twoQueued) = Some sock ∧
                   Offshore.sockId sock = k ∧
                   Offshore.destroyed sock = false.
Proof.
  apply (relay_writes_to_held_socket (shoreAfter twoQueued)
           (shoreAfter (twoQueued ++ [Offshore.ERequestError 0 enotfound]))
           (Offshore.ERequestError 0 enotfound)).
  vm_compute. reflexivity.
Defined.




Definition reqUpload : IncomingMessage :=
  {| method := "POST"; url := "http://b.example/upload";
     headers := [("host", "b.example"); ("content-length", "2")]%string |}.

Definition bodyUpload : list Buffer := [Buffer_from "h"; Buffer_from "i"].

Definition frameUpload : Buffer :=
  default []
    (Framing.sendMessage 0
       (Buffer_from (JSON_stringify
          (requestPayload reqUpload (toBase64 (concat bodyUpload)))))).

Lemma request_round_trip_witness :
  ∃ s', Offshore.step acceptedRelay
          (Offshore.EData (Offshore.sockId relaySocket0) frameUpload) = Some s' ∧
        Offshore.log s'
        = (if String.eqb (toBase64 (concat bodyUpload)) ""
           then [Offshore.OEndRequest (List.length (Offshore.calls acceptedRelay))]
           else [Offshore.OEndRequest (List.length (Offshore.calls acceptedRelay));
                 Offshore.OBody (List.length (Offshore.calls acceptedRelay))
                   (concat bodyUpload)]) ++
          Offshore.ORequest (List.length (Offshore.calls acceptedRelay))
            (String.prefix "HTTPS://" (toUpperCase (url reqUpload)))
            (url reqUpload) (Some (JStr (method reqUpload))) (headersValue reqUpload)
          :: Offshore.log acceptedRelay ∧
        Offshore.calls s'
        = Offshore.calls acceptedRelay ++
          [Offshore.newCall (Offshore.nextMsg acceptedRelay) Offshore.Http true] ∧
        Offshore.processing s' = true ∧ Offshore.buffer s' = [].
Proof.
  apply (request_round_trip reqUpload bodyUpload acceptedRelay relaySocket0 frameUpload);
    vm_compute; reflexivity.
Defined.

(** The envelope of [reqX], had the agent sent it to the relay. *)
Definition envelopeX : Buffer :=
  Buffer_from (JSON_stringify (requestPayload reqX (toBase64 []))).

Lemma relay_tunnel_witness :
  ∃ s1 ok fail,
    Offshore.step acceptedRelay
      (Offshore.EData (Offshore.sockId relaySocket0) (frameOf reqX))
      = Some s1 ∧
    Offshore.log s1
      = Offshore.ONetConnect (List.length (Offshore.calls acceptedRelay))
          8443 "secure.example" :: Offshore.log acceptedRelay ∧
    Offshore.processing s1 = true ∧
    Offshore.requestQueue s1
      = [{| Offshore.msgId := Offshore.nextMsg acceptedRelay;
            Offshore.payload := envelopeX |}] ∧
    Framing.sendMessage 1 (Buffer_from "OK") = Some ok ∧
    Framing.sendMessage 1 (Buffer_from "FAIL") = Some fail ∧
    (∃ s2 s3,
       Offshore.step s1
         (Offshore.ERemoteConnect (List.length (Offshore.calls acceptedRelay)))
         = Some s2 ∧
       Offshore.log s2
         = Offshore.OWrite (Offshore.sockId relaySocket0)
             (Offshore.nextMsg acceptedRelay) ok :: Offshore.log s1 ∧
       Offshore.processing s2 = true ∧
       Offshore.requestQueue s2 = Offshore.requestQueue s1 ∧
       Offshore.step s2
         (Offshore.ERemoteClose (List.length (Offshore.calls acceptedRelay)))
         = Some s3 ∧
       Offshore.log s3 = Offshore.log s2 ∧ Offshore.processing s3 = false ∧
       Offshore.requestQueue s3 = []) ∧
    (∃ s2,
       Offshore.step s1
         (Offshore.ERemoteError (List.length (Offshore.calls acceptedRelay)))
         = Some s2 ∧
       Offshore.log s2
         = Offshore.OWrite (Offshore.sockId relaySocket0)
             (Offshore.nextMsg acceptedRelay) fail :: Offshore.log s1 ∧
       Offshore.processing s2 = false ∧ Offshore.requestQueue s2 = []).
Proof.
  apply (relay_tunnel acceptedRelay relaySocket0 envelopeX (frameOf reqX)
           [("type", JStr "http"); ("method", JStr "CONNECT");
            ("url", JStr "secure.example:8443");
            ("headers", JObj [("host", JStr "secure.example:8443")]);
            ("body", JStr "")]%string
           "CONNECT" "secure.example" 8443);
    try (vm_compute; reflexivity). lia.
Defined.

Lemma unsolicited_frames_ignored_witness :
  step (shipAfter arrivedX) (ESockData (sockId socket0) okFrame)
  = Some (set_readerBuffer
            (Framing.onData (readerBuffer (shipAfter arrivedX)) okFrame).2
            (shipAfter arrivedX)).
Proof.
  apply (unsolicited_frames_ignored (shipAfter arrivedX) socket0 okFrame);
    vm_compute; reflexivity.
Defined.

End MoreWitnesses.
